(** * CryptoDash: the price-refresh pipeline of [static/js/main.js]

    A shallow embedding of the browser script: JavaScript numbers and the
    built-in number formatters, the document tree the script reads and
    writes, the timer table, and the functions of [main.js] over them. *)

From Stdlib Require Import ZArith NArith List String Ascii Bool Lia.
From Stdlib Require Import Floats.SpecFloat.
From Stdlib Require Decimal.
Import ListNotations.

Local Open Scope string_scope.
Local Open Scope list_scope.

(** ** Characters and strings *)

Definition chars (s : string) : list ascii := list_ascii_of_string s.
Definition text (l : list ascii) : string := string_of_list_ascii l.

Definition is_digit (c : ascii) : bool :=
  let n := nat_of_ascii c in (48 <=? n)%nat && (n <=? 57)%nat.

Definition is_point (c : ascii) : bool := Ascii.eqb c ".".

(** The characters after the first decimal point of a rendering. *)
Fixpoint after_point (l : list ascii) : option (list ascii) :=
  match l with
  | [] => None
  | c :: r => if is_point c then Some r else after_point r
  end.

Fixpoint leading_digits (l : list ascii) : nat :=
  match l with
  | c :: r => if is_digit c then S (leading_digits r) else 0
  | [] => 0
  end.

(** How many fractional digits a rendered number shows: the digits that
    follow its decimal point, [None] when it has no decimal point. *)
Definition fraction_digits (s : string) : option nat :=
  option_map leading_digits (after_point (chars s)).

Definition digit_or_comma (c : ascii) : bool :=
  is_digit c || Ascii.eqb c ",".

Definition begins_with (c : ascii) (s : string) : bool :=
  match s with
  | String d _ => Ascii.eqb c d
  | EmptyString => false
  end.

(** ** JavaScript numbers

    A Number is an IEEE 754 binary64 value; [spec_float] is the standard
    library's datatype for them: NaN, the two infinities, the two zeros and
    [(-1)^s * m * 2^e]. *)
Module Number.

Definition number := spec_float.

Definition prec : Z := 53.
Definition emax : Z := 1024.

(** The Number nearest to an integer literal (round to nearest, ties to
    even), as the parser of a numeric literal produces it. *)
Definition of_Z (z : Z) : number := binary_normalize prec emax z 0 false.

Definition NaN : number := S754_nan.
Definition Infinity : number := S754_infinity false.

(** [x / y] on Numbers. *)
Definition div (x y : number) : number := SFdiv prec emax x y.

Definition exponent (x : number) : Z :=
  match x with S754_finite _ _ e => e | _ => 0 end.

(** The signed value of a finite Number in units of [2^k], for a [k] not
    above its exponent. *)
Definition scaled (k : Z) (x : number) : Z :=
  match x with
  | S754_finite s m e => cond_Zopp s (Zpos m * 2 ^ (e - k))
  | _ => 0
  end.

(** IEEE comparison on exact values: unordered when either side is NaN,
    and the two zeros are equal. *)
Definition compare (x y : number) : option comparison :=
  match x, y with
  | S754_nan, _ | _, S754_nan => None
  | S754_infinity s1, S754_infinity s2 =>
      Some (match s1, s2 with
            | true, false => Lt
            | false, true => Gt
            | _, _ => Eq
            end)
  | S754_infinity s, _ => Some (if s then Lt else Gt)
  | _, S754_infinity s => Some (if s then Gt else Lt)
  | _, _ =>
      let k := Z.min (exponent x) (exponent y) in
      Some (Z.compare (scaled k x) (scaled k y))
  end.

(** [x >= y] and [x < y] of JavaScript: both false on NaN. *)
Definition ge (x y : number) : bool :=
  match compare x y with
  | Some Gt | Some Eq => true
  | _ => false
  end.

Definition lt (x y : number) : bool :=
  match compare x y with
  | Some Lt => true
  | _ => false
  end.

(** [Math.abs(x)] *)
Definition abs (x : number) : number := SFabs x.

Definition is_finite (x : number) : bool :=
  match x with
  | S754_zero _ | S754_finite _ _ _ => true
  | _ => false
  end.

(** *** Decimal digits *)

Fixpoint uint_chars (u : Decimal.uint) : list ascii :=
  match u with
  | Decimal.Nil => []
  | Decimal.D0 u => "0"%char :: uint_chars u
  | Decimal.D1 u => "1"%char :: uint_chars u
  | Decimal.D2 u => "2"%char :: uint_chars u
  | Decimal.D3 u => "3"%char :: uint_chars u
  | Decimal.D4 u => "4"%char :: uint_chars u
  | Decimal.D5 u => "5"%char :: uint_chars u
  | Decimal.D6 u => "6"%char :: uint_chars u
  | Decimal.D7 u => "7"%char :: uint_chars u
  | Decimal.D8 u => "8"%char :: uint_chars u
  | Decimal.D9 u => "9"%char :: uint_chars u
  end.

(** The decimal representation of a natural number, ["0"] for zero, with no
    leading zero otherwise. *)
Definition decimal (n : N) : list ascii := uint_chars (N.to_uint n).

(** The integer [n] for which [n / 10^f - m * 2^e] is as close to zero as
    possible, the larger one when there are two. *)
Definition nearest_scaled (m : positive) (e : Z) (f : nat) : N :=
  let p := (Zpos m * 10 ^ Z.of_nat f)%Z in
  Z.to_N (if (0 <=? e)%Z then p * 2 ^ e
          else (2 * p + 2 ^ (- e)) / 2 ^ (1 - e))%Z.

(** [m * 2^e >= 10^21] *)
Definition at_least_1e21 (m : positive) (e : Z) : bool :=
  if (0 <=? e)%Z then (10 ^ 21 <=? Zpos m * 2 ^ e)%Z
  else (10 ^ 21 * 2 ^ (- e) <=? Zpos m)%Z.

(** The digits of [n] as a fixed-point rendering with [f] fractional
    digits: the integer digits and the fractional digits. The decimal
    representation is padded with zeros on the left up to [f + 1] characters
    and split [f] characters before its end. *)
Definition fixed_parts (n : N) (f : nat) : list ascii * list ascii :=
  let m := decimal n in
  let k := List.length m in
  let m := if (k <=? f)%nat then repeat "0"%char (f + 1 - k) ++ m else m in
  let k := List.length m in
  (firstn (k - f) m, skipn (k - f) m).

Definition fixed_point (n : N) (f : nat) : list ascii :=
  let (a, b) := fixed_parts n f in
  match f with
  | O => a
  | S _ => a ++ "."%char :: b
  end.

(** *** Number::toString, for the values [toFixed] hands to it *)

Definition same_number (x y : number) : bool :=
  match compare x y with
  | Some Eq => true
  | _ => false
  end.

(** The decimal value [s * 10^(n-k)] with the fewest digits [k] that reads
    back as [x]; [v] is the value of [x], [nd] the number of digits of [v].
    Among several candidates with [k] digits the closest to [v] is taken,
    the even one when both are as close. *)
Fixpoint shortest (up : nat) (k : nat) (x : number) (v : Z) (nd : nat) : Z :=
  match up with
  | O => v
  | S up' =>
      let scale := (10 ^ Z.of_nat (nd - k))%Z in
      let lo := (v / scale)%Z in
      let hi := (lo + 1)%Z in
      let ok_lo := same_number (of_Z (lo * scale)) x in
      let ok_hi := same_number (of_Z (hi * scale)) x in
      match ok_lo, ok_hi with
      | true, false => (lo * scale)%Z
      | false, true => (hi * scale)%Z
      | true, true =>
          match (v - lo * scale ?= hi * scale - v)%Z with
          | Lt => (lo * scale)%Z
          | Gt => (hi * scale)%Z
          | Eq => if Z.even lo then (lo * scale)%Z else (hi * scale)%Z
          end
      | false, false => shortest up' (S k) x v nd
      end
  end.

Fixpoint strip_zeros (rev_digits : list ascii) : list ascii :=
  match rev_digits with
  | c :: r => if Ascii.eqb c "0" then strip_zeros r else rev_digits
  | [] => []
  end.

(** Number::toString of a positive finite [m * 2^e >= 10^21]: always in
    exponent notation, [d.ddd e+n]. *)
Definition toString_from_1e21 (m : positive) (e : Z) : list ascii :=
  let v := (if (0 <=? e)%Z then Zpos m * 2 ^ e else Zpos m / 2 ^ (- e))%Z in
  let nd := List.length (decimal (Z.to_N v)) in
  let c := shortest nd 1 (S754_finite false m e) v nd in
  let all := decimal (Z.to_N c) in
  let n := List.length all in
  let ds := rev (strip_zeros (rev all)) in
  match ds with
  | [] => []
  | d :: [] => d :: chars "e+" ++ decimal (N.of_nat (n - 1))
  | d :: r => d :: "."%char :: r ++ chars "e+" ++ decimal (N.of_nat (n - 1))
  end.

(** *** Number.prototype.toFixed *)

Definition toFixed (x : number) (fractionDigits : nat) : string :=
  match x with
  | S754_nan => "NaN"
  | S754_infinity s => if s then "-Infinity" else "Infinity"
  | S754_zero _ => text (fixed_point 0 fractionDigits)
  | S754_finite s m e =>
      ((if s then "-" else "") ++
       text (if at_least_1e21 m e then toString_from_1e21 m e
             else fixed_point (nearest_scaled m e fractionDigits)
                    fractionDigits))%string
  end.

(** *** Intl.NumberFormat and toLocaleString, locale en-US *)

(** Thousands separators, on the integer digits in reverse. *)
Fixpoint group3 (rev_digits : list ascii) : list ascii :=
  match rev_digits with
  | a :: b :: c :: (_ :: _) as r => a :: b :: c :: ","%char :: group3 r
  | l => l
  end.

Definition grouped (digits : list ascii) : list ascii :=
  rev (group3 (rev digits)).

Definition sign_bit (x : number) : bool :=
  match x with
  | S754_zero s | S754_infinity s | S754_finite s _ _ => s
  | S754_nan => false
  end.

(** The decimal rounding of the magnitude of a finite Number to [f]
    fractional digits, half away from zero. *)
Definition rounded (x : number) (f : nat) : N :=
  match x with
  | S754_finite _ m e => nearest_scaled m e f
  | _ => 0%N
  end.

(** [new Intl.NumberFormat('en-US', {style: 'currency', currency: 'USD',
    minimumFractionDigits: d, maximumFractionDigits: d}).format(x)] *)
Definition format_currency_USD (d : nat) (x : number) : string :=
  ((if sign_bit x then "-" else "") ++ "$" ++
   match x with
   | S754_nan => "NaN"
   | S754_infinity _ => "∞"
   | _ =>
       let (a, b) := fixed_parts (rounded x d) d in
       text (match d with
             | O => grouped a
             | S _ => grouped a ++ "."%char :: b
             end)
   end)%string.

(** [x.toLocaleString()] in an en-US locale: grouped, at most three
    fractional digits and no trailing fractional zero. *)
Definition toLocaleString (x : number) : string :=
  ((if sign_bit x then "-" else "") ++
   match x with
   | S754_nan => "NaN"
   | S754_infinity _ => "∞"
   | _ =>
       let (a, b) := fixed_parts (rounded x 3) 3 in
       let b := rev (strip_zeros (rev b)) in
       text (match b with
             | [] => grouped a
             | _ => grouped a ++ "."%char :: b
             end)
   end)%string.

End Number.

Import Number.

(** ** The formatters of [main.js] *)

(** [formatPrice(price)] *)
Definition formatPrice (price : number) : string :=
  if ge price (of_Z 1) then format_currency_USD 2 price
  else format_currency_USD 6 price.

(** [formatPercentage(percentage)] *)
Definition formatPercentage (percentage : number) : string :=
  let sign := if ge percentage (of_Z 0) then "+" else "" in
  (sign ++ toFixed percentage 2 ++ "%")%string.

(** [formatLargeNumber(number)] *)
Definition formatLargeNumber (n : number) : string :=
  if ge n (of_Z (10 ^ 12))
  then (toFixed (div n (of_Z (10 ^ 12))) 1 ++ "T")%string
  else if ge n (of_Z (10 ^ 9))
  then (toFixed (div n (of_Z (10 ^ 9))) 1 ++ "B")%string
  else if ge n (of_Z (10 ^ 6))
  then (toFixed (div n (of_Z (10 ^ 6))) 1 ++ "M")%string
  else if ge n (of_Z (10 ^ 3))
  then (toFixed (div n (of_Z (10 ^ 3))) 1 ++ "K")%string
  else toLocaleString n.

(** The abbreviation of large numbers in the words of its description: the
    thresholds in descending order with their suffixes, the first one the
    number reaches divides it, and the quotient is shown with one decimal
    place; a number that reaches none is shown by [toLocaleString]. *)
Definition thresholds : list (Z * string) :=
  [(10 ^ 12, "T"); (10 ^ 9, "B"); (10 ^ 6, "M"); (10 ^ 3, "K")]%Z.

Definition abbreviate (n : number) : string :=
  match find (fun t => ge n (of_Z (fst t))) thresholds with
  | Some (t, suffix) => (toFixed (div n (of_Z t)) 1 ++ suffix)%string
  | None => toLocaleString n
  end.

(** A grouped plain number, in the words of the same description and
    with the separators of the en-US locale: after the minus sign of a
    negative one, the integer digits in groups of three separated by
    commas, behind a first group of one to three digits, and then at most
    three fractional digits behind a point. *)
Definition grouped_plain (negative : bool) (s : string) : Prop :=
  exists (g : list ascii) (gs : list (list ascii)) (frac : list ascii),
    s = ((if negative then "-" else "")
         ++ text (g ++ flat_map (cons ","%char) gs
                  ++ match frac with
                     | [] => []
                     | _ => "."%char :: frac
                     end))%string
    /\ forallb is_digit (g ++ List.concat gs ++ frac) = true
    /\ (1 <= List.length g <= 3)%nat
    /\ Forall (fun x => List.length x = 3%nat) gs
    /\ (List.length frac <= 3)%nat.

(** ** Strings as [main.js] uses them *)

(** [s] with the prefix [p] taken off, when it starts with [p]. *)
Fixpoint strip (p s : string) : option string :=
  match p with
  | EmptyString => Some s
  | String c p' =>
      match s with
      | String d s' => if Ascii.eqb c d then strip p' s' else None
      | EmptyString => None
      end
  end.

(** [s.includes(sub)] *)
Fixpoint includes (s sub : string) : bool :=
  match strip sub s with
  | Some _ => true
  | None =>
      match s with
      | String _ s' => includes s' sub
      | EmptyString => false
      end
  end.

(** [s.replace(/text-(success|danger)/, '')]: the leftmost match is cut
    out, the rest is kept. *)
Fixpoint replace_text_class (s : string) : string :=
  match strip "text-success" s with
  | Some r => r
  | None =>
      match strip "text-danger" s with
      | Some r => r
      | None =>
          match s with
          | String c s' => String c (replace_text_class s')
          | EmptyString => EmptyString
          end
      end
  end.

(** ASCII whitespace, which separates the tokens of a class attribute. *)
Definition is_space (c : ascii) : bool :=
  let n := nat_of_ascii c in
  (n =? 9)%nat || (n =? 10)%nat || (n =? 12)%nat || (n =? 13)%nat
  || (n =? 32)%nat.

Definition add_token (w : string) (ts : list string) : list string :=
  match w with
  | EmptyString => ts
  | _ => w :: ts
  end.

(** The run of non-space characters [s] starts with, and the tokens after
    it. *)
Fixpoint split (s : string) : string * list string :=
  match s with
  | EmptyString => (EmptyString, [])
  | String c s' =>
      let (w, ts) := split s' in
      if is_space c then (EmptyString, add_token w ts) else (String c w, ts)
  end.

Definition tokens (s : string) : list string :=
  let (w, ts) := split s in add_token w ts.

Definition mem (x : string) (l : list string) : bool :=
  existsb (String.eqb x) l.

(** Insertion into an ordered set, as [Set.prototype.add] and token sets
    do it: a new value goes last, a present one changes nothing. *)
Definition set_add (l : list string) (x : string) : list string :=
  if mem x l then l else l ++ [x].

(** [[...new Set(l)]]: the values of [l] in order of first occurrence. *)
Definition unique (l : list string) : list string :=
  fold_left set_add l [].

(** ** The document tree *)
Module Dom.

Definition attributes := list (string * string).

(** A node is a text node or an element; an element has an identity, by
    which the script's variables refer to it. *)
Unset Elimination Schemes.
Inductive node : Type :=
| Text (data : string)
| Element (id : nat) (localName : string) (attrs : attributes)
    (childNodes : list node).
Set Elimination Schemes.

Section node_induction.
Variable P : node -> Prop.
Hypothesis HText : forall s, P (Text s).
Hypothesis HElement :
  forall i n a cs, Forall P cs -> P (Element i n a cs).

Fixpoint node_induction (t : node) : P t :=
  match t with
  | Text s => HText s
  | Element i n a cs =>
      HElement i n a cs
        ((fix all (l : list node) : Forall P l :=
            match l with
            | [] => Forall_nil P
            | c :: r => Forall_cons c (node_induction c) (all r)
            end) cs)
  end.
End node_induction.

Section first_some.
Context {A B : Type}.
Variable f : A -> option B.

Fixpoint first_some (l : list A) : option B :=
  match l with
  | [] => None
  | x :: r =>
      match f x with
      | Some y => Some y
      | None => first_some r
      end
  end.
End first_some.

Definition getAttribute (name : string) (a : attributes) : option string :=
  option_map snd (find (fun p => String.eqb (fst p) name) a).

Fixpoint setAttribute (name value : string) (a : attributes) : attributes :=
  match a with
  | [] => [(name, value)]
  | (k, v) :: r =>
      if String.eqb k name then (k, value) :: r
      else (k, v) :: setAttribute name value r
  end.

(** The two attribute selectors of the script. *)
Definition has_attribute (name : string) (a : attributes) : bool :=
  match getAttribute name a with
  | Some _ => true
  | None => false
  end.

Definition attribute_is (name value : string) (a : attributes) : bool :=
  match getAttribute name a with
  | Some v => String.eqb v value
  | None => false
  end.

Definition has_id (id : nat) (t : node) : bool :=
  match t with
  | Element i _ _ _ => (i =? id)%nat
  | Text _ => false
  end.

(** The elements of a subtree that match a selector, in tree order, the
    root of the subtree included. *)
Fixpoint matching (sel : attributes -> bool) (t : node) : list nat :=
  match t with
  | Text _ => []
  | Element i _ a cs =>
      (if sel a then [i] else []) ++ flat_map (matching sel) cs
  end.

Definition childNodes_of (t : node) : list node :=
  match t with
  | Element _ _ _ cs => cs
  | Text _ => []
  end.

(** The element with a given identity, when the tree holds it. *)
Fixpoint lookup (id : nat) (t : node) : option node :=
  match t with
  | Text _ => None
  | Element i _ _ cs =>
      if (i =? id)%nat then Some t else first_some (lookup id) cs
  end.

(** [el.parentNode], for an element held by the tree. *)
Fixpoint parentNode (id : nat) (t : node) : option nat :=
  match t with
  | Text _ => None
  | Element i _ _ cs =>
      if existsb (has_id id) cs then Some i
      else first_some (parentNode id) cs
  end.

(** [g] applied to the element with identity [id]. *)
Fixpoint update (id : nat) (g : node -> node) (t : node) : node :=
  match t with
  | Text s => Text s
  | Element i n a cs =>
      if (i =? id)%nat then g t else Element i n a (map (update id g) cs)
  end.

(** The tree without the element [id] and what is below it. *)
Fixpoint remove (id : nat) (t : node) : node :=
  match t with
  | Text s => Text s
  | Element i n a cs =>
      Element i n a
        (filter (fun c => negb (has_id id c)) (map (remove id) cs))
  end.

(** [node.textContent]: the data of the text nodes below, in tree order. *)
Fixpoint textContent (t : node) : string :=
  match t with
  | Text s => s
  | Element _ _ _ cs => String.concat "" (map textContent cs)
  end.

(** Local changes of one element. *)
Definition append_child (child : node) (t : node) : node :=
  match t with
  | Element i n a cs => Element i n a (cs ++ [child])
  | Text s => Text s
  end.

Definition with_attribute (name value : string) (t : node) : node :=
  match t with
  | Element i n a cs => Element i n (setAttribute name value a) cs
  | Text s => Text s
  end.

(** The [textContent] setter: the children are replaced by one text node,
    by none for the empty string. *)
Definition text_nodes (s : string) : list node :=
  match s with
  | EmptyString => []
  | _ => [Text s]
  end.

Definition with_textContent (s : string) (t : node) : node :=
  match t with
  | Element i n a cs => Element i n a (text_nodes s)
  | Text _ => Text s
  end.

Definition id_of (t : node) : nat :=
  match t with
  | Element i _ _ _ => i
  | Text _ => 0
  end.

Definition attrs_of (t : node) : attributes :=
  match t with
  | Element _ _ a _ => a
  | Text _ => []
  end.

(** The class attribute, empty when there is none. *)
Definition class_of (a : attributes) : string :=
  match getAttribute "class" a with
  | Some s => s
  | None => EmptyString
  end.

Definition className_of (t : node) : string := class_of (attrs_of t).

(** [classList.add(token)]: the token set with the token added, written
    back through the ordered-set serializer. *)
Definition with_class_added (token : string) (t : node) : node :=
  with_attribute "class"
    (String.concat " " (set_add (unique (tokens (className_of t))) token)) t.

End Dom.

Import Dom.

(** ** The page: what the script reads and writes *)

(** One quote of the mapping a fetch resolves with. *)
Record quote := { usd : number; usd_24h_change : number }.

(** The mapping: its own properties, one quote for each coin. *)
Definition prices := list (string * quote).

(** The mapping is an object, and besides its own properties it has the
    members every object inherits from [Object.prototype]. *)
Definition Object_prototype : list string :=
  ["constructor"; "hasOwnProperty"; "isPrototypeOf";
   "propertyIsEnumerable"; "toLocaleString"; "toString"; "valueOf";
   "__proto__"; "__defineGetter__"; "__defineSetter__";
   "__lookupGetter__"; "__lookupSetter__"].

Definition inherited (coinId : string) : bool := mem coinId Object_prototype.

(** [prices[coinId]] for a coin identifier that is not the name of an
    inherited member: the quote the mapping has for it, if any. For the
    name of an inherited member the read finds that member, which is
    outside of what is modelled here. *)
Definition quote_of (ps : prices) (coinId : string) : option quote :=
  option_map snd (find (fun p => String.eqb (fst p) coinId) ps).

(** What a timer runs when it fires. *)
Inductive callback :=
| UpdatePrices
| RemoveNotification (notification : nat)
| WelcomeMessage.

Record timer := {
  handle : nat;
  repeating : bool;
  delay : Z;
  action : callback
}.

(** A call of [fetchCoinPrices] whose promise is pending, with the
    [priceElements] its handlers hold. *)
Record request := {
  coinIds : list string;
  priceElements : list nat
}.

Record page := {
  body : node;                        (* document.body and what is below *)
  next_node : nat;                    (* identity of the next created element *)
  pathname : string;                  (* window.location.pathname *)
  hidden : bool;                      (* document.hidden *)
  visited : bool;                     (* localStorage 'cryptodash-visited' *)
  priceUpdateInterval : option nat;   (* the global, undefined at first *)
  timers : list timer;                (* active timeouts and intervals *)
  next_timer : nat;                   (* handle of the next timer *)
  pending : list request;             (* fetches in flight *)
  console : list string               (* console.error lines *)
}.

Definition set_body (b : node) (st : page) : page :=
  {| body := b; next_node := next_node st; pathname := pathname st;
     hidden := hidden st; visited := visited st;
     priceUpdateInterval := priceUpdateInterval st; timers := timers st;
     next_timer := next_timer st; pending := pending st;
     console := console st |}.

Definition set_next_node (n : nat) (st : page) : page :=
  {| body := body st; next_node := n; pathname := pathname st;
     hidden := hidden st; visited := visited st;
     priceUpdateInterval := priceUpdateInterval st; timers := timers st;
     next_timer := next_timer st; pending := pending st;
     console := console st |}.

Definition set_hidden (h : bool) (st : page) : page :=
  {| body := body st; next_node := next_node st; pathname := pathname st;
     hidden := h; visited := visited st;
     priceUpdateInterval := priceUpdateInterval st; timers := timers st;
     next_timer := next_timer st; pending := pending st;
     console := console st |}.

Definition set_visited (v : bool) (st : page) : page :=
  {| body := body st; next_node := next_node st; pathname := pathname st;
     hidden := hidden st; visited := v;
     priceUpdateInterval := priceUpdateInterval st; timers := timers st;
     next_timer := next_timer st; pending := pending st;
     console := console st |}.

Definition set_priceUpdateInterval (h : option nat) (st : page) : page :=
  {| body := body st; next_node := next_node st; pathname := pathname st;
     hidden := hidden st; visited := visited st;
     priceUpdateInterval := h; timers := timers st;
     next_timer := next_timer st; pending := pending st;
     console := console st |}.

Definition set_timers (ts : list timer) (n : nat) (st : page) : page :=
  {| body := body st; next_node := next_node st; pathname := pathname st;
     hidden := hidden st; visited := visited st;
     priceUpdateInterval := priceUpdateInterval st; timers := ts;
     next_timer := n; pending := pending st; console := console st |}.

Definition set_pending (rs : list request) (st : page) : page :=
  {| body := body st; next_node := next_node st; pathname := pathname st;
     hidden := hidden st; visited := visited st;
     priceUpdateInterval := priceUpdateInterval st; timers := timers st;
     next_timer := next_timer st; pending := rs; console := console st |}.

Definition set_console (c : list string) (st : page) : page :=
  {| body := body st; next_node := next_node st; pathname := pathname st;
     hidden := hidden st; visited := visited st;
     priceUpdateInterval := priceUpdateInterval st; timers := timers st;
     next_timer := next_timer st; pending := pending st; console := c |}.

(** *** Document operations on the page

    An element that is no longer below [document.body] is not part of the
    page: reading it finds nothing and writing it changes nothing of the
    document. *)

(** [document.createElement(name)] *)
Definition createElement (name : string) (st : page) : node * page :=
  (Element (next_node st) name [] [], set_next_node (S (next_node st)) st).

(** [document.querySelectorAll(selector)] *)
Definition querySelectorAll (sel : attributes -> bool) (st : page)
  : list nat :=
  matching sel (body st).

(** [el.querySelector(selector)]: the first element below [el] that
    matches. *)
Definition querySelector (el : nat) (sel : attributes -> bool) (st : page)
  : option nat :=
  match lookup el (body st) with
  | Some n => hd_error (flat_map (matching sel) (childNodes_of n))
  | None => None
  end.

(** [el.dataset.coinId] *)
Definition dataset_coinId (el : nat) (st : page) : option string :=
  match lookup el (body st) with
  | Some n => getAttribute "data-coin-id" (attrs_of n)
  | None => None
  end.

(** [el.className] *)
Definition className (el : nat) (st : page) : string :=
  match lookup el (body st) with
  | Some n => className_of n
  | None => EmptyString
  end.

(** [el.classList.contains(token)] *)
Definition classList_contains (el : nat) (token : string) (st : page)
  : bool :=
  mem token (tokens (className el st)).

(** [el.appendChild(child)] *)
Definition appendChild (el : nat) (child : node) (st : page) : page :=
  set_body (update el (append_child child) (body st)) st.

(** [el.remove()] *)
Definition remove_element (el : nat) (st : page) : page :=
  set_body (remove el (body st)) st.

(** [el.textContent = s] *)
Definition set_textContent (el : nat) (s : string) (st : page) : page :=
  set_body (update el (with_textContent s) (body st)) st.

(** [el.className = s] *)
Definition set_className (el : nat) (s : string) (st : page) : page :=
  set_body (update el (with_attribute "class" s) (body st)) st.

(** [el.classList.add(token)] *)
Definition classList_add (el : nat) (token : string) (st : page) : page :=
  set_body (update el (with_class_added token) (body st)) st.

Definition coin_tagged : attributes -> bool := has_attribute "data-coin-id".
Definition loading_marker : attributes -> bool :=
  attribute_is "data-loading" "true".

(** [setTimeout(action, delay)] and [setInterval(action, delay)]: the new
    timer's handle, a positive integer, and the page that holds it. *)
Definition set_timer (rep : bool) (a : callback) (d : Z) (st : page)
  : nat * page :=
  (next_timer st,
   set_timers
     (timers st ++
      [{| handle := next_timer st; repeating := rep; delay := d;
          action := a |}])
     (S (next_timer st)) st).

Definition setTimeout := set_timer false.
Definition setInterval := set_timer true.

(** [clearInterval(handle)] *)
Definition clearInterval (h : nat) (st : page) : page :=
  set_timers (filter (fun t => negb (handle t =? h)%nat) (timers st))
    (next_timer st) st.

(** ** [main.js] *)

Definition line_break : string := String (ascii_of_nat 10) EmptyString.

(** [showNotification(message, type = 'info', duration = 3000)]. The
    markup assigned to [innerHTML] is the message, taken as text, and the
    close button. *)
Definition showNotification (message : string) (type : option string)
    (duration : option Z) (st : page) : page :=
  let type := match type with Some t => t | None => "info" end in
  let duration := match duration with Some d => d | None => 3000%Z end in
  let (notification, st) := createElement "div" st in
  let notification :=
    with_attribute "class"
      ("alert alert-" ++ type
       ++ " alert-dismissible fade show position-fixed")%string
      notification in
  let notification :=
    with_attribute "style"
      "top: 20px; right: 20px; z-index: 9999; min-width: 300px;"
      notification in
  let (button, st) := createElement "button" st in
  let button :=
    with_attribute "data-bs-dismiss" "alert"
      (with_attribute "class" "btn-close"
         (with_attribute "type" "button" button)) in
  let notification :=
    append_child (Text (line_break ++ "    ")%string)
      (append_child button
         (append_child
            (Text (line_break ++ "        " ++ message ++ line_break
                   ++ "        ")%string)
            notification)) in
  let st := set_body (append_child notification (body st)) st in
  snd (setTimeout (RemoveNotification (id_of notification)) duration st).

(** The callback [showNotification] hands to [setTimeout]:
    [if (notification.parentNode) notification.remove()]. *)
Definition remove_notification (notification : nat) (st : page) : page :=
  match parentNode notification (body st) with
  | Some _ => remove_element notification st
  | None => st
  end.

(** [showLoadingIndicators(elements)] *)
Definition showLoadingIndicators (elements : list nat) (st : page) : page :=
  fold_left
    (fun st el =>
       let (spinner, st) := createElement "div" st in
       let spinner := with_attribute "class" "loading-spinner" spinner in
       let spinner := with_attribute "data-loading" "true" spinner in
       appendChild el spinner st)
    elements st.

(** [hideLoadingIndicators(elements)] *)
Definition hideLoadingIndicators (elements : list nat) (st : page) : page :=
  fold_left
    (fun st el =>
       match querySelector el loading_marker st with
       | Some spinner => remove_element spinner st
       | None => st
       end)
    elements st.

(** The body of the [forEach] of [updatePriceElements], for one element. *)
Definition updatePriceElement (ps : prices) (st : page) (el : nat) : page :=
  match dataset_coinId el st with
  | None => st
  | Some coinId =>
      match quote_of ps coinId with
      | None => st
      | Some price =>
          let st :=
            if classList_contains el "price-display" st
            then set_textContent el (formatPrice (usd price)) st
            else st in
          if classList_contains el "change-display" st
          then
            let change := usd_24h_change price in
            let st := set_textContent el (formatPercentage change) st in
            let st :=
              set_className el (replace_text_class (className el st)) st in
            classList_add el
              (if ge change (of_Z 0) then "text-success" else "text-danger")
              st
          else st
      end
  end.

(** [updatePriceElements(prices)] *)
Definition updatePriceElements (ps : prices) (st : page) : page :=
  fold_left (updatePriceElement ps) (querySelectorAll coin_tagged st) st.

(** [fetchCoinPrices(coinIds)], up to the promise it returns: the call is
    in flight, and settles later with a mapping or with an error. The
    timeout by which the mock implementation resolves its promise is this
    pending request; it is not among [timers]. *)
Definition fetchCoinPrices (ids : list string) (elements : list nat)
    (st : page) : page :=
  set_pending
    (pending st ++ [{| coinIds := ids; priceElements := elements |}]) st.

(** [Array.from(priceElements).map(el => el.dataset.coinId)] *)
Definition dataset_coinIds (elements : list nat) (st : page) : list string :=
  flat_map
    (fun el =>
       match dataset_coinId el st with
       | Some c => [c]
       | None => []
       end)
    elements.

(** [updatePrices()], up to the point where it waits for the fetch. *)
Definition updatePrices (st : page) : page :=
  let priceElements := querySelectorAll coin_tagged st in
  match priceElements with
  | [] => st
  | _ =>
      let coinIds := dataset_coinIds priceElements st in
      let uniqueCoinIds := unique coinIds in
      let st := showLoadingIndicators priceElements st in
      fetchCoinPrices uniqueCoinIds priceElements st
  end.

(** The [then] handler of [updatePrices]. *)
Definition updatePrices_then (priceElements : list nat) (ps : prices)
    (st : page) : page :=
  let st := updatePriceElements ps st in
  hideLoadingIndicators priceElements st.

(** The [catch] handler of [updatePrices]. *)
Definition updatePrices_catch (priceElements : list nat) (error : string)
    (st : page) : page :=
  let st :=
    set_console
      (console st ++ [("Failed to update prices: " ++ error)%string]) st in
  let st := hideLoadingIndicators priceElements st in
  showNotification "Failed to update prices" (Some "error") None st.

(** How a pending fetch settles. *)
Inductive outcome :=
| Fulfilled (ps : prices)
| Rejected (error : string).

(** The oldest pending fetch settles and its handler runs. *)
Definition settle (o : outcome) (st : page) : page :=
  match pending st with
  | [] => st
  | r :: rest =>
      let st := set_pending rest st in
      match o with
      | Fulfilled ps => updatePrices_then (priceElements r) ps st
      | Rejected e => updatePrices_catch (priceElements r) e st
      end
  end.

(** One refresh cycle from its start to the settling of its fetch. *)
Definition refresh_cycle (o : outcome) (st : page) : page :=
  settle o (updatePrices st).

(** [refreshPrices()] *)
Definition refreshPrices (st : page) : page :=
  updatePrices (showNotification "Refreshing prices..." (Some "info")
                  (Some 1000%Z) st).

(** [startPriceUpdates()] *)
Definition startPriceUpdates (st : page) : page :=
  if includes (pathname st) "/dashboard"
     || includes (pathname st) "/portfolio"
  then
    let (h, st) := setInterval UpdatePrices 30000 st in
    set_priceUpdateInterval (Some h) st
  else st.

(** [if (priceUpdateInterval) clearInterval(priceUpdateInterval)]: a
    handle is truthy unless it is undefined or zero. *)
Definition clear_priceUpdateInterval (st : page) : page :=
  match priceUpdateInterval st with
  | Some (S h) => clearInterval (S h) st
  | _ => st
  end.

(** [showWelcomeMessage()] *)
Definition showWelcomeMessage (st : page) : page :=
  if negb (visited st) && String.eqb (pathname st) "/"
  then snd (setTimeout WelcomeMessage 1000 st)
  else st.

(** The listeners. Of the [DOMContentLoaded] listener, the wiring of
    tooltips, modals, theme, search and click handlers leaves the page
    state as it is. *)
Definition on_DOMContentLoaded (st : page) : page :=
  startPriceUpdates (showWelcomeMessage st).

Definition on_visibilitychange (st : page) : page :=
  if hidden st then clear_priceUpdateInterval st
  else startPriceUpdates st.

Definition on_beforeunload (st : page) : page :=
  clear_priceUpdateInterval st.

Definition on_online (st : page) : page :=
  updatePrices (showNotification "Connection restored" (Some "success")
                  None st).

Definition on_offline (st : page) : page :=
  showNotification "Connection lost" (Some "warning") None st.

(** What a timer callback does. *)
Definition run (a : callback) (st : page) : page :=
  match a with
  | UpdatePrices => updatePrices st
  | RemoveNotification n => remove_notification n st
  | WelcomeMessage =>
      set_visited true
        (showNotification "Welcome to CryptoDash! 🚀" (Some "success")
           (Some 5000%Z) st)
  end.

(** The timer with handle [h] fires, if it is still active; a timeout
    leaves the table when it does. *)
Definition fire (h : nat) (st : page) : page :=
  match find (fun t => (handle t =? h)%nat) (timers st) with
  | None => st
  | Some t =>
      let st := if repeating t then st else clearInterval h st in
      run (action t) st
  end.

(** What happens to a page. *)
Inductive event :=
| DOMContentLoaded
| VisibilityChange (nowHidden : bool)
| BeforeUnload
| Start                      (* a call of startPriceUpdates() *)
| Fire (h : nat)
| Settle (o : outcome)
| RefreshClick
| Online
| Offline.

Definition step (st : page) (e : event) : page :=
  match e with
  | DOMContentLoaded => on_DOMContentLoaded st
  | VisibilityChange h => on_visibilitychange (set_hidden h st)
  | BeforeUnload => on_beforeunload st
  | Start => startPriceUpdates st
  | Fire h => fire h st
  | Settle o => settle o st
  | RefreshClick => refreshPrices st
  | Online => on_online st
  | Offline => on_offline st
  end.

Definition run_events (es : list event) (st : page) : page :=
  fold_left step es st.

(** A page as the browser hands it to the script. *)
Definition load (b : node) (fresh : nat) (path : string) (isHidden : bool)
  : page :=
  {| body := b; next_node := fresh; pathname := path; hidden := isHidden;
     visited := false; priceUpdateInterval := None; timers := [];
     next_timer := 1; pending := []; console := [] |}.

(** The repeating timers that run [updatePrices]. *)
Definition price_intervals (st : page) : list nat :=
  map handle
    (filter
       (fun t => repeating t
                 && match action t with UpdatePrices => true | _ => false end)
       (timers st)).

(** The loading markers of the document. *)
Definition loading_markers (st : page) : list nat :=
  querySelectorAll loading_marker st.

(** The error banners of the document. *)
Definition error_notifications (st : page) : list nat :=
  matching (fun a => mem "alert-error" (tokens (class_of a))) (body st).


(** [el.textContent], for an element of the document. *)
Definition get_textContent (el : nat) (st : page) : option string :=
  option_map textContent (lookup el (body st)).

(** ** The renderer, element by element

    What [updatePriceElement] does to the element it is given, as a change
    of that element alone. *)
Definition render_element (ps : prices) (t : node) : node :=
  match getAttribute "data-coin-id" (attrs_of t) with
  | None => t
  | Some coinId =>
      match quote_of ps coinId with
      | None => t
      | Some price =>
          let t :=
            if mem "price-display" (tokens (className_of t))
            then with_textContent (formatPrice (usd price)) t
            else t in
          if mem "change-display" (tokens (className_of t))
          then
            let change := usd_24h_change price in
            let t := with_textContent (formatPercentage change) t in
            let t :=
              with_attribute "class" (replace_text_class (className_of t))
                t in
            with_class_added
              (if ge change (of_Z 0) then "text-success" else "text-danger")
              t
          else t
      end
  end.

(** The element is given new text: it is tagged, its coin has a quote, and
    it displays a price or a change. *)
Definition renders (ps : prices) (a : attributes) : bool :=
  match getAttribute "data-coin-id" a with
  | None => false
  | Some coinId =>
      match quote_of ps coinId with
      | None => false
      | Some _ =>
          mem "price-display" (tokens (class_of a))
          || mem "change-display" (tokens (class_of a))
      end
  end.

(** The document after [updatePriceElements], by recursion on the tree:
    an element that is given new text loses what was below it, any other
    element keeps its own data and has its children rendered. *)
Fixpoint render (ps : prices) (t : node) : node :=
  match t with
  | Text s => Text s
  | Element i n a cs =>
      if renders ps a then render_element ps t
      else Element i n a (map (render ps) cs)
  end.

(** The identities of the elements of a tree, in tree order. *)
Fixpoint ids (t : node) : list nat :=
  match t with
  | Text _ => []
  | Element i _ _ cs => i :: flat_map ids cs
  end.

(** A tree reduced to what its text depends on: the identities and the
    text nodes. *)
Fixpoint text_tree (t : node) : node :=
  match t with
  | Text s => Text s
  | Element i _ _ cs => Element i EmptyString [] (map text_tree cs)
  end.

(** [g] changes an element without changing its identity. *)
Definition keeps_id (g : node -> node) : Prop :=
  forall i n a cs, has_id i (g (Element i n a cs)) = true.

(** [g] adds no element: the identities after [g] are among those
    before, and as free of duplicates. *)
Definition prunes (g : node -> node) : Prop :=
  forall t, incl (ids (g t)) (ids t)
            /\ (NoDup (ids t) -> NoDup (ids (g t))).

(** The character [c] does not occur in [s]. *)
Fixpoint lacks (c : ascii) (s : string) : bool :=
  match s with
  | EmptyString => true
  | String d s' => negb (Ascii.eqb c d) && lacks c s'
  end.

(** A class token: not empty and free of whitespace. *)
Definition is_token (s : string) : bool :=
  match s with
  | EmptyString => false
  | _ => forallb (fun c => negb (is_space c)) (chars s)
  end.

(** ** The loading markers, element by element *)

(** The marker [showLoadingIndicators] creates with identity [k]. *)
Definition spinner (k : nat) : node :=
  Element k "div" [("class", "loading-spinner"); ("data-loading", "true")]
    [].

(** What [hideLoadingIndicators] does to the element it is given: the
    first marker below it is removed. *)
Definition hide_element (t : node) : node :=
  match hd_error (flat_map (matching loading_marker) (childNodes_of t)) with
  | Some marker => remove marker t
  | None => t
  end.

(** The document changes of a cycle whose fetch is rejected, as updates of
    single elements: a marker for each element, numbered from [k], then
    the removal for each element. *)
Fixpoint show_steps (k : nat) (els : list nat)
  : list (nat * (node -> node)) :=
  match els with
  | [] => []
  | e :: r => (e, append_child (spinner k)) :: show_steps (S k) r
  end.

Definition hide_steps (els : list nat) : list (nat * (node -> node)) :=
  map (fun e => (e, hide_element)) els.

Definition apply_steps (steps : list (nat * (node -> node))) (t : node)
  : node :=
  fold_left (fun t s => update (fst s) (snd s) t) steps t.

Definition apply_steps_forest (steps : list (nat * (node -> node)))
    (f : list node) : list node :=
  fold_left (fun f s => map (update (fst s) (snd s)) f) steps f.

(** No tagged element lies below a tagged element. *)
Fixpoint flat (t : node) : Prop :=
  match t with
  | Text _ => True
  | Element _ _ a cs =>
      (coin_tagged a = true -> flat_map (matching coin_tagged) cs = [])
      /\ fold_right (fun c P => flat c /\ P) True cs
  end.

(** Every identity of the tree is below [k]. *)
Definition below (k : nat) (t : node) : Prop :=
  forall i, In i (ids t) -> (i < k)%nat.

(** The tokens without [c] that [u] has, [v] has as well, also the one
    at the start when [u] and [v] are extended to the left. *)
Definition tokens_kept (c : ascii) (u v : string) : Prop :=
  forall t, lacks c t = true ->
    (In t (snd (split u)) -> In t (snd (split v)))
    /\ (fst (split u) = t -> fst (split v) = t).

(** ** Example pages *)

Definition tagged (i : nat) (name coin cls : string) (cs : list node)
  : node :=
  Element i name [("data-coin-id", coin); ("class", cls)] cs.

(** Three price cells, two of them for the same coin. *)
Definition price_table : page :=
  load (Element 0 "body" []
          [tagged 1 "span" "bitcoin" "price-display" [Text "$1.00"];
           tagged 2 "span" "bitcoin" "change-display text-danger"
             [Text "-0.50%"];
           tagged 3 "span" "ethereum" "price-display" []])
    4 "/dashboard" false.

(** A tagged card that holds a tagged price cell. *)
Definition nested_card : page :=
  load (Element 0 "body" []
          [Element 1 "section" []
             [tagged 2 "div" "bitcoin" "coin-card"
                [tagged 3 "span" "bitcoin" "price-display"
                   [Text "$1.00"]]]])
    4 "/dashboard" false.

(** A page without tagged elements. *)
Definition about_page : page :=
  load (Element 0 "body" [] [Element 1 "p" [] [Text "About"]])
    2 "/about" false.

(** The dashboard opened in a background tab: hidden when it loads. *)
Definition background_tab : page :=
  load (body price_table) 4 "/dashboard" true.

(** A change cell that carries both colour classes. *)
Definition two_colours : page :=
  load (Element 0 "body" []
          [tagged 1 "span" "bitcoin"
             "text-success text-danger change-display" [Text "+0.10%"]])
    2 "/dashboard" false.

(** Quotes for the example pages: bitcoin at 64250.5, up 1.25 per cent. *)
Definition example_quotes : prices :=
  [("bitcoin",
    {| usd := div (of_Z 128501) (of_Z 2);
       usd_24h_change := div (of_Z 5) (of_Z 4) |})].

(** ** Notions used in the statements *)

(** [f] leaves the route, the price-update intervals and the interval
    handle of the page as they are. *)
Definition keeps_ticker (f : page -> page) : Prop :=
  forall st,
    pathname (f st) = pathname st
    /\ price_intervals (f st) = price_intervals st
    /\ priceUpdateInterval (f st) = priceUpdateInterval st
    /\ hidden (f st) = hidden st
    /\ (next_timer st <= next_timer (f st))%nat.

(** The visibility changes of [es] alternate, starting from a page whose
    [document.hidden] is [h], and [startPriceUpdates] runs at no other
    time. *)
Fixpoint alternates (h : bool) (es : list event) : bool :=
  match es with
  | [] => true
  | VisibilityChange h' :: r => negb (Bool.eqb h h') && alternates h' r
  | DOMContentLoaded :: _ | Start :: _ => false
  | _ :: r => alternates h r
  end.

(** At most one price-update interval is active, the one the global
    holds, and none on a hidden page. *)
Definition single_interval (st : page) : Prop :=
  (1 <= next_timer st)%nat
  /\ (price_intervals st = []
      \/ (hidden st = false
          /\ exists h, price_intervals st = [S h]
                       /\ priceUpdateInterval st = Some (S h))).

(** The route is on the allow-list of [startPriceUpdates]. *)
Definition allowed_route (path : string) : bool :=
  includes path "/dashboard" || includes path "/portfolio".

(** ** Number fields *)

Definition digit_or_point (c : ascii) : bool := is_digit c || is_point c.

(** [value.split('.')]: the pieces between the points, the string itself
    as the one piece when it has no point. *)
Fixpoint split_at_points (l : list ascii) : list (list ascii) :=
  match l with
  | [] => [[]]
  | c :: r =>
      if is_point c then [] :: split_at_points r
      else
        match split_at_points r with
        | p :: ps => (c :: p) :: ps
        | [] => [[c]]
        end
  end.

(** An input field, of which the script reads and writes the value. *)
Record input_element := { value : string }.

(** [formatNumberInput(input)] *)
Definition formatNumberInput (input : input_element) : input_element :=
  let value := filter digit_or_point (chars (value input)) in
  let parts := split_at_points value in
  let value :=
    if (2 <? List.length parts)%nat
    then hd [] parts ++ "."%char :: List.concat (tl parts)
    else value in
  {| value := text value |}.

(** The characters before the first point, all of them when there is
    none. *)
Fixpoint before_point (l : list ascii) : list ascii :=
  match l with
  | [] => []
  | c :: r => if is_point c then [] else c :: before_point r
  end.

(** A value as a number field holds it after formatting: digits with at
    most one point. *)
Definition well_formed (s : string) : bool :=
  forallb digit_or_point (chars s)
  && (List.length (filter is_point (chars s)) <=? 1)%nat.

(** ** [debounce] and [throttle]

    Each returns a closure over a variable of its own; the closure is
    modelled by that variable, the timeouts the closure has set and that
    have not run yet, and the world [func] acts on. *)

(** What happens to such a closure: it is called, or a timeout expires. *)
Inductive closure_event (A : Type) :=
| Call (args : A)
| Expire (handle : nat).

Arguments Call {A} args.
Arguments Expire {A} handle.

(** The arguments of the calls among the events. *)
Definition calls {A : Type} (es : list (closure_event A)) : list A :=
  flat_map (fun e => match e with Call a => [a] | Expire _ => [] end) es.

Definition expiries {A : Type} (es : list (closure_event A)) : nat :=
  List.length
    (filter (fun e => match e with Expire _ => true | Call _ => false end)
       es).

(** [l1] is [l2] with some of its members left out. *)
Inductive subsequence {A : Type} : list A -> list A -> Prop :=
| subsequence_nil : subsequence [] []
| subsequence_skip x l1 l2 : subsequence l1 l2 -> subsequence l1 (x :: l2)
| subsequence_take x l1 l2 :
    subsequence l1 l2 -> subsequence (x :: l1) (x :: l2).

Module Debounce.
Section debounce.
Context {A W : Type}.
Variable func : A -> W -> W.
Variable wait : Z.

(** A timeout that runs [later]: its handle, its delay and the [args] the
    arrow function holds. *)
Record pending_call := { handle : nat; delay : Z; args : A }.

Record closure := {
  timeout : option nat;            (* let timeout, undefined at first *)
  timeouts : list pending_call;    (* the timeouts that have not run yet *)
  next_handle : nat;               (* handle of the next timeout *)
  world : W
}.

(** [clearTimeout(timeout)] *)
Definition clearTimeout (h : option nat) (ts : list pending_call)
  : list pending_call :=
  match h with
  | Some h => filter (fun t => negb (handle t =? h)%nat) ts
  | None => ts
  end.

(** [executedFunction(...args)] *)
Definition executedFunction (a : A) (st : closure) : closure :=
  let ts := clearTimeout (timeout st) (timeouts st) in
  let h := next_handle st in
  {| timeout := Some h;
     timeouts := ts ++ [{| handle := h; delay := wait; args := a |}];
     next_handle := S h;
     world := world st |}.

(** [later()] *)
Definition later (a : A) (st : closure) : closure :=
  {| timeout := timeout st;
     timeouts := clearTimeout (timeout st) (timeouts st);
     next_handle := next_handle st;
     world := func a (world st) |}.

(** The timeout with handle [h] expires, if it has not been cleared: it
    leaves the table and [later] runs. *)
Definition expire (h : nat) (st : closure) : closure :=
  match find (fun t => (handle t =? h)%nat) (timeouts st) with
  | Some t =>
      later (args t)
        {| timeout := timeout st;
           timeouts :=
             filter (fun t => negb (handle t =? h)%nat) (timeouts st);
           next_handle := next_handle st;
           world := world st |}
  | None => st
  end.

Definition step (st : closure) (e : closure_event A) : closure :=
  match e with
  | Call a => executedFunction a st
  | Expire h => expire h st
  end.

Definition run (es : list (closure_event A)) (st : closure) : closure :=
  fold_left step es st.

(** The closure as [debounce(func, wait)] returns it. *)
Definition debounce (first_handle : nat) (w : W) : closure :=
  {| timeout := None; timeouts := []; next_handle := first_handle;
     world := w |}.

End debounce.
End Debounce.

Module Throttle.
Section throttle.
Context {A W : Type}.
Variable func : A -> W -> W.
Variable limit : Z.

(** A timeout that runs [() => inThrottle = false]. *)
Record reset := { handle : nat; delay : Z }.

Record closure := {
  inThrottle : bool;               (* let inThrottle, undefined at first *)
  timeouts : list reset;           (* the timeouts that have not run yet *)
  next_handle : nat;
  world : W
}.

(** The function [throttle(func, limit)] returns, called with [args]. *)
Definition throttled (a : A) (st : closure) : closure :=
  if negb (inThrottle st)
  then
    {| inThrottle := true;
       timeouts :=
         timeouts st ++ [{| handle := next_handle st; delay := limit |}];
       next_handle := S (next_handle st);
       world := func a (world st) |}
  else st.

(** The timeout with handle [h] expires. *)
Definition expire (h : nat) (st : closure) : closure :=
  match find (fun t => (handle t =? h)%nat) (timeouts st) with
  | Some _ =>
      {| inThrottle := false;
         timeouts :=
           filter (fun t => negb (handle t =? h)%nat) (timeouts st);
         next_handle := next_handle st;
         world := world st |}
  | None => st
  end.

Definition step (st : closure) (e : closure_event A) : closure :=
  match e with
  | Call a => throttled a st
  | Expire h => expire h st
  end.

Definition run (es : list (closure_event A)) (st : closure) : closure :=
  fold_left step es st.

(** The closure as [throttle(func, limit)] returns it. *)
Definition throttle (first_handle : nat) (w : W) : closure :=
  {| inThrottle := false; timeouts := []; next_handle := first_handle;
     world := w |}.

End throttle.
End Throttle.

(** [func] applied to each of [l] in turn. *)
Definition invoked {A W : Type} (func : A -> W -> W) (l : list A) (w : W)
  : W :=
  fold_left (fun w a => func a w) l w.

(** ** The page before [DOMContentLoaded]

    The listeners for [visibilitychange], [online], [offline] and
    [beforeunload] are registered when the script is evaluated, the click
    listeners only at [DOMContentLoaded]. [early es]: the events of [es]
    can reach the page before [DOMContentLoaded] and none of them is a
    visibility change. *)
Definition early (es : list event) : bool :=
  forallb
    (fun e =>
       match e with
       | BeforeUnload | Fire _ | Settle _ | Online | Offline => true
       | _ => false
       end)
    es.

(** ** The members a mapping inherits *)

(** No tagged element of the page carries the name of an inherited
    member as its coin identifier, so that [quote_of] is all there is to
    [prices[coinId]] on the page. *)
Definition own_coinIds (st : page) : bool :=
  forallb (fun c => negb (inherited c))
    (dataset_coinIds (querySelectorAll coin_tagged st) st).

(** ** The colour of a change *)

(** [change >= 0 ? 'text-success' : 'text-danger'] *)
Definition colour_class (change : number) : string :=
  if ge change (of_Z 0) then "text-success" else "text-danger".

(** Neither colour class occurs in [s], as a token or within one. *)
Definition colourless (s : string) : bool :=
  negb (includes s "text-success") && negb (includes s "text-danger").

(** An element rendered with one quote after the other for its coin. *)
Definition rendered_with (coin : string) (quotes : list quote) (t : node)
  : node :=
  fold_left (fun t q => render_element [(coin, q)] t) quotes t.

(** ** The steps of a cycle whose fetch is fulfilled *)

Definition render_steps (ps : prices) (els : list nat)
  : list (nat * (node -> node)) :=
  map (fun e => (e, render_element ps)) els.

(** Markers for the elements, numbered from [k], then the rendering of
    each element, then the removal of the markers. *)
Definition cycle_steps (ps : prices) (k : nat) (els : list nat)
  : list (nat * (node -> node)) :=
  show_steps k els ++ render_steps ps els ++ hide_steps els.

(** [g] adds no identity below [k]. *)
Definition tame (k : nat) (g : node -> node) : Prop :=
  forall t i, In i (ids (g t)) -> In i (ids t) \/ (k <= i)%nat.

Definition in_list (l : list nat) (i : nat) : bool := existsb (Nat.eqb i) l.

(** ** Local storage and the theme *)

Definition storage := list (string * string).

(** [localStorage.getItem(key)], [None] for [null]. *)
Definition getItem (key : string) (s : storage) : option string :=
  option_map snd (find (fun p => String.eqb (fst p) key) s).

(** [value || fallback], for a value that is a string or [null]: the
    empty string is as good as none. *)
Definition or_else (v : option string) (fallback : string) : string :=
  match v with
  | Some (String _ _ as s) => s
  | _ => fallback
  end.

(** [initializeTheme()], on the attributes of [document.documentElement]. *)
Definition initializeTheme (localStorage : storage)
    (documentElement : attributes) : attributes :=
  let theme := or_else (getItem "cryptodash-theme" localStorage) "dark" in
  setAttribute "data-bs-theme" theme documentElement.

(** ** Search *)

Definition lower (c : ascii) : ascii :=
  let n := nat_of_ascii c in
  if (65 <=? n)%nat && (n <=? 90)%nat then ascii_of_nat (n + 32) else c.

(** [s.toLowerCase()] for a string of ASCII characters: the letters A to
    Z are replaced by a to z, every other character stays. *)
Definition toLowerCase (s : string) : string := text (map lower (chars s)).

(** The characters of [s] are ASCII characters, each one code unit. *)
Definition is_ascii (s : string) : bool :=
  forallb (fun c => (nat_of_ascii c <? 128)%nat) (chars s).

Module Suggestion.
Record t := { id : string; name : string; symbol : string }.
End Suggestion.

Definition mockSuggestions : list Suggestion.t :=
  [{| Suggestion.id := "bitcoin"; Suggestion.name := "Bitcoin";
      Suggestion.symbol := "BTC" |};
   {| Suggestion.id := "ethereum"; Suggestion.name := "Ethereum";
      Suggestion.symbol := "ETH" |};
   {| Suggestion.id := "binancecoin"; Suggestion.name := "BNB";
      Suggestion.symbol := "BNB" |}].

(** The coins [showSearchSuggestions] keeps for a query. *)
Definition suggestions (query : string) : list Suggestion.t :=
  filter
    (fun coin =>
       includes (toLowerCase (Suggestion.name coin)) (toLowerCase query)
       || includes (toLowerCase (Suggestion.symbol coin))
            (toLowerCase query))
    mockSuggestions.

(** The class selector [.c]. *)
Definition has_class (c : string) (a : attributes) : bool :=
  mem c (tokens (class_of a)).

(** The markup of one suggestion, parsed, with the identities [k] and
    [k + 1] for its two elements. *)
Definition suggestion_item (k : nat) (coin : Suggestion.t) : node :=
  Element k "div"
    [("class", "suggestion-item p-2 border-bottom");
     ("data-coin-id", Suggestion.id coin)]
    [Text (line_break ++ "            ")%string;
     Element (S k) "strong" [] [Text (Suggestion.name coin)];
     Text (" (" ++ Suggestion.symbol coin ++ ")" ++ line_break
           ++ "        ")%string].

(** The white space a template starts and ends with. *)
Definition lead : string := (line_break ++ "        ")%string.
Definition trail : string := (line_break ++ "    ")%string.

(** The nodes after the first item: between two items the end of one
    template and the start of the next make one text node. *)
Fixpoint items_after (k : nat) (coins : list Suggestion.t) : list node :=
  match coins with
  | [] => [Text trail]
  | coin :: rest =>
      Text (trail ++ lead)%string :: suggestion_item k coin
      :: items_after (k + 2) rest
  end.

(** The joined templates, parsed: nothing for the empty string. *)
Definition suggestion_markup (k : nat) (coins : list Suggestion.t)
  : list node :=
  match coins with
  | [] => []
  | coin :: rest =>
      Text lead :: suggestion_item k coin :: items_after (k + 2) rest
  end.

Definition with_childNodes (cs : list node) (t : node) : node :=
  match t with
  | Element i n a _ => Element i n a cs
  | Text s => Text s
  end.

(** [showSearchSuggestions(query)] *)
Definition showSearchSuggestions (query : string) (st : page) : page :=
  match hd_error (querySelectorAll (has_class "search-suggestions") st) with
  | None => st
  | Some suggestionsContainer =>
      let found := suggestions query in
      set_body
        (update suggestionsContainer
           (with_childNodes (suggestion_markup (next_node st) found))
           (body st))
        (set_next_node (next_node st + 2 * List.length found) st)
  end.

(** [performSearch(query)]: the lines it logs and the page it leaves.
    The length of a string of ASCII characters is its number of code
    units. *)
Definition performSearch (query : string) (st : page)
  : list string * page :=
  if (String.length query <? 2)%nat then ([], st)
  else (["Searching for: " ++ query]%string,
        showSearchSuggestions query st).

(** The listener [initializeSearch] puts on one search field, with the
    variable [searchTimeout] of its own, and the timeouts it has set. *)
Module SearchField.
Section field.
Context {W : Type}.
Variable search : string -> W -> W.     (* performSearch on the world *)

Record reset := { handle : nat; delay : Z }.

Record closure := {
  searchTimeout : option nat;      (* let searchTimeout *)
  timeouts : list reset;           (* the timeouts that have not run yet *)
  next_handle : nat;
  value : string;                  (* this.value *)
  world : W
}.

Definition clearTimeout (h : option nat) (ts : list reset) : list reset :=
  match h with
  | Some h => filter (fun t => negb (handle t =? h)%nat) ts
  | None => ts
  end.

(** The listener for the [input] event. *)
Definition on_input (st : closure) : closure :=
  let ts := clearTimeout (searchTimeout st) (timeouts st) in
  let h := next_handle st in
  {| searchTimeout := Some h;
     timeouts := ts ++ [{| handle := h; delay := 300 |}];
     next_handle := S h;
     value := value st;
     world := world st |}.

Definition set_value (v : string) (st : closure) : closure :=
  {| searchTimeout := searchTimeout st; timeouts := timeouts st;
     next_handle := next_handle st; value := v; world := world st |}.

(** The timeout with handle [h] expires: [performSearch(this.value)]. *)
Definition expire (h : nat) (st : closure) : closure :=
  match find (fun t => (handle t =? h)%nat) (timeouts st) with
  | Some _ =>
      {| searchTimeout := searchTimeout st;
         timeouts :=
           filter (fun t => negb (handle t =? h)%nat) (timeouts st);
         next_handle := next_handle st;
         value := value st;
         world := search (value st) (world st) |}
  | None => st
  end.

(** What happens to a search field: the user edits it, which fires
    [input]; a script assigns its value, which does not; a timeout
    expires. *)
Inductive event :=
| Input (v : string)
| Assign (v : string)
| Expire (h : nat).

Definition step (st : closure) (e : event) : closure :=
  match e with
  | Input v => on_input (set_value v st)
  | Assign v => set_value v st
  | Expire h => expire h st
  end.

Definition run (es : list event) (st : closure) : closure :=
  fold_left step es st.

(** The field as [initializeSearch] finds it. *)
Definition initial (first_handle : nat) (v : string) (w : W) : closure :=
  {| searchTimeout := None; timeouts := []; next_handle := first_handle;
     value := v; world := w |}.

Definition inputs (es : list event) : nat :=
  List.length
    (filter (fun e => match e with Input _ => true | _ => false end) es).

Definition expiries (es : list event) : nat :=
  List.length
    (filter (fun e => match e with Expire _ => true | _ => false end) es).

End field.
End SearchField.

(** ** The clipboard *)

(** What the browser offers: [navigator.clipboard] and
    [window.isSecureContext]. *)
Record navigator := { clipboard : bool; isSecureContext : bool }.

(** What [document.execCommand('copy')] does. *)
Inductive execCommand :=
| Returns (done : bool)
| Throws.

(** The page and the texts of the [writeText] promises that are
    pending. *)
Record copying := { document : page; writes : list string }.

(** [copyToClipboard(text)], up to the point where it waits for
    [writeText]. Of the text area the document tree holds the element and
    its style; its value, the focus and the selection are outside the
    tree. *)
Definition copyToClipboard (env : navigator) (copy : execCommand)
    (text : string) (st : copying) : copying :=
  if clipboard env && isSecureContext env
  then {| document := document st; writes := writes st ++ [text] |}
  else
    let (textArea, pg) := createElement "textarea" (document st) in
    let textArea :=
      with_attribute "style"
        "position: fixed; left: -999999px; top: -999999px;" textArea in
    let pg := set_body (append_child textArea (body pg)) pg in
    let pg :=
      match copy with
      | Returns _ =>
          showNotification "Copied to clipboard" (Some "success") None pg
      | Throws => showNotification "Failed to copy" (Some "error") None pg
      end in
    let pg := remove_element (id_of textArea) pg in
    {| document := pg; writes := writes st |}.

(** The oldest pending [writeText] settles and its handler runs. *)
Definition settle_write (fulfilled : bool) (st : copying) : copying :=
  match writes st with
  | [] => st
  | _ :: rest =>
      {| document :=
           if fulfilled
           then showNotification "Copied to clipboard" (Some "success")
                  None (document st)
           else showNotification "Failed to copy" (Some "error") None
                  (document st);
         writes := rest |}
  end.

(** ** Clicks *)

(** The attributes of the elements from the root down to [target]. *)
Fixpoint ancestors (target : nat) (t : node) : option (list attributes) :=
  match t with
  | Text _ => None
  | Element i _ a cs =>
      if (i =? target)%nat then Some [a]
      else option_map (cons a) (first_some (ancestors target) cs)
  end.

(** [target.matches('.c, .c *')]: the target or an element above it, up
    to [<html>], has the class. *)
Definition matches_within (c : string) (documentElement : attributes)
    (target : nat) (pg : page) : bool :=
  match ancestors target (body pg) with
  | Some l => existsb (has_class c) (documentElement :: l)
  | None => false
  end.

(** [target.matches('a[href^="#"]')], with the rest of the [href]. *)
Definition fragment_link (target : nat) (pg : page) : option string :=
  match lookup target (body pg) with
  | Some (Element _ "a" a _) =>
      match getAttribute "href" a with
      | Some href => strip "#" href
      | None => None
      end
  | _ => None
  end.

(** [document.getElementById(id)], for the elements from
    [document.body] down; no element has the empty string as its
    identifier. *)
Definition getElementById (id : string) (pg : page) : option nat :=
  match id with
  | EmptyString => None
  | _ => hd_error (matching (attribute_is "id" id) (body pg))
  end.

(** [e.target.dataset.text || e.target.textContent] *)
Definition copied_text (target : nat) (pg : page) : string :=
  match lookup target (body pg) with
  | Some n =>
      match getAttribute "data-text" (attrs_of n) with
      | Some (String _ _ as s) => s
      | _ => textContent n
      end
  | None => EmptyString
  end.

Record clicked := {
  after : copying;
  defaultPrevented : bool;
  scrolledIntoView : option nat
}.

(** The three [click] listeners of [setupEventListeners], in the order
    they were added, for a click on the element [target]. *)
Definition on_click (env : navigator) (copy : execCommand)
    (documentElement : attributes) (target : nat) (st : copying)
  : clicked :=
  let refresh :=
    matches_within "refresh-prices" documentElement target (document st) in
  let st1 :=
    if refresh
    then {| document := refreshPrices (document st); writes := writes st |}
    else st in
  let copies :=
    matches_within "copy-to-clipboard" documentElement target
      (document st1) in
  let st2 :=
    if copies
    then copyToClipboard env copy (copied_text target (document st1)) st1
    else st1 in
  let link := fragment_link target (document st2) in
  {| after := st2;
     defaultPrevented :=
       refresh || copies || match link with Some _ => true | None => false end;
     scrolledIntoView :=
       match link with
       | Some targetId => getElementById targetId (document st2)
       | None => None
       end |}.

(** The coin identifiers of the tagged elements of a tree, in tree
    order. *)
Fixpoint coin_values (t : node) : list string :=
  match t with
  | Text _ => []
  | Element _ _ a cs =>
      match getAttribute "data-coin-id" a with
      | Some coin => [coin]
      | None => []
      end ++ flat_map coin_values cs
  end.

(** [performSearch] on the console and the page, as the listener of a
    search field runs it. *)
Definition search_page (query : string) (w : list string * page)
  : list string * page :=
  let (lines, pg) := performSearch query (snd w) in (fst w ++ lines, pg).
(** * Properties *)

(** ** Rendered strings *)

Lemma chars_append (s1 s2 : string) :
  chars (s1 ++ s2)%string = chars s1 ++ chars s2.
Proof.
  induction s1 as [|c s1 IH]; simpl; [reflexivity|].
  unfold chars in *. simpl. now rewrite IH.
Qed.

Lemma chars_text (l : list ascii) : chars (text l) = l.
Proof. apply list_ascii_of_string_of_list_ascii. Qed.

Lemma after_point_skip (pre rest : list ascii) :
  forallb (fun c => negb (is_point c)) pre = true ->
  after_point (pre ++ "."%char :: rest) = Some rest.
Proof.
  induction pre as [|c pre IH]; simpl; intros H; [reflexivity|].
  apply andb_true_iff in H as [Hc Hpre].
  destruct (is_point c); [discriminate|]. now apply IH.
Qed.

Lemma leading_digits_all (b suf : list ascii) :
  forallb is_digit b = true ->
  leading_digits suf = 0%nat ->
  leading_digits (b ++ suf) = List.length b.
Proof.
  induction b as [|c b IH]; simpl; intros H Hs; [assumption|].
  apply andb_true_iff in H as [Hc Hb]. rewrite Hc. f_equal. now apply IH.
Qed.

(** A rendering [pre . b suf] shows as many fractional digits as [b] has,
    when [pre] has no point, [b] is made of digits and [suf] starts with
    none. *)
Lemma fraction_digits_shape (s : string) (pre b suf : list ascii) :
  chars s = pre ++ "."%char :: b ++ suf ->
  forallb (fun c => negb (is_point c)) pre = true ->
  forallb is_digit b = true ->
  leading_digits suf = 0%nat ->
  fraction_digits s = Some (List.length b).
Proof.
  intros Hs Hpre Hb Hsuf. unfold fraction_digits.
  rewrite Hs, after_point_skip by assumption. simpl.
  now rewrite leading_digits_all.
Qed.

Lemma digit_no_point (l : list ascii) :
  forallb digit_or_comma l = true ->
  forallb (fun c => negb (is_point c)) l = true.
Proof.
  intros H. rewrite forallb_forall in *. intros c Hc.
  specialize (H c Hc). unfold digit_or_comma in H.
  destruct (is_point c) eqn:E; [|reflexivity].
  unfold is_point in E. apply Ascii.eqb_eq in E. subst c. discriminate.
Qed.

Module NumberFacts.

Lemma uint_chars_digits (u : Decimal.uint) :
  forallb is_digit (uint_chars u) = true.
Proof. induction u; simpl; auto. Qed.

Lemma decimal_digits (n : N) : forallb is_digit (decimal n) = true.
Proof. apply uint_chars_digits. Qed.

Lemma forallb_firstn {A} (p : A -> bool) (k : nat) (l : list A) :
  forallb p l = true -> forallb p (firstn k l) = true.
Proof.
  revert l; induction k as [|k IH]; intros [|x l]; simpl; auto.
  intros H. apply andb_true_iff in H as [Hx Hl]. now rewrite Hx, IH.
Qed.

Lemma forallb_skipn {A} (p : A -> bool) (k : nat) (l : list A) :
  forallb p l = true -> forallb p (skipn k l) = true.
Proof.
  revert l; induction k as [|k IH]; intros [|x l]; simpl; auto.
  intros H. apply andb_true_iff in H as [Hx Hl]. now apply IH.
Qed.

Lemma forallb_repeat_zero (k : nat) :
  forallb is_digit (repeat "0"%char k) = true.
Proof. induction k; simpl; auto. Qed.

(** The two parts of a fixed-point rendering are digits, and there are
    exactly [f] fractional ones. *)
Lemma fixed_parts_spec (n : N) (f : nat) :
  forallb is_digit (fst (fixed_parts n f)) = true
  /\ forallb is_digit (snd (fixed_parts n f)) = true
  /\ List.length (snd (fixed_parts n f)) = f.
Proof.
  unfold fixed_parts. simpl.
  set (m := decimal n).
  set (m' := if (List.length m <=? f)%nat
             then repeat "0"%char (f + 1 - List.length m) ++ m else m).
  assert (Hd : forallb is_digit m' = true).
  { subst m'. destruct (List.length m <=? f)%nat.
    - rewrite forallb_app, forallb_repeat_zero. apply decimal_digits.
    - apply decimal_digits. }
  assert (Hl : (f < List.length m')%nat).
  { subst m'. destruct (List.length m <=? f)%nat eqn:E.
    - apply Nat.leb_le in E. rewrite length_app, repeat_length. lia.
    - apply Nat.leb_gt in E. lia. }
  repeat split.
  - now apply forallb_firstn.
  - now apply forallb_skipn.
  - rewrite length_skipn. lia.
Qed.

Lemma group3_chars (k : nat) (l : list ascii) :
  (List.length l <= k)%nat ->
  forallb is_digit l = true ->
  forallb digit_or_comma (group3 l) = true.
Proof.
  revert l. induction k as [|k IH]; intros l Hk Hl.
  - destruct l; [reflexivity | simpl in Hk; lia].
  - destruct l as [|a [|b [|c [|d r]]]]; simpl in *;
      unfold digit_or_comma;
      repeat match goal with
             | H : _ && _ = true |- _ => apply andb_true_iff in H as [? ?]
             end;
      repeat match goal with
             | H : is_digit _ = true |- _ => rewrite H
             end; simpl; try reflexivity.
    change (forallb digit_or_comma (group3 (d :: r)) = true).
    apply IH; simpl; [lia|]. now rewrite H2.
Qed.

Lemma grouped_chars (l : list ascii) :
  forallb is_digit l = true ->
  forallb digit_or_comma (grouped l) = true.
Proof.
  intros H. unfold grouped.
  assert (Hr : forallb is_digit (rev l) = true).
  { rewrite forallb_forall in *. intros c Hc. apply H. now apply in_rev. }
  pose proof (group3_chars _ _ (Nat.le_refl _) Hr) as G.
  rewrite forallb_forall in *. intros c Hc. apply G. now apply in_rev.
Qed.

(** *** Order *)

Lemma lt_not_ge (x y : number) : lt x y = true -> ge x y = false.
Proof.
  unfold lt, ge. destruct (compare x y) as [[]|]; congruence.
Qed.

Lemma scaled_shift (x : number) (k k' : Z) :
  (k' <= k)%Z -> (k <= exponent x)%Z ->
  scaled k' x = (scaled k x * 2 ^ (k - k'))%Z.
Proof.
  intros H1 H2.
  destruct x as [s|s| |s m e]; cbn [scaled exponent] in *; try reflexivity.
  replace (e - k')%Z with ((e - k) + (k - k'))%Z by lia.
  rewrite Z.pow_add_r by lia. destruct s; unfold cond_Zopp; ring.
Qed.

Lemma compare_finite (x y : number) :
  is_finite x = true -> is_finite y = true ->
  compare x y
  = Some (scaled (Z.min (exponent x) (exponent y)) x
          ?= scaled (Z.min (exponent x) (exponent y)) y)%Z.
Proof. destruct x, y; simpl; intros; congruence. Qed.

(** The comparison of two finite Numbers can be made at any common
    scale. *)
Lemma compare_at (x y : number) (k : Z) :
  is_finite x = true -> is_finite y = true ->
  (k <= exponent x)%Z -> (k <= exponent y)%Z ->
  compare x y = Some (scaled k x ?= scaled k y)%Z.
Proof.
  intros Fx Fy Hx Hy. rewrite compare_finite by assumption.
  set (k0 := Z.min (exponent x) (exponent y)).
  rewrite (scaled_shift x k0 k), (scaled_shift y k0 k) by lia.
  rewrite <- Zmult_compare_compat_r; [reflexivity|].
  apply Z.lt_gt, Z.pow_pos_nonneg; lia.
Qed.

Lemma lt_ge_trans_finite (x y z : number) :
  is_finite x = true -> is_finite y = true -> is_finite z = true ->
  lt x y = true -> ge z y = true -> lt x z = true.
Proof.
  intros Fx Fy Fz. unfold lt, ge.
  set (k := Z.min (exponent x) (Z.min (exponent y) (exponent z))).
  rewrite (compare_at x y k), (compare_at z y k), (compare_at x z k)
    by (assumption || lia).
  destruct (scaled k x ?= scaled k y)%Z eqn:E1; try discriminate.
  intros _.
  destruct (scaled k z ?= scaled k y)%Z eqn:E2; try discriminate; intros _.
  - apply Z.compare_eq in E2. now rewrite E2, E1.
  - apply Z.compare_gt_iff in E2. rewrite Z.compare_lt_iff in E1.
    assert (H : (scaled k x < scaled k z)%Z) by lia.
    apply Z.compare_lt_iff in H. now rewrite H.
Qed.

(** [x < y] and [z >= y] give [x < z]. *)
Lemma lt_ge_trans (x y z : number) :
  lt x y = true -> ge z y = true -> lt x z = true.
Proof.
  destruct x as [sx|sx| |sx mx ex], y as [sy|sy| |sy my ey],
    z as [sz|sz| |sz mz ez];
    try (apply lt_ge_trans_finite; reflexivity);
    unfold lt, ge; simpl;
    repeat match goal with s : bool |- _ => destruct s end;
    simpl; congruence.
Qed.

Lemma scaled_positive (m : positive) (e k : Z) :
  (k <= e)%Z -> (0 < Zpos m * 2 ^ (e - k))%Z.
Proof.
  intros H. apply Z.mul_pos_pos; [lia|]. apply Z.pow_pos_nonneg; lia.
Qed.

(** [x >= 0] reads the sign of a finite Number, and holds of both
    zeros. *)
Lemma ge_zero (x : number) :
  is_finite x = true ->
  ge x (of_Z 0) = match x with
                  | S754_finite s _ _ => negb s
                  | _ => true
                  end.
Proof.
  destruct x as [s|s| |s m e]; try discriminate; intros _;
    try reflexivity.
  change (of_Z 0) with (S754_zero false). unfold ge, compare.
  cbn [exponent scaled].
  pose proof (scaled_positive m e (Z.min e 0) ltac:(lia)) as P.
  destruct s; cbn [cond_Zopp negb].
  - destruct (Z.compare_spec (- (Zpos m * 2 ^ (e - Z.min e 0))) 0);
      try reflexivity; lia.
  - destruct (Z.compare_spec (Zpos m * 2 ^ (e - Z.min e 0)) 0);
      try reflexivity; lia.
Qed.

(** Below [10^21] in the order of Numbers is below [10^21] for
    [toFixed]. *)
Lemma lt_1e21 (m : positive) (e : Z) :
  lt (S754_finite false m e) (of_Z (10 ^ 21)) = true ->
  at_least_1e21 m e = false.
Proof.
  change (of_Z (10 ^ 21)) with (S754_finite false 7629394531250000 17).
  unfold lt, compare, at_least_1e21. cbn [exponent scaled cond_Zopp].
  intros H.
  destruct (Z.compare_spec (Zpos m * 2 ^ (e - Z.min e 17))
              (7629394531250000 * 2 ^ (17 - Z.min e 17)))
    as [E|E|E]; try discriminate. clear H.
  assert (T : (10 ^ 21 = 7629394531250000 * 2 ^ 17)%Z) by reflexivity.
  rewrite T. clear T.
  destruct (Z.leb_spec 0 e) as [He|He]; apply Z.leb_gt.
  - destruct (Z.le_ge_cases e 17) as [L|L].
    + rewrite Z.min_l, Z.sub_diag in E by lia.
      assert (P : (2 ^ 17 = 2 ^ (17 - e) * 2 ^ e)%Z).
      { rewrite <- Z.pow_add_r by lia. f_equal; lia. }
      rewrite P. assert (0 < 2 ^ e)%Z by (apply Z.pow_pos_nonneg; lia).
      change (2 ^ 0)%Z with 1%Z in E. nia.
    + rewrite Z.min_r, Z.sub_diag in E by lia.
      assert (P : (2 ^ e = 2 ^ (e - 17) * 2 ^ 17)%Z).
      { rewrite <- Z.pow_add_r by lia. f_equal; lia. }
      rewrite P. change (2 ^ 0)%Z with 1%Z in E.
      assert (0 < 2 ^ 17)%Z by reflexivity. nia.
  - rewrite Z.min_l, Z.sub_diag in E by lia.
    assert (P : (2 ^ (17 - e) = 2 ^ 17 * 2 ^ (- e))%Z).
    { rewrite <- Z.pow_add_r by lia. f_equal; lia. }
    rewrite P in E. change (2 ^ 0)%Z with 1%Z in E. lia.
Qed.

End NumberFacts.

Import NumberFacts.

(** ** The formatters *)

Lemma format_currency_fraction_digits (d : nat) (x : number) :
  is_finite x = true ->
  fraction_digits (format_currency_USD (S d) x) = Some (S d).
Proof.
  intros F. unfold format_currency_USD.
  assert (E : forall (sg : string) (n : N),
             forallb (fun c => negb (is_point c)) (chars sg) = true ->
             fraction_digits
               (sg ++ "$" ++
                (let (a, b) := fixed_parts n (S d) in
                 text (grouped a ++ "."%char :: b)))%string
             = Some (S d)).
  { intros sg n Hsg.
    destruct (fixed_parts_spec n (S d)) as (Ha & Hb & Hl).
    destruct (fixed_parts n (S d)) as [a b]. simpl in Ha, Hb, Hl.
    rewrite <- Hl.
    apply (fraction_digits_shape _ (chars sg ++ "$"%char :: grouped a) b []).
    - rewrite !chars_append, chars_text, app_nil_r, <- app_assoc.
      reflexivity.
    - rewrite forallb_app, Hsg. simpl.
      now apply digit_no_point, grouped_chars.
    - assumption.
    - reflexivity. }
  destruct x as [s|s| |s m e]; try discriminate; simpl sign_bit;
    apply E; destruct s; reflexivity.
Qed.

Lemma format_currency_sign (d : nat) (x : number) :
  strip ((if sign_bit x then "-" else "") ++ "$")%string
    (format_currency_USD d x) <> None.
Proof.
  unfold format_currency_USD. destruct (sign_bit x); simpl; discriminate.
Qed.

(** C3, amended: for every finite price [p >= 1], [formatPrice p] is a
    currency string, the dollar sign after the sign if any, with exactly 2
    fractional digits; for every price [0 <= p < 1], it is one with exactly
    6 fractional digits. *)
Theorem formatPrice_fraction_digits (p : number) :
  is_finite p = true ->
  strip ((if sign_bit p then "-" else "") ++ "$")%string (formatPrice p)
  <> None
  /\ (ge p (of_Z 1) = true ->
      fraction_digits (formatPrice p) = Some 2%nat)
  /\ (ge p (of_Z 0) = true -> lt p (of_Z 1) = true ->
      fraction_digits (formatPrice p) = Some 6%nat).
Proof.
  intros F. unfold formatPrice. repeat split.
  - destruct (ge p (of_Z 1)); apply format_currency_sign.
  - intros H. rewrite H. now apply format_currency_fraction_digits.
  - intros _ H. rewrite (lt_not_ge _ _ H).
    now apply format_currency_fraction_digits.
Qed.

Lemma formatPrice_fraction_digits_witness :
  fraction_digits (formatPrice (of_Z 64250)) = Some 2%nat
  /\ fraction_digits (formatPrice (div (of_Z 1) (of_Z 8))) = Some 6%nat.
Proof.
  split.
  - apply (formatPrice_fraction_digits (of_Z 64250));
      vm_compute; reflexivity.
  - apply (formatPrice_fraction_digits (div (of_Z 1) (of_Z 8)));
      vm_compute; reflexivity.
Defined.

(** C3 as stated fails: [Infinity >= 1], and [formatPrice Infinity] has no
    fractional digit at all. *)
Lemma formatPrice_Infinity :
  ge Infinity (of_Z 1) = true
  /\ formatPrice Infinity = "$∞"
  /\ fraction_digits (formatPrice Infinity) <> Some 2%nat.
Proof. vm_compute. repeat split. discriminate. Qed.

Lemma toFixed_shape (s : bool) (m : positive) (e : Z) (f : nat) :
  at_least_1e21 m e = false ->
  exists a b,
    toFixed (S754_finite s m e) (S f)
    = ((if s then "-" else "") ++ text (a ++ "."%char :: b))%string
    /\ forallb is_digit a = true
    /\ forallb is_digit b = true
    /\ List.length b = S f.
Proof.
  intros H. unfold toFixed. rewrite H. unfold fixed_point.
  destruct (fixed_parts_spec (nearest_scaled m e (S f)) (S f))
    as (Ha & Hb & Hl).
  destruct (fixed_parts (nearest_scaled m e (S f)) (S f)) as [a b].
  now exists a, b.
Qed.

Lemma digits_no_point (l : list ascii) :
  forallb is_digit l = true ->
  forallb (fun c => negb (is_point c)) l = true.
Proof.
  intros H. apply digit_no_point. rewrite forallb_forall in *.
  intros c Hc. unfold digit_or_comma. now rewrite (H c Hc).
Qed.

(** In its fixed-point range [toFixed] shows exactly the fractional
    digits it is asked for, whatever pointless prefix and digitless suffix
    surround it. *)
Lemma toFixed_fraction_digits (pre suf : string) (x : number) (f : nat) :
  is_finite x = true ->
  lt (abs x) (of_Z (10 ^ 21)) = true ->
  forallb (fun c => negb (is_point c)) (chars pre) = true ->
  leading_digits (chars suf) = 0%nat ->
  fraction_digits (pre ++ toFixed x (S f) ++ suf)%string = Some (S f).
Proof.
  intros F B Hpre Hsuf.
  assert (E : exists sg a b,
             toFixed x (S f)
             = ((if sg : bool then "-" else "")
                ++ text (a ++ "."%char :: b))%string
             /\ forallb is_digit a = true
             /\ forallb is_digit b = true
             /\ List.length b = S f).
  { destruct x as [s|s| |s m e]; try discriminate F.
    - clear B. exists false.
      destruct (fixed_parts_spec 0 (S f)) as (Ha & Hb & Hl).
      unfold toFixed, fixed_point.
      destruct (fixed_parts 0 (S f)) as [a b]. exists a, b.
      repeat split; assumption.
    - cbn [abs SFabs] in B. apply lt_1e21 in B.
      exists s. now apply toFixed_shape. }
  destruct E as (sg & a & b & -> & Ha & Hb & Hl). rewrite <- Hl.
  apply (fraction_digits_shape _
           (chars pre ++ chars (if sg then "-" else "") ++ a) b
           (chars suf)).
  - rewrite !chars_append, chars_text, <- !app_assoc. reflexivity.
  - rewrite !forallb_app, Hpre, (digits_no_point a Ha).
    now destruct sg.
  - assumption.
  - assumption.
Qed.

(** C4, amended: for every finite percentage [x] of magnitude below
    [10^21], [formatPercentage x] begins with ['+'] if and only if
    [x >= 0], begins with ['-'] otherwise, and has exactly 2 fractional
    digits. *)
Theorem formatPercentage_sign_and_digits (x : number) :
  is_finite x = true ->
  lt (abs x) (of_Z (10 ^ 21)) = true ->
  begins_with "+" (formatPercentage x) = ge x (of_Z 0)
  /\ (ge x (of_Z 0) = false -> begins_with "-" (formatPercentage x) = true)
  /\ fraction_digits (formatPercentage x) = Some 2%nat.
Proof.
  intros F B. split; [|split].
  - clear B. unfold formatPercentage. rewrite (ge_zero x F).
    destruct x as [s|s| |[] m e]; try discriminate F;
      unfold toFixed; cbn [negb append begins_with]; reflexivity.
  - clear B. unfold formatPercentage. rewrite (ge_zero x F).
    destruct x as [s|s| |[] m e]; try discriminate F;
      unfold toFixed; cbn [negb append begins_with];
      intros H; (discriminate H || reflexivity).
  - unfold formatPercentage.
    apply toFixed_fraction_digits; try assumption; [|reflexivity].
    now destruct (ge x (of_Z 0)).
Qed.

Lemma formatPercentage_sign_and_digits_witness :
  begins_with "+" (formatPercentage (div (of_Z 517) (of_Z 100)))
  = ge (div (of_Z 517) (of_Z 100)) (of_Z 0)
  /\ begins_with "-" (formatPercentage (div (of_Z (-3)) (of_Z 8))) = true
  /\ fraction_digits (formatPercentage (div (of_Z (-3)) (of_Z 8)))
     = Some 2%nat.
Proof.
  split; [|split].
  - apply (formatPercentage_sign_and_digits (div (of_Z 517) (of_Z 100)));
      vm_compute; reflexivity.
  - apply (formatPercentage_sign_and_digits (div (of_Z (-3)) (of_Z 8)));
      vm_compute; reflexivity.
  - apply (formatPercentage_sign_and_digits (div (of_Z (-3)) (of_Z 8)));
      vm_compute; reflexivity.
Defined.

(** C4 as stated fails: [NaN] is not [>= 0] and its rendering begins with
    neither sign; [Infinity] and [10^21] are rendered without fractional
    digits. *)
Lemma formatPercentage_NaN_and_large :
  (ge NaN (of_Z 0) = false
   /\ formatPercentage NaN = "NaN%"
   /\ begins_with "-" (formatPercentage NaN) = false)
  /\ (formatPercentage Infinity = "+Infinity%"
      /\ fraction_digits (formatPercentage Infinity) <> Some 2%nat)
  /\ (formatPercentage (of_Z (10 ^ 21)) = "+1e+21%"
      /\ fraction_digits (formatPercentage (of_Z (10 ^ 21))) <> Some 2%nat).
Proof. vm_compute. repeat split; discriminate. Qed.

Lemma ge_thresholds :
  ge (of_Z (10 ^ 12)) (of_Z (10 ^ 9)) = true
  /\ ge (of_Z (10 ^ 9)) (of_Z (10 ^ 6)) = true
  /\ ge (of_Z (10 ^ 6)) (of_Z (10 ^ 3)) = true.
Proof. vm_compute. repeat split. Qed.

Lemma below_threshold (n a b : number) :
  lt n a = true -> ge b a = true -> ge n b = false.
Proof. intros H1 H2. apply lt_not_ge. now apply (lt_ge_trans n a b). Qed.

(** *** Grouping *)

(** The separators of [group3] cut the digits, read from the right, into
    groups of three, with what is left, one to three digits, in front. *)
Lemma group3_groups (k : nat) (l : list ascii) :
  (List.length l <= k)%nat ->
  l <> [] ->
  exists g gs,
    rev (group3 l) = g ++ flat_map (cons ","%char) gs
    /\ rev l = g ++ List.concat gs
    /\ (1 <= List.length g <= 3)%nat
    /\ Forall (fun x => List.length x = 3%nat) gs.
Proof.
  revert l. induction k as [|k IH]; intros l Hk Hl.
  - destruct l; [congruence | simpl in Hk; lia].
  - destruct l as [|a [|b [|c [|d r]]]]; [congruence| | | |].
    + exists [a], []. cbn. repeat split; auto.
    + exists [b; a], []. cbn. repeat split; auto.
    + exists [c; b; a], []. cbn. repeat split; auto.
    + destruct (IH (d :: r)) as (g & gs & E1 & E2 & L & F);
        [simpl in *; lia | discriminate |].
      exists g, (gs ++ [[c; b; a]]).
      change (group3 (a :: b :: c :: d :: r))
        with (a :: b :: c :: ","%char :: group3 (d :: r)).
      change (rev (a :: b :: c :: ","%char :: group3 (d :: r)))
        with ((((rev (group3 (d :: r)) ++ [","%char]) ++ [c]) ++ [b])
              ++ [a]).
      change (rev (a :: b :: c :: d :: r))
        with (((rev (d :: r) ++ [c]) ++ [b]) ++ [a]).
      rewrite E1, E2, flat_map_app, concat_app. cbn [flat_map List.concat].
      rewrite ?app_nil_r, <- ?app_assoc. cbn [app].
      repeat split; try tauto.
      apply Forall_app. split; [exact F|]. now constructor.
Qed.

Lemma grouped_groups (d : list ascii) :
  d <> [] ->
  exists g gs,
    grouped d = g ++ flat_map (cons ","%char) gs
    /\ d = g ++ List.concat gs
    /\ (1 <= List.length g <= 3)%nat
    /\ Forall (fun x => List.length x = 3%nat) gs.
Proof.
  intros H. unfold grouped.
  destruct (group3_groups _ (rev d) (Nat.le_refl _)) as (g & gs & E1 & E2 & R).
  - intros E. apply H. now rewrite <- (rev_involutive d), E.
  - rewrite rev_involutive in E2. now exists g, gs.
Qed.

(** A fixed-point rendering has at least one integer digit. *)
Lemma fixed_parts_integer (n : N) (f : nat) :
  fst (fixed_parts n f) <> [].
Proof.
  unfold fixed_parts. simpl.
  set (m := decimal n).
  set (m' := if (List.length m <=? f)%nat
             then repeat "0"%char (f + 1 - List.length m) ++ m else m).
  assert (Hl : (f < List.length m')%nat).
  { subst m'. destruct (List.length m <=? f)%nat eqn:E.
    - apply Nat.leb_le in E. rewrite length_app, repeat_length. lia.
    - apply Nat.leb_gt in E. lia. }
  intros E. apply (f_equal (@List.length ascii)) in E.
  rewrite length_firstn in E. simpl in E. lia.
Qed.

Lemma strip_zeros_suffix (l : list ascii) :
  exists p, l = p ++ strip_zeros l.
Proof.
  induction l as [|c l [p IH]]; [now exists []|].
  simpl. destruct (Ascii.eqb c "0").
  - exists (c :: p). simpl. now f_equal.
  - now exists [].
Qed.

(** Dropping the trailing zeros of digits leaves digits, and no more of
    them. *)
Lemma trailing_zeros_dropped (b : list ascii) :
  forallb is_digit b = true ->
  forallb is_digit (rev (strip_zeros (rev b))) = true
  /\ (List.length (rev (strip_zeros (rev b))) <= List.length b)%nat.
Proof.
  intros H. destruct (strip_zeros_suffix (rev b)) as [p E].
  assert (B : b = rev (strip_zeros (rev b)) ++ rev p).
  { rewrite <- rev_app_distr, <- E. now rewrite rev_involutive. }
  split.
  - rewrite B, forallb_app in H. now apply andb_true_iff in H.
  - rewrite B at 2. rewrite length_app. lia.
Qed.

(** [toLocaleString] renders a finite number as a grouped plain number,
    in the en-US locale. *)
Lemma toLocaleString_grouped (x : number) :
  is_finite x = true -> grouped_plain (sign_bit x) (toLocaleString x).
Proof.
  intros F. unfold toLocaleString, grouped_plain.
  assert (E : forall n,
             exists g gs frac,
               (let (a, b) := fixed_parts n 3 in
                let b := rev (strip_zeros (rev b)) in
                text (match b with
                      | [] => grouped a
                      | _ => grouped a ++ "."%char :: b
                      end))
               = text (g ++ flat_map (cons ","%char) gs
                       ++ match frac with
                          | [] => []
                          | _ => "."%char :: frac
                          end)
               /\ forallb is_digit (g ++ List.concat gs ++ frac) = true
               /\ (1 <= List.length g <= 3)%nat
               /\ Forall (fun x => List.length x = 3%nat) gs
               /\ (List.length frac <= 3)%nat).
  { intros n.
    destruct (fixed_parts_spec n 3) as (Ha & Hb & Hl).
    pose proof (fixed_parts_integer n 3) as Hn.
    destruct (fixed_parts n 3) as [a b]. cbn [fst snd] in *.
    destruct (grouped_groups a Hn) as (g & gs & E1 & E2 & L & G).
    destruct (trailing_zeros_dropped b Hb) as [Hd Hk].
    exists g, gs, (rev (strip_zeros (rev b))).
    split; [|split; [|split; [|split]]]; try assumption; [| |lia].
    - rewrite E1. destruct (rev (strip_zeros (rev b)));
        now rewrite ?app_nil_r, <- ?app_assoc.
    - rewrite app_assoc, forallb_app, <- E2, Ha. exact Hd. }
  destruct x as [s|s| |s m e]; try discriminate F; cbn [sign_bit];
    match goal with
    | |- context [fixed_parts ?n 3] =>
        destruct (E n) as (g & gs & frac & Eq & R)
    end; exists g, gs, frac; (split; [f_equal; exact Eq | exact R]).
Qed.

(** C5, amended: [formatLargeNumber] tests the thresholds [10^12],
    [10^9], [10^6], [10^3] in that descending order, divides by the first
    one the number reaches and appends T, B, M or K to the quotient shown
    by [toFixed(1)], which is one fractional digit when the quotient is
    finite and of magnitude below [10^21]. A finite number below [10^3],
    a negative one included, is rendered by [toLocaleString] as a grouped
    plain number, with the separators of the en-US locale. 1,500,000,000
    gives "1.5B", 2,300,000,000,000 gives "2.3T", 999 gives "999" and
    -1,234,567 gives "-1,234,567". *)
Theorem formatLargeNumber_thresholds (n : number) :
  formatLargeNumber n = abbreviate n
  /\ (ge n (of_Z (10 ^ 12)) = true ->
      formatLargeNumber n
      = (toFixed (div n (of_Z (10 ^ 12))) 1 ++ "T")%string)
  /\ (ge n (of_Z (10 ^ 9)) = true -> lt n (of_Z (10 ^ 12)) = true ->
      formatLargeNumber n
      = (toFixed (div n (of_Z (10 ^ 9))) 1 ++ "B")%string)
  /\ (ge n (of_Z (10 ^ 6)) = true -> lt n (of_Z (10 ^ 9)) = true ->
      formatLargeNumber n
      = (toFixed (div n (of_Z (10 ^ 6))) 1 ++ "M")%string)
  /\ (ge n (of_Z (10 ^ 3)) = true -> lt n (of_Z (10 ^ 6)) = true ->
      formatLargeNumber n
      = (toFixed (div n (of_Z (10 ^ 3))) 1 ++ "K")%string)
  /\ (lt n (of_Z (10 ^ 3)) = true ->
      formatLargeNumber n = toLocaleString n)
  /\ (forall t suffix,
        find (fun t => ge n (of_Z (fst t))) thresholds = Some (t, suffix) ->
        is_finite (div n (of_Z t)) = true ->
        lt (abs (div n (of_Z t))) (of_Z (10 ^ 21)) = true ->
        fraction_digits (formatLargeNumber n) = Some 1%nat)
  /\ (is_finite n = true -> lt n (of_Z (10 ^ 3)) = true ->
      grouped_plain (sign_bit n) (formatLargeNumber n))
  /\ formatLargeNumber (of_Z 1500000000) = "1.5B"
  /\ formatLargeNumber (of_Z 2300000000000) = "2.3T"
  /\ formatLargeNumber (of_Z 999) = "999"
  /\ formatLargeNumber (of_Z (-1234567)) = "-1,234,567".
Proof.
  destruct ge_thresholds as (G1 & G2 & G3).
  assert (A : formatLargeNumber n = abbreviate n).
  { unfold formatLargeNumber, abbreviate, thresholds. cbn [find fst].
    repeat match goal with
           | |- context [ge n ?c] => destruct (ge n c)
           end; reflexivity. }
  assert (P : lt n (of_Z (10 ^ 3)) = true ->
              formatLargeNumber n = toLocaleString n).
  { intros L. unfold formatLargeNumber.
    pose proof (lt_ge_trans _ _ _ L G3) as L6.
    pose proof (lt_ge_trans _ _ _ L6 G2) as L9.
    now rewrite (below_threshold _ _ _ L9 G1), (lt_not_ge _ _ L9),
      (lt_not_ge _ _ L6), (lt_not_ge _ _ L). }
  split; [|split; [|split; [|split; [|split; [|split; [|split; [|split]]]]]]];
    [| | | | | | | |vm_compute; repeat split].
  - exact A.
  - intros H. unfold formatLargeNumber. now rewrite H.
  - intros H L. unfold formatLargeNumber.
    now rewrite (lt_not_ge _ _ L), H.
  - intros H L. unfold formatLargeNumber.
    now rewrite (below_threshold _ _ _ L G1), (lt_not_ge _ _ L), H.
  - intros H L. unfold formatLargeNumber.
    pose proof (lt_ge_trans _ _ _ L G2) as L9.
    now rewrite (below_threshold _ _ _ L9 G1), (lt_not_ge _ _ L9),
      (lt_not_ge _ _ L), H.
  - exact P.
  - intros t suffix Hf F B. rewrite A. unfold abbreviate. rewrite Hf.
    apply (toFixed_fraction_digits "" suffix); try assumption.
    clear F B.
    apply find_some in Hf as [Hin _].
    repeat (destruct Hin as [Hin|Hin];
            [inversion Hin; reflexivity|]).
    destruct Hin.
  - intros F L. rewrite (P L). now apply toLocaleString_grouped.
Qed.

Lemma formatLargeNumber_thresholds_witness :
  formatLargeNumber (of_Z 48200000)
  = (toFixed (div (of_Z 48200000) (of_Z (10 ^ 6))) 1 ++ "M")%string
  /\ formatLargeNumber (div (of_Z (-25001)) (of_Z 2))
     = toLocaleString (div (of_Z (-25001)) (of_Z 2))
  /\ fraction_digits (formatLargeNumber (of_Z 48200000)) = Some 1%nat
  /\ grouped_plain true (formatLargeNumber (div (of_Z (-25001)) (of_Z 2))).
Proof.
  split; [|split; [|split]].
  - apply (formatLargeNumber_thresholds (of_Z 48200000));
      vm_compute; reflexivity.
  - apply (formatLargeNumber_thresholds (div (of_Z (-25001)) (of_Z 2)));
      vm_compute; reflexivity.
  - destruct (formatLargeNumber_thresholds (of_Z 48200000))
      as (_ & _ & _ & _ & _ & _ & D & _).
    apply (D (10 ^ 6)%Z "M"); vm_compute; reflexivity.
  - destruct (formatLargeNumber_thresholds (div (of_Z (-25001)) (of_Z 2)))
      as (_ & _ & _ & _ & _ & _ & _ & D & _).
    apply D; vm_compute; reflexivity.
Defined.

(** C5 as stated fails: [10^33] reaches the threshold [10^12], its
    quotient is [10^21], which [toFixed] renders in exponent notation, so
    the rendering "1e+21T" has no decimal place; [Infinity] is rendered
    "InfinityT"; and [-Infinity], which is below [10^3], is rendered
    "-∞", not as a grouped plain number. *)
Lemma formatLargeNumber_from_1e33 :
  (ge (of_Z (10 ^ 33)) (of_Z (10 ^ 12)) = true
   /\ is_finite (of_Z (10 ^ 33)) = true
   /\ formatLargeNumber (of_Z (10 ^ 33)) = "1e+21T"
   /\ fraction_digits (formatLargeNumber (of_Z (10 ^ 33))) <> Some 1%nat)
  /\ (ge Infinity (of_Z (10 ^ 12)) = true
      /\ formatLargeNumber Infinity = "InfinityT"
      /\ fraction_digits (formatLargeNumber Infinity) <> Some 1%nat)
  /\ (lt (S754_infinity true) (of_Z (10 ^ 3)) = true
      /\ formatLargeNumber (S754_infinity true) = "-∞").
Proof. vm_compute. repeat split; discriminate. Qed.

(** ** Insertion-ordered sets *)

Lemma mem_In (x : string) (l : list string) : mem x l = true <-> In x l.
Proof.
  unfold mem. rewrite existsb_exists. split.
  - intros (y & Hy & E). apply String.eqb_eq in E. now subst.
  - intros H. exists x. split; [assumption | apply String.eqb_refl].
Qed.

Lemma set_add_spec (l : list string) (x : string) :
  NoDup l ->
  NoDup (set_add l x) /\ forall y, In y (set_add l x) <-> In y l \/ y = x.
Proof.
  intros N. unfold set_add. destruct (mem x l) eqn:E.
  - apply mem_In in E. split; [assumption|].
    intros y. split; [auto | intros [H | ->]; assumption].
  - split.
    + apply NoDup_app; [assumption | repeat constructor; intros [] |].
      intros y Hy [<- | []]. apply mem_In in Hy. congruence.
    + intros y. rewrite in_app_iff. simpl. intuition.
Qed.

Lemma fold_set_add_spec (l acc : list string) :
  NoDup acc ->
  NoDup (fold_left set_add l acc)
  /\ forall y, In y (fold_left set_add l acc) <-> In y acc \/ In y l.
Proof.
  revert acc. induction l as [|x l IH]; intros acc N; simpl.
  - split; [assumption | intuition].
  - destruct (set_add_spec acc x N) as [N' M].
    destruct (IH _ N') as [N'' M'']. split; [assumption|].
    intros y. rewrite M'', M. intuition.
Qed.

(** [unique l] has every value of [l] once. *)
Lemma unique_spec (l : list string) :
  NoDup (unique l) /\ forall y, In y (unique l) <-> In y l.
Proof.
  destruct (fold_set_add_spec l [] (NoDup_nil _)) as [N M].
  split; [exact N|]. intros y. unfold unique. rewrite M. simpl. intuition.
Qed.

(** ** What the steps of a cycle leave alone *)

Lemma showLoadingIndicators_frame (els : list nat) (st : page) :
  pending (showLoadingIndicators els st) = pending st
  /\ timers (showLoadingIndicators els st) = timers st
  /\ next_timer (showLoadingIndicators els st) = next_timer st
  /\ priceUpdateInterval (showLoadingIndicators els st)
     = priceUpdateInterval st
  /\ pathname (showLoadingIndicators els st) = pathname st.
Proof.
  unfold showLoadingIndicators. revert st.
  induction els as [|e els IH]; intros st; simpl; [repeat split|].
  destruct (IH (appendChild e
                  (with_attribute "data-loading" "true"
                     (with_attribute "class" "loading-spinner"
                        (Element (next_node st) "div" [] [])))
                  (set_next_node (S (next_node st)) st)))
    as (H1 & H2 & H3 & H4 & H5).
  simpl in *. now rewrite H1, H2, H3, H4, H5.
Qed.

(** C10: while the document holds no element tagged with a coin
    identifier, [updatePrices] changes nothing of the page: no fetch is
    started, no loading marker is added, no text is changed and no
    notification is raised. *)
Theorem updatePrices_without_tagged_element (st : page) :
  querySelectorAll coin_tagged st = [] ->
  updatePrices st = st.
Proof. intros H. unfold updatePrices. now rewrite H. Qed.

Lemma updatePrices_without_tagged_element_witness :
  updatePrices about_page = about_page.
Proof.
  apply (updatePrices_without_tagged_element about_page). reflexivity.
Defined.

(** C6: a refresh cycle invokes the Fetcher with the coin identifiers of
    the tagged elements, de-duplicated: every collected identifier once, in
    order of first occurrence, and nothing else. Collected identifiers
    bitcoin, bitcoin, ethereum give the fetch bitcoin, ethereum. *)
Theorem updatePrices_fetches_unique_coinIds (st : page) :
  let elements := querySelectorAll coin_tagged st in
  let ids := dataset_coinIds elements st in
  pending (updatePrices st)
  = pending st
    ++ match elements with
       | [] => []
       | _ => [{| coinIds := unique ids; priceElements := elements |}]
       end
  /\ NoDup (unique ids)
  /\ (forall c, In c (unique ids) <-> In c ids)
  /\ unique ["bitcoin"; "bitcoin"; "ethereum"] = ["bitcoin"; "ethereum"]
  /\ dataset_coinIds (querySelectorAll coin_tagged price_table) price_table
     = ["bitcoin"; "bitcoin"; "ethereum"]
  /\ map coinIds (pending (updatePrices price_table))
     = [["bitcoin"; "ethereum"]].
Proof.
  intros elements ids.
  destruct (unique_spec ids) as [N M].
  split; [|repeat split; try assumption; apply M].
  unfold updatePrices. fold elements.
  destruct elements as [|e els] eqn:E; [now rewrite app_nil_r|].
  unfold fetchCoinPrices, set_pending. cbn [pending].
  destruct (showLoadingIndicators_frame (e :: els) st) as (P & _).
  rewrite P. reflexivity.
Qed.

Lemma updatePrices_fetches_unique_coinIds_witness :
  map coinIds (pending (updatePrices price_table))
  = [["bitcoin"; "ethereum"]].
Proof. apply (updatePrices_fetches_unique_coinIds price_table). Defined.


(** ** Trees *)

Lemma update_absent (el : nat) (g : node -> node) (t : node) :
  ~ In el (ids t) -> update el g t = t.
Proof.
  induction t as [s|i n a cs IH] using node_induction; [reflexivity|].
  simpl. intros H. destruct (Nat.eqb_spec i el) as [->|Hne].
  - exfalso. apply H. now left.
  - f_equal. rewrite <- (map_id cs) at 2. apply map_ext_in.
    intros c Hc. rewrite Forall_forall in IH. apply IH; [assumption|].
    intros Hin. apply H. right. apply in_flat_map. now exists c.
Qed.

Lemma lookup_in (el : nat) (t n : node) :
  lookup el t = Some n -> In el (ids t).
Proof.
  induction t as [s|i nm a cs IH] using node_induction;
    [discriminate|].
  simpl. destruct (Nat.eqb_spec i el) as [->|Hne]; [now left|].
  intros H. right. apply in_flat_map.
  induction cs as [|c cs IHcs]; [discriminate|].
  simpl in H. inversion IH as [|? ? Hc Hcs]; subst.
  destruct (lookup el c) eqn:E.
  - exists c. split; [now left | now apply Hc].
  - destruct (IHcs Hcs H) as (x & Hx & Hin). exists x. split;
      [now right | assumption].
Qed.

Lemma lookup_None_absent (el : nat) (t : node) :
  lookup el t = None -> ~ In el (ids t).
Proof.
  induction t as [s|j m b ds IHd] using node_induction; [auto|].
  simpl. destruct (Nat.eqb_spec j el); [discriminate|].
  intros L [->|Hin]; [contradiction|].
  apply in_flat_map in Hin as (d & Hd & Hin).
  induction ds as [|d0 ds IHds]; [contradiction|].
  inversion IHd as [|? ? H0 Hs]; subst. simpl in L.
  destruct (lookup el d0) eqn:L0; [discriminate|].
  destruct Hd as [->|Hd]; [now apply H0 | now apply IHds].
Qed.

Lemma lookup_absent (el : nat) (t : node) :
  ~ In el (ids t) -> lookup el t = None.
Proof.
  intros H. destruct (lookup el t) eqn:E; [|reflexivity].
  exfalso. apply H. now apply (lookup_in el t n).
Qed.

Lemma matching_ids (sel : attributes -> bool) (t : node) :
  incl (matching sel t) (ids t).
Proof.
  induction t as [s|i n a cs IH] using node_induction;
    [intros x []|].
  simpl. intros x Hx. apply in_app_iff in Hx as [Hx|Hx].
  - destruct (sel a); [|contradiction]. destruct Hx as [<-|[]]. now left.
  - right. apply in_flat_map in Hx as (c & Hc & Hin).
    apply in_flat_map. exists c. split; [assumption|].
    rewrite Forall_forall in IH. now apply IH.
Qed.

Lemma NoDup_app_inv {A} (l1 l2 : list A) :
  NoDup (l1 ++ l2) ->
  NoDup l1 /\ NoDup l2 /\ forall x, In x l1 -> ~ In x l2.
Proof.
  induction l1 as [|a l1 IH]; simpl; intros H.
  - repeat split; [constructor | assumption | intros x []].
  - inversion H as [|? ? Hn Hd]; subst.
    destruct (IH Hd) as (N1 & N2 & D).
    repeat split; [constructor | assumption |].
    + intros Hin. apply Hn. apply in_app_iff. now left.
    + assumption.
    + intros x [<-|Hx] Hx2.
      * apply Hn. apply in_app_iff. now right.
      * now apply (D x).
Qed.

(** Shrinking every piece of a duplicate-free concatenation leaves it
    duplicate-free. *)
Lemma NoDup_flat_map_incl {A B} (f g : A -> list B) (l : list A) :
  NoDup (flat_map f l) ->
  (forall x, In x l -> incl (g x) (f x)) ->
  (forall x, In x l -> NoDup (g x)) ->
  NoDup (flat_map g l).
Proof.
  induction l as [|a l IH]; simpl; intros N I G; [constructor|].
  apply NoDup_app_inv in N as (N1 & N2 & D).
  apply NoDup_app.
  - apply G. now left.
  - apply IH; [assumption | |]; intros x Hx; [apply I | apply G];
      now right.
  - intros x Hx Hx2. apply (D x).
    + apply (I a); [now left | assumption].
    + apply in_flat_map in Hx2 as (c & Hc & Hin). apply in_flat_map.
      exists c. split; [assumption|]. apply (I c); [now right|assumption].
Qed.

Lemma flat_map_map {A B C} (f : A -> B) (g : B -> list C) (l : list A) :
  flat_map g (map f l) = flat_map (fun x => g (f x)) l.
Proof. induction l; simpl; [reflexivity|]. now f_equal. Qed.

Lemma incl_flat_map {A B} (f g : A -> list B) (l : list A) :
  (forall x, In x l -> incl (g x) (f x)) ->
  incl (flat_map g l) (flat_map f l).
Proof.
  intros H y Hy. apply in_flat_map in Hy as (x & Hx & Hin).
  apply in_flat_map. exists x. split; [assumption|]. now apply (H x).
Qed.

Lemma has_id_true (i : nat) (t : node) :
  has_id i t = true -> exists n a cs, t = Element i n a cs.
Proof.
  destruct t as [s|j n a cs]; [discriminate|]. simpl. intros H.
  apply Nat.eqb_eq in H. subst. now exists n, a, cs.
Qed.

Lemma lookup_update (el : nat) (g : node -> node) (t : node) :
  keeps_id g ->
  lookup el (update el g t) = option_map g (lookup el t).
Proof.
  intros K. induction t as [s|i n a cs IH] using node_induction;
    [reflexivity|].
  simpl. destruct (Nat.eqb_spec i el) as [->|Hne].
  - destruct (has_id_true _ _ (K el n a cs)) as (n' & a' & cs' & E).
    simpl. rewrite E. simpl. now rewrite Nat.eqb_refl.
  - simpl. destruct (Nat.eqb_spec i el); [contradiction|].
    induction cs as [|c cs IHcs]; [reflexivity|].
    inversion IH as [|? ? Hc Hcs]; subst. simpl. rewrite Hc.
    destruct (lookup el c); simpl; [reflexivity|]. now apply IHcs.
Qed.

Lemma update_update (el : nat) (g1 g2 : node -> node) (t : node) :
  keeps_id g1 ->
  update el g2 (update el g1 t) = update el (fun x => g2 (g1 x)) t.
Proof.
  intros K. induction t as [s|i n a cs IH] using node_induction;
    [reflexivity|].
  simpl. destruct (Nat.eqb_spec i el) as [->|Hne].
  - destruct (has_id_true _ _ (K el n a cs)) as (n' & a' & cs' & E).
    rewrite E. simpl. now rewrite Nat.eqb_refl.
  - simpl. destruct (Nat.eqb_spec i el); [contradiction|].
    f_equal. rewrite map_map. apply map_ext_in. intros c Hc.
    rewrite Forall_forall in IH. now apply IH.
Qed.

Lemma update_id (el : nat) (t : node) : update el (fun x => x) t = t.
Proof.
  induction t as [s|i n a cs IH] using node_induction; [reflexivity|].
  simpl. destruct (i =? el)%nat; [reflexivity|]. f_equal.
  rewrite <- (map_id cs) at 2. apply map_ext_in. intros c Hc.
  rewrite Forall_forall in IH. now apply IH.
Qed.

(** In a tree without duplicate identities, an update depends on its
    function at the one element it reaches only. *)
Lemma update_ext_at (el : nat) (g g' : node -> node) (t n : node) :
  NoDup (ids t) ->
  lookup el t = Some n ->
  g n = g' n ->
  update el g t = update el g' t.
Proof.
  intros N L E. revert N L.
  induction t as [s|i nm a cs IH] using node_induction;
    [reflexivity|].
  simpl. destruct (Nat.eqb_spec i el) as [->|Hne].
  - intros _ L. now inversion L; subst.
  - intros N L. inversion N as [|? ? _ Ncs]; subst. f_equal.
    clear N. induction cs as [|c cs IHcs]; [reflexivity|].
    inversion IH as [|? ? Hc Hcs]; subst. simpl in *.
    apply NoDup_app_inv in Ncs as (N1 & N2 & D).
    destruct (lookup el c) eqn:Lc.
    + f_equal; [now apply Hc|].
      apply map_ext_in. intros x Hx.
      rewrite !update_absent; [reflexivity| |];
        intros Hin; apply (D el);
        try (now apply (lookup_in el c n0));
        apply in_flat_map; now exists x.
    + f_equal; [|now apply IHcs].
      assert (A : ~ In el (ids c)) by now apply lookup_None_absent.
      now rewrite !update_absent.
Qed.

Lemma ids_update (el : nat) (g : node -> node) (t : node) :
  prunes g -> prunes (update el g).
Proof.
  intros P. clear t. intros t.
  induction t as [s|i n a cs IH] using node_induction.
  - split; [apply incl_refl | auto].
  - simpl. destruct (i =? el)%nat; [apply P|].
    rewrite Forall_forall in IH. simpl. rewrite flat_map_map. split.
    + apply incl_cons; [now left|]. apply incl_tl.
      apply incl_flat_map. intros c Hc. now apply IH.
    + intros N. inversion N as [|? ? Hi Ncs]; subst. constructor.
      * intros Hin. apply Hi.
        revert Hin. apply incl_flat_map. intros c Hc. now apply IH.
      * apply (NoDup_flat_map_incl ids); [assumption| |];
          intros c Hc; destruct (IH c Hc) as [I1 I2]; [assumption|].
        apply I2.
        clear - Ncs Hc. induction cs as [|d cs IHcs]; [contradiction|].
        simpl in Ncs. apply NoDup_app_inv in Ncs as (N1 & N2 & _).
        destruct Hc as [->|Hc]; [assumption | now apply IHcs].
Qed.

(** In a tree without duplicate identities, an element found by a selector
    is the element its identity looks up. *)
Lemma matching_lookup (sel : attributes -> bool) (el : nat) (t : node) :
  NoDup (ids t) ->
  In el (matching sel t) ->
  exists n, lookup el t = Some n /\ sel (attrs_of n) = true.
Proof.
  induction t as [s|i nm a cs IH] using node_induction; [intros _ []|].
  intros N H. inversion N as [|? ? Hi Ncs]; subst.
  cbn [matching] in H. cbn [lookup].
  destruct (Nat.eqb_spec i el) as [->|Hne].
  - exists (Element el nm a cs). split; [reflexivity|].
    apply in_app_iff in H as [H|H].
    + cbn [attrs_of]. destruct (sel a); [reflexivity | destruct H].
    + exfalso. apply Hi. revert H. apply incl_flat_map.
      intros x _. apply matching_ids.
  - apply in_app_iff in H as [H|H].
    { destruct (sel a); [|contradiction].
      destruct H as [->|[]]. contradiction. }
    clear N Hi. induction cs as [|c r IHr]; [contradiction|].
    inversion IH as [|? ? Hc Hr]; subst. simpl in *.
    apply NoDup_app_inv in Ncs as (Nc & Nr & D).
    apply in_app_iff in H as [H|H].
    + destruct (Hc Nc H) as (n & L & S). rewrite L. now exists n.
    + rewrite (lookup_absent el c).
      * now apply IHr.
      * intros Hin. apply (D el Hin). revert H. apply incl_flat_map.
        intros x _. apply matching_ids.
Qed.

(** Every tagged element contributes its coin identifier to the list
    [updatePrices] collects. *)
Lemma dataset_coinIds_complete (st : page) :
  NoDup (ids (body st)) ->
  List.length (dataset_coinIds (querySelectorAll coin_tagged st) st)
  = List.length (querySelectorAll coin_tagged st).
Proof.
  intros N. unfold querySelectorAll, dataset_coinIds, dataset_coinId.
  assert (H : forall el, In el (matching coin_tagged (body st)) ->
                exists c n, lookup el (body st) = Some n
                            /\ getAttribute "data-coin-id" (attrs_of n)
                               = Some c).
  { intros el Hel.
    destruct (matching_lookup coin_tagged el (body st) N Hel)
      as (n & L & S).
    unfold coin_tagged, has_attribute in S.
    destruct (getAttribute "data-coin-id" (attrs_of n)) as [c|] eqn:E;
      [|discriminate].
    now exists c, n. }
  induction (matching coin_tagged (body st)) as [|e els IH];
    [reflexivity|].
  cbn [flat_map]. destruct (H e (or_introl eq_refl)) as (c & n & L & E).
  rewrite L, E. cbn [app List.length]. f_equal. apply IH.
  intros el Hel. apply H. now right.
Qed.

(** ** Removal *)

Lemma has_id_remove (n m : nat) (c : node) :
  has_id n (remove m c) = has_id n c.
Proof. destruct c; reflexivity. Qed.

Lemma first_some_none {A B} (f : A -> option B) (l : list A) :
  (forall x, In x l -> f x = None) -> first_some f l = None.
Proof.
  induction l as [|x l IH]; simpl; intros H; [reflexivity|].
  rewrite (H x) by now left. apply IH. intros y Hy. apply H. now right.
Qed.

Lemma existsb_filter_negb {A} (p : A -> bool) (l : list A) :
  existsb p (filter (fun x => negb (p x)) l) = false.
Proof.
  induction l as [|x l IH]; simpl; [reflexivity|].
  destruct (p x) eqn:E; simpl; [assumption|]. now rewrite E.
Qed.

(** A removed element has no parent in the tree any more. *)
Lemma parentNode_remove (n : nat) (t : node) :
  parentNode n (remove n t) = None.
Proof.
  induction t as [s|i nm a cs IH] using node_induction; [reflexivity|].
  simpl. rewrite existsb_filter_negb. apply first_some_none.
  intros x Hx. apply filter_In in Hx as [Hx _].
  apply in_map_iff in Hx as (c & <- & Hc).
  rewrite Forall_forall in IH. now apply IH.
Qed.

(** C9: [showNotification(message, type, duration)] puts a banner under
    [document.body] and registers a timeout of [duration] milliseconds,
    3000 when none is given, that removes it; the callback of that timeout
    is total: on whatever page it runs the banner is detached afterwards,
    and where the banner was detached already nothing changes. *)
Theorem showNotification_expires (message : string) (type : option string)
    (duration : option Z) (st : page) (bi : nat) (bn : string)
    (ba : attributes) (bcs : list node) :
  body st = Element bi bn ba bcs ->
  let n := next_node st in
  let st' := showNotification message type duration st in
  (exists banner,
      body st' = Element bi bn ba (bcs ++ [banner])
      /\ id_of banner = n
      /\ className_of banner
         = ("alert alert-"
            ++ match type with Some t => t | None => "info" end
            ++ " alert-dismissible fade show position-fixed")%string
      /\ hd_error (childNodes_of banner)
         = Some (Text (line_break ++ "        " ++ message ++ line_break
                       ++ "        ")%string))
  /\ parentNode n (body st') = Some bi
  /\ timers st'
     = timers st
       ++ [{| handle := next_timer st; repeating := false;
              delay := match duration with Some d => d | None => 3000%Z end;
              action := RemoveNotification n |}]
  /\ forall s,
       parentNode n (body (run (RemoveNotification n) s)) = None
       /\ (parentNode n (body s) = None ->
           run (RemoveNotification n) s = s).
Proof.
  intros Hb n st'. subst st'. unfold showNotification.
  cbn. rewrite Hb. cbn.
  split; [|split; [|split]].
  - eexists. split; [reflexivity|]. split; [reflexivity|].
    split; reflexivity.
  - rewrite existsb_app. cbn. fold n. rewrite Nat.eqb_refl.
    now rewrite orb_true_r.
  - reflexivity.
  - intros s. unfold remove_notification. fold n.
    destruct (parentNode n (body s)) eqn:E.
    + split; [apply parentNode_remove | discriminate].
    + split; [assumption | reflexivity].
Qed.

Lemma showNotification_expires_witness :
  timers (showNotification "Copied to clipboard" (Some "success") None
            about_page)
  = [{| handle := 1; repeating := false; delay := 3000;
        action := RemoveNotification 2 |}].
Proof.
  apply (showNotification_expires "Copied to clipboard" (Some "success")
           None about_page 0 "body" [] [Element 1 "p" [] [Text "About"]]).
  reflexivity.
Defined.

(** ** Class tokens *)

Lemma strip_Some (p s r : string) :
  strip p s = Some r -> s = (p ++ r)%string.
Proof.
  revert s. induction p as [|c p IH]; simpl; intros s H.
  - now inversion H.
  - destruct s as [|d s]; [discriminate|].
    destruct (Ascii.eqb_spec c d) as [->|]; [|discriminate].
    now rewrite (IH s H).
Qed.

Lemma lacks_append (c : ascii) (a b : string) :
  lacks c (a ++ b)%string = lacks c a && lacks c b.
Proof.
  induction a as [|d a IH]; simpl; [reflexivity|].
  now rewrite IH, andb_assoc.
Qed.

Lemma split_run (w s : string) :
  forallb (fun c => negb (is_space c)) (chars w) = true ->
  split (w ++ s)%string
  = ((w ++ fst (split s))%string, snd (split s)).
Proof.
  induction w as [|c w IH]; simpl; intros H.
  - now destruct (split s).
  - apply andb_true_iff in H as [Hc Hw]. rewrite (IH Hw).
    apply negb_true_iff in Hc. now rewrite Hc.
Qed.

Lemma tokens_kept_refl (c : ascii) (u : string) : tokens_kept c u u.
Proof. intros t _. auto. Qed.

Lemma tokens_kept_step (c d : ascii) (u v : string) :
  tokens_kept c u v -> tokens_kept c (String d u) (String d v).
Proof.
  intros K t Ht. simpl.
  assert (Kw : forall w, lacks c w = true ->
                 fst (split u) = w -> fst (split v) = w)
    by (intros w Hw; apply (K w Hw)).
  destruct (K t Ht) as [K1 K2]. clear K.
  destruct (split u) as [w1 ts1], (split v) as [w2 ts2].
  simpl in K1, K2, Kw. destruct (is_space d); simpl.
  - split; [|auto]. intros Hin.
    assert (A : In t ts1 \/ (w1 = t /\ t <> EmptyString)).
    { destruct w1; simpl in Hin; [now left|].
      destruct Hin as [<-|Hin]; [right; split; [reflexivity|discriminate]
                               | now left]. }
    destruct A as [A|[A1 A2]].
    + destruct w2; simpl; auto.
    + rewrite (K2 A1). destruct t; [contradiction|]. now left.
  - split; [assumption|]. intros <-. simpl in Ht.
    apply andb_true_iff in Ht as [_ Hw].
    now rewrite (Kw w1 Hw eq_refl).
Qed.

Lemma tokens_kept_cut (c : ascii) (m b : string) :
  forallb (fun c => negb (is_space c)) (chars m) = true ->
  lacks c m = false ->
  tokens_kept c (m ++ b)%string b.
Proof.
  intros Hm Hc t Ht. rewrite (split_run m b Hm). simpl. split; [auto|].
  intros <-. rewrite lacks_append, Hc in Ht. discriminate.
Qed.

(** Cutting the first [text-success] or [text-danger] out of a class
    string keeps every token that has no [x] in it. *)
Lemma tokens_kept_replace (s : string) :
  tokens_kept "x" s (replace_text_class s).
Proof.
  induction s as [|c s IH].
  - apply tokens_kept_refl.
  - unfold replace_text_class; fold replace_text_class.
    destruct (strip "text-success" (String c s)) as [r|] eqn:E1.
    { apply strip_Some in E1. rewrite E1.
      now apply tokens_kept_cut. }
    destruct (strip "text-danger" (String c s)) as [r|] eqn:E2.
    { apply strip_Some in E2. rewrite E2.
      now apply tokens_kept_cut. }
    now apply tokens_kept_step.
Qed.

Lemma tokens_replace (t s : string) :
  lacks "x" t = true ->
  In t (tokens s) -> In t (tokens (replace_text_class s)).
Proof.
  intros Ht. unfold tokens.
  destruct (tokens_kept_replace s t Ht) as [K1 K2].
  destruct (split s) as [w1 ts1], (split (replace_text_class s))
    as [w2 ts2].
  simpl in K1, K2. intros Hin.
  assert (A : In t ts1 \/ (w1 = t /\ t <> EmptyString)).
  { destruct w1; simpl in Hin; [now left|].
    destruct Hin as [<-|Hin]; [right; split; [reflexivity|discriminate]
                             | now left]. }
  destruct A as [A|[A1 A2]].
  - destruct w2; simpl; auto.
  - rewrite (K2 A1). destruct t; [contradiction|]. now left.
Qed.

Lemma split_tokens (s : string) :
  forallb (fun c => negb (is_space c)) (chars (fst (split s))) = true
  /\ forallb is_token (snd (split s)) = true.
Proof.
  induction s as [|c s [IH1 IH2]]; simpl; [auto|].
  destruct (split s) as [w ts]. simpl in *.
  destruct (is_space c) eqn:E; simpl.
  - split; [reflexivity|]. destruct w; simpl; [assumption|].
    simpl in IH1. unfold chars in IH1. simpl in IH1.
    unfold chars. simpl. now rewrite IH1, IH2.
  - unfold chars in *. simpl. now rewrite E, IH1, IH2.
Qed.

Lemma tokens_are_tokens (s : string) : forallb is_token (tokens s) = true.
Proof.
  unfold tokens. destruct (split_tokens s) as [H1 H2].
  destruct (split s) as [w ts]. simpl in *.
  destruct w; simpl; [assumption|].
  unfold chars in *. simpl in *. now rewrite H1, H2.
Qed.

Lemma tokens_token (x : string) : is_token x = true -> tokens x = [x].
Proof.
  intros H. unfold tokens.
  assert (N : forallb (fun c => negb (is_space c)) (chars x) = true)
    by (destruct x; [discriminate | exact H]).
  pose proof (split_run x EmptyString N) as S. simpl in S.
  assert (A : forall y, (y ++ "")%string = y)
    by (induction y; simpl; congruence).
  rewrite !A in S. rewrite S. destruct x; [discriminate | reflexivity].
Qed.

(** The ordered-set serializer is read back as the same tokens. *)
Lemma tokens_concat (l : list string) :
  forallb is_token l = true -> tokens (String.concat " " l) = l.
Proof.
  induction l as [|x l IH]; [reflexivity|].
  simpl. intros H. apply andb_true_iff in H as [Hx Hl].
  destruct l as [|y l]; [now apply tokens_token|].
  assert (N : forallb (fun c => negb (is_space c)) (chars x) = true)
    by (destruct x; [discriminate | exact Hx]).
  unfold tokens. rewrite (split_run x _ N).
  specialize (IH Hl). unfold tokens in IH.
  remember (String.concat " " (y :: l)) as rest.
  simpl. destruct (split rest) as [w ts]. simpl.
  assert (A : forall z, (z ++ "")%string = z)
    by (induction z; simpl; congruence).
  rewrite A, IH. destruct x; [discriminate | reflexivity].
Qed.

Lemma is_token_unique (l : list string) :
  forallb is_token l = true -> forallb is_token (unique l) = true.
Proof.
  intros H. rewrite forallb_forall in *. intros x Hx.
  apply H. now apply unique_spec.
Qed.

(** A token without [x] survives the class change of
    [updatePriceElement]. *)
Lemma token_kept (t cls tok : string) :
  lacks "x" t = true ->
  is_token tok = true ->
  mem t (tokens cls) = true ->
  mem t
    (tokens
       (String.concat " "
          (set_add (unique (tokens (replace_text_class cls))) tok)))
  = true.
Proof.
  intros Ht Htok H. apply mem_In in H. apply mem_In.
  set (u := unique (tokens (replace_text_class cls))).
  assert (Hu : forallb is_token u = true)
    by apply is_token_unique, tokens_are_tokens.
  assert (Hin : In t u) by (apply unique_spec; now apply tokens_replace).
  rewrite tokens_concat.
  - unfold set_add. destruct (mem tok u); [assumption|].
    apply in_app_iff. now left.
  - unfold set_add. destruct (mem tok u); [assumption|].
    rewrite forallb_app, Hu. simpl. now rewrite Htok.
Qed.

(** ** Attributes *)

Lemma getAttribute_setAttribute (k v : string) (a : attributes) :
  getAttribute k (setAttribute k v a) = Some v.
Proof.
  unfold getAttribute. induction a as [|[k' v'] a IH]; simpl.
  - now rewrite String.eqb_refl.
  - destruct (String.eqb_spec k' k) as [->|Hne]; simpl.
    + now rewrite String.eqb_refl.
    + destruct (String.eqb_spec k' k); [contradiction | assumption].
Qed.

Lemma getAttribute_setAttribute_other (k k' v : string) (a : attributes) :
  k <> k' ->
  getAttribute k (setAttribute k' v a) = getAttribute k a.
Proof.
  intros Hne. unfold getAttribute.
  induction a as [|[k0 v0] a IH]; simpl.
  - destruct (String.eqb_spec k' k); [congruence | reflexivity].
  - destruct (String.eqb_spec k0 k') as [->|H0]; simpl.
    + destruct (String.eqb_spec k' k); [congruence | reflexivity].
    + destruct (String.eqb_spec k0 k); [reflexivity | assumption].
Qed.

(** ** The renderer *)

Lemma className_of_Element (i : nat) (n : string) (a : attributes)
    (cs : list node) :
  className_of (Element i n a cs) = class_of a.
Proof. reflexivity. Qed.

Lemma class_of_setAttribute (v : string) (a : attributes) :
  class_of (setAttribute "class" v a) = v.
Proof. unfold class_of. now rewrite getAttribute_setAttribute. Qed.

(** [render_element] in terms of the attributes of the element. *)
Lemma render_element_eq (ps : prices) (i : nat) (n : string)
    (a : attributes) (cs : list node) :
  render_element ps (Element i n a cs)
  = match getAttribute "data-coin-id" a with
    | None => Element i n a cs
    | Some coin =>
        match quote_of ps coin with
        | None => Element i n a cs
        | Some price =>
            if mem "change-display" (tokens (class_of a))
            then
              Element i n
                (setAttribute "class"
                   (String.concat " "
                      (set_add
                         (unique (tokens (replace_text_class (class_of a))))
                         (if ge (usd_24h_change price) (of_Z 0)
                          then "text-success" else "text-danger")))
                   (setAttribute "class" (replace_text_class (class_of a))
                      a))
                (text_nodes (formatPercentage (usd_24h_change price)))
            else if mem "price-display" (tokens (class_of a))
                 then Element i n a (text_nodes (formatPrice (usd price)))
                 else Element i n a cs
        end
    end.
Proof.
  unfold render_element. cbn [attrs_of].
  destruct (getAttribute "data-coin-id" a) as [coin|]; [|reflexivity].
  destruct (quote_of ps coin) as [price|]; [|reflexivity].
  cbv zeta. rewrite !className_of_Element.
  destruct (mem "price-display" (tokens (class_of a)));
    cbn [with_textContent]; rewrite !className_of_Element;
    (destruct (mem "change-display" (tokens (class_of a)));
     [|reflexivity]);
    unfold with_class_added; cbn [with_attribute];
    rewrite !className_of_Element, !class_of_setAttribute;
    reflexivity.
Qed.

Lemma render_element_cases (ps : prices) (i : nat) (n : string)
    (a : attributes) (cs : list node) :
  (renders ps a = false
   /\ render_element ps (Element i n a cs) = Element i n a cs)
  \/ (renders ps a = true
      /\ exists a' s,
           render_element ps (Element i n a cs)
           = Element i n a' (text_nodes s)
           /\ renders ps a' = true
           /\ exists a'',
                render_element ps (Element i n a' (text_nodes s))
                = Element i n a'' (text_nodes s)).
Proof.
  rewrite render_element_eq. unfold renders.
  destruct (getAttribute "data-coin-id" a) as [coin|] eqn:Ec; [|now left].
  destruct (quote_of ps coin) as [price|] eqn:Eq; [|now left].
  destruct (mem "change-display" (tokens (class_of a))) eqn:Ecd.
  - right. rewrite orb_true_r. split; [reflexivity|].
    set (tok := if ge (usd_24h_change price) (of_Z 0)
                then "text-success" else "text-danger").
    assert (Htok : is_token tok = true) by (subst tok; now destruct ge).
    pose proof (token_kept "change-display" (class_of a) tok eq_refl Htok
                  Ecd) as Hk.
    eexists _, _. split; [reflexivity|].
    rewrite render_element_eq.
    rewrite !getAttribute_setAttribute_other, Ec, Eq by discriminate.
    rewrite !class_of_setAttribute, Hk, orb_true_r. split; [reflexivity|].
    eexists. reflexivity.
  - destruct (mem "price-display" (tokens (class_of a))) eqn:Epd;
      [|now left].
    right. split; [reflexivity|].
    exists a, (formatPrice (usd price)). split; [reflexivity|].
    rewrite render_element_eq, Ec, Eq, Ecd, Epd. split; [reflexivity|].
    now exists a.
Qed.

Lemma keeps_id_with_textContent (s : string) : keeps_id (with_textContent s).
Proof. intros i n a cs. simpl. apply Nat.eqb_refl. Qed.

Lemma keeps_id_with_attribute (k v : string) : keeps_id (with_attribute k v).
Proof. intros i n a cs. simpl. apply Nat.eqb_refl. Qed.

Lemma keeps_id_with_class_added (tok : string) :
  keeps_id (with_class_added tok).
Proof. intros i n a cs. simpl. apply Nat.eqb_refl. Qed.

Lemma keeps_id_compose (g1 g2 : node -> node) :
  keeps_id g1 -> keeps_id g2 -> keeps_id (fun x => g2 (g1 x)).
Proof.
  intros K1 K2 i n a cs.
  destruct (has_id_true _ _ (K1 i n a cs)) as (n' & a' & cs' & E).
  rewrite E. apply K2.
Qed.

Lemma lookup_Element (el : nat) (t n : node) :
  lookup el t = Some n -> exists nm a cs, n = Element el nm a cs.
Proof.
  induction t as [s|i nm a cs IH] using node_induction; [discriminate|].
  simpl. destruct (Nat.eqb_spec i el) as [->|Hne].
  - intros H. inversion H. now exists nm, a, cs.
  - induction cs as [|c cs IHcs]; [discriminate|].
    inversion IH as [|? ? Hc Hcs]; subst. simpl.
    destruct (lookup el c) eqn:E.
    + intros H. inversion H; subst. now apply Hc.
    + now apply IHcs.
Qed.

Lemma set_body_body (st : page) : set_body (body st) st = st.
Proof. now destruct st. Qed.

Lemma keeps_id_id : keeps_id (fun x => x).
Proof. intros i n a cs. simpl. apply Nat.eqb_refl. Qed.

(** Solves [keeps_id] goals for the changes the script makes. *)
Ltac keeps :=
  first [ apply keeps_id_id
        | apply keeps_id_with_textContent
        | apply keeps_id_with_attribute
        | apply keeps_id_with_class_added
        | apply keeps_id_compose; keeps ].

(** One step of [updatePriceElements] changes the document as
    [render_element] changes the element, and nothing else of the page. *)
Lemma updatePriceElement_update (ps : prices) (st : page) (el : nat) :
  NoDup (ids (body st)) ->
  updatePriceElement ps st el
  = set_body (update el (render_element ps) (body st)) st.
Proof.
  intros N. unfold updatePriceElement, dataset_coinId.
  destruct (lookup el (body st)) as [n|] eqn:L.
  2:{ rewrite update_absent by now apply lookup_None_absent.
      now rewrite set_body_body. }
  destruct (lookup_Element _ _ _ L) as (nm & a & cs & ->).
  cbn [attrs_of].
  (* whatever the script does to [el], [render_element] does to [n] *)
  assert (R : forall g,
             g (Element el nm a cs)
             = render_element ps (Element el nm a cs) ->
             set_body (update el g (body st)) st
             = set_body (update el (render_element ps) (body st)) st).
  { intros g E. f_equal. now apply (update_ext_at _ _ _ _ _ N L). }
  assert (C : forall g s,
             body s = update el g (body st) -> keeps_id g ->
             className el s = className_of (g (Element el nm a cs))).
  { intros g s Hs K. unfold className. now rewrite Hs, lookup_update, L. }
  pose proof (render_element_eq ps el nm a cs) as Q.
  destruct (getAttribute "data-coin-id" a) as [coin|].
  2:{ rewrite <- (R (fun x => x)) by now rewrite Q.
      now rewrite update_id, set_body_body. }
  destruct (quote_of ps coin) as [price|].
  2:{ rewrite <- (R (fun x => x)) by now rewrite Q.
      now rewrite update_id, set_body_body. }
  assert (C0 : className el st = class_of a).
  { unfold className. now rewrite L. }
  assert (P0 : classList_contains el "price-display" st
               = mem "price-display" (tokens (class_of a))).
  { unfold classList_contains. now rewrite C0. }
  rewrite !P0. clear P0. unfold classList_contains.
  destruct (mem "price-display" (tokens (class_of a))) eqn:Epd.
  - rewrite (C (with_textContent (formatPrice (usd price)))
               (set_textContent el (formatPrice (usd price)) st) eq_refl
               (keeps_id_with_textContent _)).
    cbn [with_textContent]. rewrite className_of_Element.
    destruct (mem "change-display" (tokens (class_of a))) eqn:Ecd.
    + rewrite (C (fun x => with_textContent
                             (formatPercentage (usd_24h_change price))
                             (with_textContent (formatPrice (usd price)) x))
                 (set_textContent el _ (set_textContent el _ st))).
      2:{ unfold set_textContent. cbn [body set_body].
          now rewrite update_update by apply keeps_id_with_textContent. }
      2:{ keeps. }
      cbn [with_textContent]. rewrite className_of_Element.
      unfold classList_add, set_className, set_textContent.
      cbn [body set_body].
      rewrite !update_update by keeps.
      rewrite <- (R (fun x =>
                       with_class_added
                         (if ge (usd_24h_change price) (of_Z 0)
                          then "text-success" else "text-danger")
                         (with_attribute "class"
                            (replace_text_class (class_of a))
                            (with_textContent
                               (formatPercentage (usd_24h_change price))
                               (with_textContent
                                  (formatPrice (usd price)) x))))).
      * reflexivity.
      * rewrite Q. unfold with_class_added.
        cbn [with_textContent with_attribute].
        now rewrite className_of_Element, class_of_setAttribute.
    + unfold set_textContent.
      apply (R (with_textContent (formatPrice (usd price)))).
      now rewrite Q.
  - rewrite C0.
    destruct (mem "change-display" (tokens (class_of a))) eqn:Ecd.
    + rewrite (C (with_textContent
                    (formatPercentage (usd_24h_change price)))
                 (set_textContent el _ st) eq_refl
                 (keeps_id_with_textContent _)).
      cbn [with_textContent]. rewrite className_of_Element.
      unfold classList_add, set_className, set_textContent.
      cbn [body set_body].
      rewrite !update_update by keeps.
      rewrite <- (R (fun x =>
                       with_class_added
                         (if ge (usd_24h_change price) (of_Z 0)
                          then "text-success" else "text-danger")
                         (with_attribute "class"
                            (replace_text_class (class_of a))
                            (with_textContent
                               (formatPercentage (usd_24h_change price))
                               x)))).
      * reflexivity.
      * rewrite Q. unfold with_class_added.
        cbn [with_textContent with_attribute].
        now rewrite className_of_Element, class_of_setAttribute.
    + rewrite <- (R (fun x => x)) by now rewrite Q.
      now rewrite update_id, set_body_body.
Qed.

Lemma ids_text_nodes (s : string) : flat_map ids (text_nodes s) = [].
Proof. now destruct s. Qed.

Lemma prunes_render_element (ps : prices) : prunes (render_element ps).
Proof.
  intros [s|i n a cs].
  - split; [apply incl_refl | auto].
  - destruct (render_element_cases ps i n a cs)
      as [[_ ->]|(_ & a' & s & -> & _)].
    + split; [apply incl_refl | auto].
    + simpl. rewrite ids_text_nodes. split.
      * intros x [<-|[]]. now left.
      * intros _. repeat constructor. intros [].
Qed.

Lemma prunes_render (ps : prices) : prunes (render ps).
Proof.
  intros t. induction t as [s|i n a cs IH] using node_induction.
  - split; [apply incl_refl | auto].
  - cbn [render]. destruct (renders ps a);
      [apply prunes_render_element|].
    rewrite Forall_forall in IH. simpl. rewrite flat_map_map. split.
    + apply incl_cons; [now left|]. apply incl_tl.
      apply incl_flat_map. intros c Hc. now apply IH.
    + intros N. inversion N as [|? ? Hi Ncs]; subst. constructor.
      * intros Hin. apply Hi.
        revert Hin. apply incl_flat_map. intros c Hc. now apply IH.
      * apply (NoDup_flat_map_incl ids); [assumption| |];
          intros c Hc; destruct (IH c Hc) as [I1 I2]; [assumption|].
        apply I2.
        clear - Ncs Hc. induction cs as [|d cs IHcs]; [contradiction|].
        simpl in Ncs. apply NoDup_app_inv in Ncs as (N1 & N2 & _).
        destruct Hc as [->|Hc]; [assumption | now apply IHcs].
Qed.

(** The document steps of [updatePriceElements], on a tree and on a list
    of trees. *)
Lemma fold_update_absent (g : node -> node) (els : list nat) (t : node) :
  (forall e, In e els -> ~ In e (ids t)) ->
  fold_left (fun t e => update e g t) els t = t.
Proof.
  induction els as [|e els IH]; simpl; intros H; [reflexivity|].
  rewrite update_absent by (apply H; now left).
  apply IH. intros x Hx. apply H. now right.
Qed.

Lemma fold_update_element (g : node -> node) (els : list nat) (i : nat)
    (n : string) (a : attributes) (cs : list node) :
  ~ In i els ->
  fold_left (fun t e => update e g t) els (Element i n a cs)
  = Element i n a (fold_left (fun f e => map (update e g) f) els cs).
Proof.
  revert cs. induction els as [|e els IH]; simpl; intros cs H;
    [reflexivity|].
  destruct (Nat.eqb_spec i e) as [->|Hne]; [exfalso; apply H; now left|].
  apply IH. intros Hin. apply H. now right.
Qed.

Lemma fold_update_cons (g : node -> node) (els : list nat) (c : node)
    (r : list node) :
  fold_left (fun f e => map (update e g) f) els (c :: r)
  = fold_left (fun t e => update e g t) els c
    :: fold_left (fun f e => map (update e g) f) els r.
Proof.
  revert c r. induction els as [|e els IH]; simpl; intros c r;
    [reflexivity|].
  apply IH.
Qed.

Lemma fold_update_forest_absent (g : node -> node) (els : list nat)
    (r : list node) :
  (forall e, In e els -> ~ In e (flat_map ids r)) ->
  fold_left (fun f e => map (update e g) f) els r = r.
Proof.
  induction r as [|c r IH]; intros H.
  - induction els as [|e els IHe]; simpl; [reflexivity|].
    apply IHe. intros x Hx. apply H. now right.
  - rewrite fold_update_cons. f_equal.
    + apply fold_update_absent. intros e He Hin. apply (H e He).
      simpl. apply in_app_iff. now left.
    + apply IH. intros e He Hin. apply (H e He).
      simpl. apply in_app_iff. now right.
Qed.

Lemma renders_tagged (ps : prices) (a : attributes) :
  renders ps a = true -> coin_tagged a = true.
Proof.
  unfold renders, coin_tagged, has_attribute.
  now destruct (getAttribute "data-coin-id" a).
Qed.

(** [updatePriceElements] on a document without duplicate identities is
    [render]. *)
Lemma fold_update_render (ps : prices) (t : node) :
  NoDup (ids t) ->
  fold_left (fun t e => update e (render_element ps) t)
    (matching coin_tagged t) t
  = render ps t.
Proof.
  induction t as [s|i n a cs IH] using node_induction; [reflexivity|].
  intros N. inversion N as [|? ? Hi Ncs]; subst.
  assert (Hrest : ~ In i (flat_map (matching coin_tagged) cs)).
  { intros Hin. apply Hi. revert Hin. apply incl_flat_map.
    intros c _. apply matching_ids. }
  (* the children, one after the other *)
  assert (F : fold_left (fun f e => map (update e (render_element ps)) f)
                (flat_map (matching coin_tagged) cs) cs
              = map (render ps) cs).
  { clear Hi Hrest N. induction cs as [|c r IHr]; [reflexivity|].
    inversion IH as [|? ? Hc Hr]; subst. simpl in Ncs.
    apply NoDup_app_inv in Ncs as (N1 & N2 & D).
    cbn [flat_map map]. rewrite fold_left_app, !fold_update_cons.
    rewrite (Hc N1).
    rewrite (fold_update_forest_absent _ (matching coin_tagged c) r).
    2:{ intros e He. apply D. now apply (matching_ids coin_tagged c). }
    f_equal.
    - apply fold_update_absent. intros e He Hin.
      apply (D e).
      + now apply (prunes_render ps c).
      + revert He. apply incl_flat_map. intros x _. apply matching_ids.
    - now apply IHr. }
  cbn [matching render].
  destruct (render_element_cases ps i n a cs)
    as [[R E]|(R & a' & s & E & _)]; rewrite R.
  - assert (S : fold_left (fun t e => update e (render_element ps) t)
                  (if coin_tagged a then [i] else []) (Element i n a cs)
                = Element i n a cs).
    { destruct (coin_tagged a); [|reflexivity].
      cbn [fold_left update]. now rewrite Nat.eqb_refl, E. }
    rewrite fold_left_app, S, fold_update_element by assumption.
    now rewrite F.
  - rewrite (renders_tagged _ _ R). cbn [app fold_left update].
    rewrite Nat.eqb_refl, E. apply fold_update_absent.
    intros e He. simpl. rewrite ids_text_nodes.
    intros [<-|[]]. contradiction.
Qed.

Lemma fold_updatePriceElement (ps : prices) (els : list nat) (st : page) :
  NoDup (ids (body st)) ->
  fold_left (updatePriceElement ps) els st
  = set_body
      (fold_left (fun t e => update e (render_element ps) t) els (body st))
      st.
Proof.
  revert st. induction els as [|e els IH]; simpl; intros st N.
  - now rewrite set_body_body.
  - rewrite updatePriceElement_update by assumption.
    rewrite IH.
    + reflexivity.
    + cbn [body set_body].
      now apply (ids_update e _ (body st) (prunes_render_element ps)).
Qed.

(** [updatePriceElements] changes the document to its rendering and
    nothing else of the page. *)
Lemma updatePriceElements_render (ps : prices) (st : page) :
  NoDup (ids (body st)) ->
  updatePriceElements ps st = set_body (render ps (body st)) st.
Proof.
  intros N. unfold updatePriceElements, querySelectorAll.
  now rewrite fold_updatePriceElement, fold_update_render.
Qed.

(** ** Rendering twice *)

Lemma text_tree_render_twice (ps : prices) (t : node) :
  text_tree (render ps (render ps t)) = text_tree (render ps t).
Proof.
  induction t as [s|i n a cs IH] using node_induction; [reflexivity|].
  cbn [render].
  destruct (render_element_cases ps i n a cs)
    as [[R E]|(R & a' & s & E & R' & a'' & E')]; rewrite R.
  - cbn [render]. rewrite R. cbn [text_tree]. f_equal.
    rewrite !map_map. apply map_ext_in. intros c Hc.
    rewrite Forall_forall in IH. now apply IH.
  - rewrite E. cbn [render]. rewrite R', E'. reflexivity.
Qed.

Lemma textContent_text_tree (t : node) :
  textContent (text_tree t) = textContent t.
Proof.
  induction t as [s|i n a cs IH] using node_induction; [reflexivity|].
  simpl. f_equal. rewrite map_map. apply map_ext_in. intros c Hc.
  rewrite Forall_forall in IH. now apply IH.
Qed.

Lemma lookup_text_tree (el : nat) (t : node) :
  lookup el (text_tree t) = option_map text_tree (lookup el t).
Proof.
  induction t as [s|i n a cs IH] using node_induction; [reflexivity|].
  simpl. destruct (i =? el)%nat; [reflexivity|].
  induction cs as [|c cs IHcs]; [reflexivity|].
  inversion IH as [|? ? Hc Hcs]; subst. simpl. rewrite Hc.
  destruct (lookup el c); simpl; [reflexivity | now apply IHcs].
Qed.

Lemma textContent_by_text_tree (el : nat) (t : node) :
  option_map textContent (lookup el t)
  = option_map textContent (lookup el (text_tree t)).
Proof.
  rewrite lookup_text_tree. destruct (lookup el t); simpl; [|reflexivity].
  now rewrite textContent_text_tree.
Qed.

(** C8: on a document whose elements have distinct identities,
    [updatePriceElements] called twice with the same mapping leaves every
    element with the text it had after the first call. *)
Theorem updatePriceElements_twice_same_text (ps : prices) (st : page) :
  NoDup (ids (body st)) ->
  forall el,
    get_textContent el (updatePriceElements ps (updatePriceElements ps st))
    = get_textContent el (updatePriceElements ps st).
Proof.
  intros N el.
  rewrite (updatePriceElements_render ps st N).
  rewrite updatePriceElements_render
    by (cbn [body set_body]; now apply (prunes_render ps (body st))).
  unfold get_textContent. cbn [body set_body].
  rewrite textContent_by_text_tree, text_tree_render_twice.
  symmetry. apply textContent_by_text_tree.
Qed.

Lemma updatePriceElements_twice_same_text_witness :
  get_textContent 2
    (updatePriceElements example_quotes
       (updatePriceElements example_quotes price_table))
  = get_textContent 2 (updatePriceElements example_quotes price_table).
Proof.
  apply (updatePriceElements_twice_same_text example_quotes price_table).
  simpl. repeat (constructor; [simpl; intuition lia|]). constructor.
Defined.

(** What the rendering writes on the example table, and that the class
    attribute, unlike the text, can differ after a second call: of two
    colour classes the first call removes one and the second call the
    other. *)
Lemma updatePriceElements_examples :
  map (fun el => get_textContent el
                   (updatePriceElements example_quotes price_table))
    [1; 2; 3]
  = [Some "$64,250.50"; Some "+1.25%"; Some ""]
  /\ className 1 (updatePriceElements example_quotes two_colours)
     = "text-danger change-display text-success"
  /\ className 1
       (updatePriceElements example_quotes
          (updatePriceElements example_quotes two_colours))
     = "change-display text-success".
Proof. vm_compute. repeat split. Qed.

(** ** The loading markers *)

Lemma remove_absent (k : nat) (t : node) :
  ~ In k (ids t) -> remove k t = t.
Proof.
  induction t as [s|i n a cs IH] using node_induction; [reflexivity|].
  simpl. intros H. f_equal.
  induction cs as [|c cs IHcs]; [reflexivity|].
  inversion IH as [|? ? Hc Hcs]; subst. simpl.
  assert (Hk : ~ In k (ids c)).
  { intros Hin. apply H. right. simpl. apply in_app_iff. now left. }
  rewrite (Hc Hk).
  assert (E : has_id k c = false).
  { destruct c as [s|j m b ds]; [reflexivity|]. simpl.
    apply Nat.eqb_neq. intros ->. apply Hk. now left. }
  rewrite E. simpl. f_equal. apply IHcs; [assumption|].
  intros [Hin|Hin]; apply H; [now left|].
  right. simpl. apply in_app_iff. now right.
Qed.

Lemma prunes_remove (k : nat) : prunes (remove k).
Proof.
  intros t. induction t as [s|i n a cs IH] using node_induction.
  - split; [apply incl_refl | auto].
  - rewrite Forall_forall in IH. simpl.
    assert (I : incl (flat_map ids
                        (filter (fun c => negb (has_id k c))
                           (map (remove k) cs)))
                  (flat_map ids cs)).
    { intros x Hx. apply in_flat_map in Hx as (c & Hc & Hx).
      apply filter_In in Hc as [Hc _].
      apply in_map_iff in Hc as (c0 & <- & Hc0).
      apply in_flat_map. exists c0. split; [assumption|].
      now apply (IH c0 Hc0). }
    split.
    + apply incl_cons; [now left|]. now apply incl_tl.
    + intros N. inversion N as [|? ? Hi Ncs]; subst. constructor.
      * intros Hin. apply Hi. now apply I.
      * clear I Hi N. induction cs as [|c cs IHcs]; [constructor|].
        simpl in *. apply NoDup_app_inv in Ncs as (N1 & N2 & D).
        assert (R : NoDup
                      (flat_map ids
                         (filter (fun c => negb (has_id k c))
                            (map (remove k) cs)))).
        { apply IHcs; [|assumption]. intros x Hx. apply IH. now right. }
        destruct (has_id k (remove k c)); simpl; [exact R|].
        apply NoDup_app; [now apply (IH c (or_introl eq_refl)) | exact R|].
        intros x Hx Hx2. apply (D x).
        -- now apply (IH c (or_introl eq_refl)).
        -- apply in_flat_map in Hx2 as (d & Hd & Hx2).
           apply filter_In in Hd as [Hd _].
           apply in_map_iff in Hd as (d0 & <- & Hd0).
           apply in_flat_map. exists d0. split; [assumption|].
           apply (IH d0); [now right | assumption].
Qed.

Lemma prunes_hide_element : prunes hide_element.
Proof.
  intros t. unfold hide_element.
  destruct (hd_error _); [apply prunes_remove|].
  split; [apply incl_refl | auto].
Qed.

Lemma lookup_ids (el : nat) (t n : node) :
  lookup el t = Some n -> incl (ids n) (ids t).
Proof.
  induction t as [s|i nm a cs IH] using node_induction; [discriminate|].
  simpl. destruct (Nat.eqb_spec i el) as [->|Hne].
  - intros H. inversion H. apply incl_refl.
  - intros H. apply incl_tl.
    induction cs as [|c cs IHcs]; [discriminate|].
    inversion IH as [|? ? Hc Hcs]; subst. simpl in *.
    destruct (lookup el c) eqn:E.
    + inversion H; subst. apply incl_appl. now apply Hc.
    + apply incl_appr. now apply IHcs.
Qed.

Lemma remove_forest_absent (k : nat) (cs : list node) :
  ~ In k (flat_map ids cs) ->
  filter (fun c => negb (has_id k c)) (map (remove k) cs) = cs.
Proof.
  induction cs as [|c cs IH]; simpl; intros H; [reflexivity|].
  assert (Hk : ~ In k (ids c)).
  { intros Hin. apply H. apply in_app_iff. now left. }
  rewrite (remove_absent k c Hk).
  assert (E : has_id k c = false).
  { destruct c as [s|j m b ds]; [reflexivity|]. simpl.
    apply Nat.eqb_neq. intros ->. apply Hk. now left. }
  rewrite E. simpl. f_equal. apply IH.
  intros Hin. apply H. apply in_app_iff. now right.
Qed.

Lemma forest_untouched (el k : nat) (ds : list node) :
  ~ In k (flat_map ids ds) -> ~ In el (flat_map ids ds) ->
  filter (fun c => negb (has_id k c)) (map (remove k) ds)
  = map (update el (remove k)) ds.
Proof.
  intros K E. rewrite (remove_forest_absent k ds K).
  rewrite <- (map_id ds) at 1. apply map_ext_in. intros d Hd.
  symmetry. apply update_absent. intros Hin. apply E.
  apply in_flat_map. now exists d.
Qed.

(** Removing a node that lies below [el] changes the element [el] and
    nothing else. *)
Lemma remove_below (el k : nat) (t n : node) :
  NoDup (ids t) ->
  lookup el t = Some n ->
  In k (flat_map ids (childNodes_of n)) ->
  remove k t = update el (remove k) t.
Proof.
  intros N L Hk. revert N L.
  induction t as [s|i nm a cs IH] using node_induction;
    [reflexivity|].
  cbn [lookup update remove].
  destruct (Nat.eqb_spec i el) as [->|Hne]; [reflexivity|].
  intros N L. inversion N as [|? ? Hi Ncs]; subst. f_equal.
  clear N Hi. induction cs as [|c cs IHcs]; [discriminate|].
  inversion IH as [|? ? Hc Hcs]; subst. simpl in *.
  apply NoDup_app_inv in Ncs as (N1 & N2 & D).
  destruct (lookup el c) eqn:Lc.
  - inversion L; subst n0.
    assert (Kc : In k (ids c)).
    { apply (lookup_ids el c n Lc).
      destruct n as [s|j m b ds]; [contradiction|]. now right. }
    assert (Kroot : has_id k c = false).
    { destruct c as [s|j m b ds]; [reflexivity|]. simpl.
      apply Nat.eqb_neq. intros ->.
      simpl in Lc. destruct (Nat.eqb_spec k el) as [->|Hke].
      - inversion Lc; subst n. simpl in Hk.
        inversion N1 as [|? ? Hn _]; subst. contradiction.
      - inversion N1 as [|? ? Hn _]; subst. apply Hn.
        assert (Hin : In k (ids n)).
        { destruct n as [s|j m' b' ds']; [contradiction|]. now right. }
        clear - Lc Hin. induction ds as [|d ds IHds]; [discriminate|].
        simpl in *. destruct (lookup el d) eqn:Ld.
        + inversion Lc; subst. apply in_app_iff. left.
          now apply (lookup_ids el d n).
        + apply in_app_iff. right. now apply IHds. }
    rewrite has_id_remove, Kroot. cbn [negb]. f_equal;
      [now apply (Hc N1)|].
    apply forest_untouched.
    + now apply D.
    + apply D. now apply (lookup_in el c n).
  - assert (Ec : ~ In el (ids c)) by now apply lookup_None_absent.
    assert (Kn : In k (flat_map ids cs)).
    { clear - L Hk. induction cs as [|d ds IHds]; [discriminate|].
      simpl in *. destruct (lookup el d) eqn:Ld.
      - inversion L; subst. apply in_app_iff. left.
        apply (lookup_ids el d n Ld).
        destruct n as [s|j m b es]; [contradiction|]. now right.
      - apply in_app_iff. right. now apply IHds. }
    assert (Kc : ~ In k (ids c)).
    { intros Hin. now apply (D k Hin). }
    rewrite (remove_absent k c Kc), (update_absent el _ c Ec).
    assert (Hc' : has_id k c = false).
    { destruct c as [s|j m b es]; [reflexivity|]. simpl.
      apply Nat.eqb_neq. intros ->. apply Kc. now left. }
    rewrite Hc'. simpl. f_equal. now apply IHcs.
Qed.

(** *** Steps *)

Lemma apply_steps_app (s1 s2 : list (nat * (node -> node))) (t : node) :
  apply_steps (s1 ++ s2) t = apply_steps s2 (apply_steps s1 t).
Proof. apply fold_left_app. Qed.

Lemma apply_steps_forest_app (s1 s2 : list (nat * (node -> node)))
    (f : list node) :
  apply_steps_forest (s1 ++ s2) f
  = apply_steps_forest s2 (apply_steps_forest s1 f).
Proof. apply fold_left_app. Qed.

Lemma apply_steps_absent (steps : list (nat * (node -> node))) (t : node) :
  (forall s, In s steps -> ~ In (fst s) (ids t)) ->
  apply_steps steps t = t.
Proof.
  unfold apply_steps.
  induction steps as [|s steps IH]; simpl; intros H; [reflexivity|].
  rewrite update_absent by (apply H; now left).
  apply IH. intros x Hx. apply H. now right.
Qed.

Lemma apply_steps_element (steps : list (nat * (node -> node))) (i : nat)
    (n : string) (a : attributes) (cs : list node) :
  ~ In i (map fst steps) ->
  apply_steps steps (Element i n a cs)
  = Element i n a (apply_steps_forest steps cs).
Proof.
  unfold apply_steps, apply_steps_forest. revert cs.
  induction steps as [|s steps IH]; simpl; intros cs H; [reflexivity|].
  destruct (Nat.eqb_spec i (fst s)) as [E|Hne];
    [exfalso; apply H; now left|].
  apply IH. intros Hin. apply H. now right.
Qed.

Lemma apply_steps_cons (steps : list (nat * (node -> node))) (c : node)
    (r : list node) :
  apply_steps_forest steps (c :: r)
  = apply_steps steps c :: apply_steps_forest steps r.
Proof.
  unfold apply_steps, apply_steps_forest. revert c r.
  induction steps as [|s steps IH]; simpl; intros c r; [reflexivity|].
  apply IH.
Qed.

Lemma apply_steps_forest_absent (steps : list (nat * (node -> node)))
    (f : list node) :
  (forall s, In s steps -> ~ In (fst s) (flat_map ids f)) ->
  apply_steps_forest steps f = f.
Proof.
  induction f as [|c r IH]; intros H.
  - unfold apply_steps_forest.
    induction steps as [|s steps IHs]; simpl; [reflexivity|].
    apply IHs. intros x Hx. apply H. now right.
  - rewrite apply_steps_cons. f_equal.
    + apply apply_steps_absent. intros s Hs Hin. apply (H s Hs).
      simpl. apply in_app_iff. now left.
    + apply IH. intros s Hs Hin. apply (H s Hs).
      simpl. apply in_app_iff. now right.
Qed.

Lemma show_steps_app (k : nat) (a b : list nat) :
  show_steps k (a ++ b)
  = show_steps k a ++ show_steps (k + List.length a) b.
Proof.
  revert k. induction a as [|e a IH]; simpl; intros k.
  - now rewrite Nat.add_0_r.
  - rewrite IH. do 3 f_equal. lia.
Qed.

Lemma show_steps_fst (k : nat) (els : list nat) :
  map fst (show_steps k els) = els.
Proof.
  revert k. induction els as [|e els IH]; simpl; intros k;
    [reflexivity|].
  now rewrite IH.
Qed.

Lemma hide_steps_fst (els : list nat) : map fst (hide_steps els) = els.
Proof.
  unfold hide_steps. rewrite map_map. simpl. apply map_id.
Qed.

Lemma in_steps_fst (steps : list (nat * (node -> node)))
    (s : nat * (node -> node)) :
  In s steps -> In (fst s) (map fst steps).
Proof. apply in_map. Qed.

(** The identities after the markers are attached: those before, and the
    new ones from [k] on. *)
Lemma ids_append_child (el : nat) (c t : node) :
  incl (ids (update el (append_child c) t)) (ids t ++ ids c).
Proof.
  induction t as [s|i n a cs IH] using node_induction.
  - intros x [].
  - simpl. destruct (i =? el)%nat.
    + simpl. rewrite flat_map_app. simpl. rewrite app_nil_r.
      intros x [<-|Hx]; [now left | now right].
    + simpl. rewrite flat_map_map.
      intros x [<-|Hx]; [now left|]. right.
      apply in_flat_map in Hx as (d & Hd & Hx).
      rewrite Forall_forall in IH.
      apply (IH d Hd) in Hx. apply in_app_iff in Hx as [Hx|Hx].
      * apply in_app_iff. left. apply in_flat_map. now exists d.
      * apply in_app_iff. now right.
Qed.

Lemma ids_show_steps (k : nat) (els : list nat) (t : node) (i : nat) :
  In i (ids (apply_steps (show_steps k els) t)) ->
  In i (ids t) \/ (k <= i)%nat.
Proof.
  unfold apply_steps. revert k t.
  induction els as [|e els IH]; simpl; intros k t H; [now left|].
  apply IH in H as [H|H]; [|right; lia].
  apply ids_append_child in H. apply in_app_iff in H as [H|H];
    [now left|].
  right. destruct H as [<-|[]]. lia.
Qed.

Lemma ids_show_steps_forest (k : nat) (els : list nat) (f : list node)
    (i : nat) :
  In i (flat_map ids (apply_steps_forest (show_steps k els) f)) ->
  In i (flat_map ids f) \/ (k <= i)%nat.
Proof.
  induction f as [|c r IH]; intros H.
  - rewrite apply_steps_forest_absent in H by (intros s _ []).
    now left.
  - rewrite apply_steps_cons in H. simpl in H.
    apply in_app_iff in H as [H|H].
    + apply ids_show_steps in H as [H|H]; [|now right].
      left. simpl. apply in_app_iff. now left.
    + apply IH in H as [H|H]; [|now right].
      left. simpl. apply in_app_iff. now right.
Qed.

(** A marker attached to a clean element and removed again. *)
Lemma hide_after_show (k i : nat) (n : string) (a : attributes)
    (cs : list node) :
  flat_map (matching loading_marker) cs = [] ->
  ~ In k (flat_map ids cs) ->
  hide_element (append_child (spinner k) (Element i n a cs))
  = Element i n a cs.
Proof.
  intros C K. unfold hide_element. cbn [append_child childNodes_of].
  rewrite flat_map_app, C.
  change (flat_map (matching loading_marker) [spinner k]) with [k].
  cbn [app hd_error remove]. rewrite map_app, filter_app.
  rewrite (remove_forest_absent k cs K). cbn.
  now rewrite Nat.eqb_refl, app_nil_r.
Qed.

Lemma cycle_steps_forest (cs : list node) :
  Forall
    (fun c => forall k,
         NoDup (ids c) -> below k c ->
         matching loading_marker c = [] -> flat c ->
         apply_steps
           (show_steps k (matching coin_tagged c)
            ++ hide_steps (matching coin_tagged c)) c = c) cs ->
  forall k,
    NoDup (flat_map ids cs) ->
    (forall i, In i (flat_map ids cs) -> (i < k)%nat) ->
    flat_map (matching loading_marker) cs = [] ->
    fold_right (fun c P => flat c /\ P) True cs ->
    apply_steps_forest
      (show_steps k (flat_map (matching coin_tagged) cs)
       ++ hide_steps (flat_map (matching coin_tagged) cs)) cs
    = cs.
Proof.
  induction cs as [|c r IHr]; intros IH k N B C F; [reflexivity|].
  inversion IH as [|? ? Hc Hr]; subst.
  simpl in N, C, F. destruct F as [Fc Fr].
  apply NoDup_app_inv in N as (Nc & Nr & D).
  apply app_eq_nil in C as [Cc Cr].
  cbn [flat_map].
  set (A := matching coin_tagged c).
  set (R := flat_map (matching coin_tagged) r).
  assert (HA : forall e, In e A -> In e (ids c) /\ (e < k)%nat).
  { intros e He. apply (matching_ids coin_tagged c) in He.
    split; [assumption|]. apply B. simpl. apply in_app_iff. now left. }
  assert (HR : forall e, In e R -> In e (flat_map ids r) /\ (e < k)%nat).
  { intros e He.
    assert (Hin : In e (flat_map ids r)).
    { revert He. apply incl_flat_map. intros x _. apply matching_ids. }
    split; [assumption|]. apply B. simpl. apply in_app_iff. now right. }
  rewrite show_steps_app. unfold hide_steps. rewrite map_app.
  fold (hide_steps A). fold (hide_steps R).
  rewrite apply_steps_cons. f_equal.
  - rewrite (apply_steps_app (show_steps k A ++ _)).
    rewrite (apply_steps_app (show_steps k A)).
    rewrite (apply_steps_absent (show_steps (k + List.length A) R)).
    2:{ intros s Hs Hin. apply in_steps_fst in Hs.
        rewrite show_steps_fst in Hs. destruct (HR _ Hs) as [H1 H2].
        apply ids_show_steps in Hin as [Hin|Hin]; [|lia].
        now apply (D (fst s)). }
    rewrite (apply_steps_app (hide_steps A)).
    rewrite <- (apply_steps_app (show_steps k A) (hide_steps A)).
    unfold A at 1 2. rewrite (Hc k Nc); try assumption.
    + apply apply_steps_absent. intros s Hs Hin.
      apply in_steps_fst in Hs. rewrite hide_steps_fst in Hs.
      destruct (HR _ Hs) as [H1 _]. now apply (D (fst s)).
    + intros i Hi. apply B. simpl. apply in_app_iff. now left.
  - rewrite (apply_steps_forest_app (show_steps k A ++ _)).
    rewrite (apply_steps_forest_app (show_steps k A)).
    rewrite (apply_steps_forest_absent (show_steps k A) r).
    2:{ intros s Hs Hin. apply in_steps_fst in Hs.
        rewrite show_steps_fst in Hs. destruct (HA _ Hs) as [H1 _].
        now apply (D (fst s)). }
    rewrite (apply_steps_forest_app (hide_steps A)).
    rewrite (apply_steps_forest_absent (hide_steps A)).
    2:{ intros s Hs Hin. apply in_steps_fst in Hs.
        rewrite hide_steps_fst in Hs. destruct (HA _ Hs) as [H1 H2].
        apply ids_show_steps_forest in Hin as [Hin|Hin]; [|lia].
        now apply (D (fst s)). }
    rewrite <- apply_steps_forest_app. apply IHr; try assumption.
    intros i Hi.
    assert (i < k)%nat by (apply B; simpl; apply in_app_iff; now right).
    lia.
Qed.

(** On a flat document without markers, attaching a marker to every
    tagged element and hiding the markers of the same elements gives the
    document back. *)
Lemma cycle_steps_flat (t : node) :
  forall k,
    NoDup (ids t) -> below k t ->
    matching loading_marker t = [] -> flat t ->
    apply_steps
      (show_steps k (matching coin_tagged t)
       ++ hide_steps (matching coin_tagged t)) t = t.
Proof.
  induction t as [s|i n a cs IH] using node_induction;
    intros k N B C F; [reflexivity|].
  cbn [matching] in *. apply app_eq_nil in C as [_ C].
  destruct F as [F1 F2]. inversion N as [|? ? Hi Ncs]; subst.
  assert (K : ~ In k (flat_map ids cs)).
  { intros Hin. assert (k < k)%nat; [|lia]. apply B. now right. }
  destruct (coin_tagged a).
  - rewrite (F1 eq_refl). unfold apply_steps.
    cbn [app show_steps hide_steps map fold_left fst snd update].
    rewrite Nat.eqb_refl. cbn [append_child update].
    rewrite Nat.eqb_refl.
    exact (hide_after_show k i n a cs C K).
  - cbn [app]. rewrite apply_steps_element.
    + f_equal. apply cycle_steps_forest; try assumption.
      intros j Hj. apply B. now right.
    + rewrite map_app, show_steps_fst, hide_steps_fst.
      intros Hin. apply Hi.
      assert (Hm : In i (flat_map (matching coin_tagged) cs))
        by (apply in_app_iff in Hin as [Hin|Hin]; assumption).
      revert Hm. apply incl_flat_map. intros x _. apply matching_ids.
Qed.

(** *** The page *)

Lemma showLoadingIndicators_steps (els : list nat) (st : page) :
  showLoadingIndicators els st
  = set_body (apply_steps (show_steps (next_node st) els) (body st))
      (set_next_node (next_node st + List.length els) st).
Proof.
  unfold showLoadingIndicators, apply_steps. revert st.
  induction els as [|e els IH]; intros st.
  - simpl. rewrite Nat.add_0_r. now destruct st.
  - cbn [fold_left show_steps fst snd List.length].
    unfold createElement. rewrite IH. unfold appendChild.
    cbn [body next_node set_body set_next_node with_attribute
           setAttribute String.eqb].
    unfold set_body, set_next_node. cbn. f_equal. lia.
Qed.

Lemma hide_step_update (st : page) (e : nat) :
  NoDup (ids (body st)) ->
  match querySelector e loading_marker st with
  | Some marker => remove_element marker st
  | None => st
  end
  = set_body (update e hide_element (body st)) st.
Proof.
  intros N. unfold querySelector.
  destruct (lookup e (body st)) as [n|] eqn:L.
  - destruct (hd_error (flat_map (matching loading_marker)
                          (childNodes_of n))) as [k|] eqn:H.
    + unfold remove_element. f_equal.
      rewrite (remove_below e k (body st) n N L).
      * apply (update_ext_at e _ _ (body st) n N L).
        unfold hide_element. now rewrite H.
      * assert (Hin : In k (flat_map (matching loading_marker)
                              (childNodes_of n))).
        { destruct (flat_map _ _); [discriminate|].
          inversion H. now left. }
        revert Hin. apply incl_flat_map. intros x _. apply matching_ids.
    + rewrite (update_ext_at e hide_element (fun x => x) (body st) n N L).
      * now rewrite update_id, set_body_body.
      * unfold hide_element. now rewrite H.
  - rewrite update_absent by now apply lookup_None_absent.
    now rewrite set_body_body.
Qed.

Lemma hideLoadingIndicators_steps (els : list nat) (st : page) :
  NoDup (ids (body st)) ->
  hideLoadingIndicators els st
  = set_body (apply_steps (hide_steps els) (body st)) st.
Proof.
  unfold hideLoadingIndicators, apply_steps. revert st.
  induction els as [|e els IH]; intros st N.
  - simpl. now rewrite set_body_body.
  - cbn [fold_left hide_steps map fst snd].
    rewrite (hide_step_update st e N), IH.
    + reflexivity.
    + cbn [body set_body].
      now apply (ids_update e _ (body st) prunes_hide_element).
Qed.

(** A new marker keeps the identities distinct. *)
Lemma NoDup_append_spinner (e k : nat) (t : node) :
  NoDup (ids t) -> ~ In k (ids t) ->
  NoDup (ids (update e (append_child (spinner k)) t)).
Proof.
  induction t as [s|i n a cs IH] using node_induction; [auto|].
  intros N K. cbn [update]. destruct (i =? e)%nat.
  - simpl. rewrite flat_map_app. simpl.
    simpl in N, K. inversion N as [|? ? Hi Ncs]; subst.
    constructor.
    + intros Hin. apply in_app_iff in Hin as [Hin|[Hin|[]]];
        [contradiction|]. apply K. now left.
    + apply NoDup_app; [assumption | repeat constructor; intros []|].
      intros x Hx [<-|[]]. apply K. now right.
  - simpl in *. inversion N as [|? ? Hi Ncs]; subst.
    assert (I : forall c, incl (ids (update e (append_child (spinner k)) c))
                            (ids c ++ [k])).
    { intros c. apply (ids_append_child e (spinner k) c). }
    constructor.
    + rewrite flat_map_map. intros Hin.
      apply in_flat_map in Hin as (c & Hc & Hin).
      apply I in Hin. apply in_app_iff in Hin as [Hin|[<-|[]]].
      * apply Hi. apply in_flat_map. now exists c.
      * apply K. now left.
    + assert (K' : ~ In k (flat_map ids cs)) by tauto.
      clear Hi N K. induction cs as [|c r IHr]; [constructor|].
      inversion IH as [|? ? Hc Hr]; subst. simpl in *.
      apply NoDup_app_inv in Ncs as (Nc & Nr & D).
      assert (Kc : ~ In k (ids c)).
      { intros Hin. apply K'. apply in_app_iff. now left. }
      assert (Kr : ~ In k (flat_map ids r)).
      { intros Hin. apply K'. apply in_app_iff. now right. }
      destruct (in_dec Nat.eq_dec e (ids c)) as [Ec|Ec].
      * assert (Er : map (update e (append_child (spinner k))) r = r).
        { rewrite <- (map_id r) at 2. apply map_ext_in. intros d Hd.
          apply update_absent. intros Hin. apply (D e Ec).
          apply in_flat_map. now exists d. }
        rewrite Er. apply NoDup_app; [now apply Hc | assumption|].
        intros x Hx Hx2. apply I in Hx.
        apply in_app_iff in Hx as [Hx|[<-|[]]];
          [now apply (D x) | contradiction].
      * rewrite (update_absent e _ c Ec).
        apply NoDup_app; [assumption | now apply IHr|].
        intros x Hx Hx2. rewrite flat_map_map in Hx2.
        apply in_flat_map in Hx2 as (d & Hd & Hx2).
        apply I in Hx2. apply in_app_iff in Hx2 as [Hx2|[<-|[]]].
        -- apply (D x Hx). apply in_flat_map. now exists d.
        -- contradiction.
Qed.

Lemma NoDup_show_steps (els : list nat) (k : nat) (t : node) :
  NoDup (ids t) -> below k t ->
  NoDup (ids (apply_steps (show_steps k els) t)).
Proof.
  unfold apply_steps. revert k t.
  induction els as [|e els IH]; intros k t N B; [exact N|].
  cbn [show_steps fold_left fst snd]. apply IH.
  - apply NoDup_append_spinner; [assumption|].
    intros Hin. apply B in Hin. lia.
  - intros i Hi. apply ids_append_child in Hi.
    apply in_app_iff in Hi as [Hi|[<-|[]]]; [|lia].
    apply B in Hi. lia.
Qed.

(** On a document in which no tagged element lies below another one and
    no marker is present, the markers of a cycle are all removed again, and
    the document is as it was before the cycle. *)
Lemma markers_cleared_on_flat_document (st : page) :
  NoDup (ids (body st)) ->
  below (next_node st) (body st) ->
  loading_markers st = [] ->
  flat (body st) ->
  body
    (hideLoadingIndicators (querySelectorAll coin_tagged st)
       (showLoadingIndicators (querySelectorAll coin_tagged st) st))
  = body st.
Proof.
  intros N B C F. unfold querySelectorAll.
  rewrite showLoadingIndicators_steps, hideLoadingIndicators_steps.
  - cbn [body set_body set_next_node]. rewrite <- apply_steps_app.
    now apply cycle_steps_flat.
  - cbn [body set_body set_next_node]. now apply NoDup_show_steps.
Qed.

(** X12: On a document where no tagged element lies below another one and no
    marker is present, a cycle whose fetch is rejected leaves no marker
    and adds one error banner under [document.body]. *)
Lemma rejected_cycle_on_flat_document (st : page) (err : string)
    (bi : nat) (bn : string) (ba : attributes) (bcs : list node) :
  body st = Element bi bn ba bcs ->
  pending st = [] ->
  querySelectorAll coin_tagged st <> [] ->
  NoDup (ids (body st)) ->
  below (next_node st) (body st) ->
  loading_markers st = [] ->
  flat (body st) ->
  exists banner,
    body (refresh_cycle (Rejected err) st)
    = Element bi bn ba (bcs ++ [banner])
    /\ loading_markers (refresh_cycle (Rejected err) st) = []
    /\ error_notifications (refresh_cycle (Rejected err) st)
       = error_notifications st ++ [id_of banner].
Proof.
  intros Hb Hp He N B C F.
  pose proof (markers_cleared_on_flat_document st N B C F) as M.
  unfold refresh_cycle, updatePrices.
  destruct (querySelectorAll coin_tagged st) as [|e els] eqn:E;
    [contradiction|].
  set (els' := e :: els) in *.
  unfold fetchCoinPrices, settle. cbn [pending set_pending].
  destruct (showLoadingIndicators_frame els' st) as (P & _).
  rewrite P, Hp. cbn [app priceElements]. unfold updatePrices_catch.
  set (s1 := set_console _ _).
  assert (B1 : body s1 = body (showLoadingIndicators els' st))
    by reflexivity.
  assert (H : body (hideLoadingIndicators els' s1) = body st).
  { rewrite hideLoadingIndicators_steps.
    - cbn [body set_body]. rewrite B1, <- M.
      rewrite hideLoadingIndicators_steps; [reflexivity|].
      rewrite showLoadingIndicators_steps. cbn [body set_body].
      now apply NoDup_show_steps.
    - rewrite B1, showLoadingIndicators_steps. cbn [body set_body].
      now apply NoDup_show_steps. }
  unfold showNotification, createElement, setTimeout, set_timer.
  cbn [snd body set_body set_timers set_next_node next_node].
  rewrite H, Hb. cbn [append_child with_attribute id_of].
  eexists. split; [reflexivity|].
  unfold loading_markers, error_notifications, querySelectorAll in *.
  cbn [body set_body set_timers]. rewrite Hb in *. cbn [matching] in *.
  rewrite !flat_map_app. split.
  - apply app_eq_nil in C as [C1 C2]. rewrite C1, C2. reflexivity.
  - rewrite app_assoc. f_equal.
Qed.

(** C1, at a tagged card that holds a tagged cell: the cycle puts a marker
    on the card and one on the cell; after the rejection the marker of the
    cell is gone, the marker of the card is still a child of the card,
    and one error notification is in the document. On the flat table of
    price cells no marker stays. *)
Theorem rejected_cycle_marker_left_in_nested_card :
  let st := refresh_cycle (Rejected "offline") nested_card in
  loading_markers nested_card = []
  /\ loading_markers (updatePrices nested_card) = [5; 4]
  /\ loading_markers st = [4]
  /\ parentNode 4 (body st) = Some 2
  /\ error_notifications st = [6]
  /\ loading_markers (refresh_cycle (Rejected "offline") price_table) = []
  /\ error_notifications (refresh_cycle (Rejected "offline") price_table)
     = [7].
Proof. vm_compute. repeat split. Qed.

(** ** The Ticker *)

(** Closes the goals of a step that leaves the Ticker alone. *)
Ltac unchanged := repeat split; try apply le_n.

Lemma keeps_ticker_id : keeps_ticker (fun st => st).
Proof. intros st. unchanged. Qed.

Lemma keeps_ticker_compose (f g : page -> page) :
  keeps_ticker f -> keeps_ticker g -> keeps_ticker (fun st => g (f st)).
Proof.
  intros F G st. destruct (F st) as (F1 & F2 & F3 & F4 & F5).
  destruct (G (f st)) as (G1 & G2 & G3 & G4 & G5).
  repeat split; try congruence. lia.
Qed.

Lemma keeps_ticker_fold {A} (f : page -> A -> page) (l : list A) :
  (forall x, keeps_ticker (fun st => f st x)) ->
  keeps_ticker (fun st => fold_left f l st).
Proof.
  intros H. induction l as [|x l IH]; simpl; [apply keeps_ticker_id|].
  exact (keeps_ticker_compose (fun st => f st x) _ (H x) IH).
Qed.

Lemma keeps_ticker_showLoadingIndicators (els : list nat) :
  keeps_ticker (showLoadingIndicators els).
Proof.
  apply keeps_ticker_fold. intros el st. unchanged.
Qed.

Lemma keeps_ticker_hideLoadingIndicators (els : list nat) :
  keeps_ticker (hideLoadingIndicators els).
Proof.
  apply keeps_ticker_fold. intros el st.
  destruct (querySelector el loading_marker st); unchanged.
Qed.

Lemma keeps_ticker_updatePriceElement (ps : prices) (el : nat) :
  keeps_ticker (fun st => updatePriceElement ps st el).
Proof.
  intros st. unfold updatePriceElement.
  destruct (dataset_coinId el st); [|unchanged].
  destruct (quote_of ps s); [|unchanged].
  destruct (classList_contains el "price-display" st);
    match goal with
    | |- context [if classList_contains el "change-display" ?s then _ else _]
      => destruct (classList_contains el "change-display" s)
    end; unchanged.
Qed.

Lemma keeps_ticker_updatePriceElements (ps : prices) :
  keeps_ticker (updatePriceElements ps).
Proof.
  intros st. unfold updatePriceElements.
  apply (keeps_ticker_fold (updatePriceElement ps)).
  apply keeps_ticker_updatePriceElement.
Qed.

Lemma price_intervals_app (st : page) (ts : list timer) (n : nat) :
  price_intervals (set_timers (timers st ++ ts) n st)
  = price_intervals st
    ++ map handle
         (filter
            (fun t => repeating t
                      && match action t with
                         | UpdatePrices => true
                         | _ => false
                         end) ts).
Proof.
  unfold price_intervals. simpl. now rewrite filter_app, map_app.
Qed.

Lemma keeps_ticker_showNotification (message : string)
    (type : option string) (duration : option Z) :
  keeps_ticker (showNotification message type duration).
Proof.
  intros st. unfold showNotification, setTimeout, set_timer. cbn.
  repeat split; [|lia]. unfold price_intervals. cbn.
  rewrite filter_app, map_app. simpl. now rewrite app_nil_r.
Qed.

Lemma keeps_ticker_updatePrices : keeps_ticker updatePrices.
Proof.
  intros st. unfold updatePrices.
  destruct (querySelectorAll coin_tagged st) as [|e els]; [unchanged|].
  unfold fetchCoinPrices.
  destruct (keeps_ticker_showLoadingIndicators (e :: els) st)
    as (H1 & H2 & H3 & H4 & H5).
  unchanged; assumption.
Qed.

Lemma keeps_ticker_settle (o : outcome) : keeps_ticker (settle o).
Proof.
  intros st. unfold settle. destruct (pending st) as [|r rest];
    [unchanged|].
  destruct o as [ps|e].
  - unfold updatePrices_then.
    destruct (keeps_ticker_updatePriceElements ps (set_pending rest st))
      as (A1 & A2 & A3 & A4 & A5).
    destruct (keeps_ticker_hideLoadingIndicators (priceElements r)
                (updatePriceElements ps (set_pending rest st)))
      as (B1 & B2 & B3 & B4 & B5).
    repeat split;
      [exact (eq_trans B1 A1) | exact (eq_trans B2 A2)
       | exact (eq_trans B3 A3) | exact (eq_trans B4 A4)
       | exact (Nat.le_trans _ _ _ A5 B5)].
  - unfold updatePrices_catch.
    set (s1 := set_console _ _).
    destruct (keeps_ticker_hideLoadingIndicators (priceElements r) s1)
      as (B1 & B2 & B3 & B4 & B5).
    destruct (keeps_ticker_showNotification "Failed to update prices"
                (Some "error") None
                (hideLoadingIndicators (priceElements r) s1))
      as (C1 & C2 & C3 & C4 & C5).
    repeat split;
      [exact (eq_trans C1 B1) | exact (eq_trans C2 B2)
       | exact (eq_trans C3 B3) | exact (eq_trans C4 B4)
       | exact (Nat.le_trans _ _ _ B5 C5)].
Qed.

Lemma keeps_ticker_refreshPrices : keeps_ticker refreshPrices.
Proof.
  apply (keeps_ticker_compose
           (showNotification "Refreshing prices..." (Some "info")
              (Some 1000%Z)) updatePrices).
  - apply keeps_ticker_showNotification.
  - apply keeps_ticker_updatePrices.
Qed.

Lemma keeps_ticker_on_online : keeps_ticker on_online.
Proof.
  apply (keeps_ticker_compose
           (showNotification "Connection restored" (Some "success") None)
           updatePrices).
  - apply keeps_ticker_showNotification.
  - apply keeps_ticker_updatePrices.
Qed.

Lemma keeps_ticker_on_offline : keeps_ticker on_offline.
Proof. apply keeps_ticker_showNotification. Qed.

Lemma price_intervals_clearInterval (h : nat) (st : page) :
  price_intervals (clearInterval h st)
  = filter (fun i => negb (i =? h)%nat) (price_intervals st).
Proof.
  unfold price_intervals, clearInterval. simpl.
  induction (timers st) as [|t ts IH]; simpl; [reflexivity|].
  destruct (handle t =? h)%nat eqn:E; simpl.
  - destruct (repeating t && _); simpl; [now rewrite E|]; assumption.
  - destruct (repeating t && _); simpl; [rewrite E; simpl|];
      now rewrite IH.
Qed.

(** X8: On a route outside the allow-list no price-update interval is ever
    active, whatever happens to the page. *)
Lemma no_interval_off_route (es : list event) (st : page) :
  allowed_route (pathname st) = false ->
  price_intervals st = [] ->
  price_intervals (run_events es st) = [].
Proof.
  unfold run_events. revert st.
  induction es as [|e es IH]; intros st R H; simpl; [assumption|].
  assert (K : forall f, keeps_ticker f ->
              allowed_route (pathname (f st)) = false
              /\ price_intervals (f st) = []).
  { intros f F. destruct (F st) as (F1 & F2 & _). now rewrite F1, F2. }
  assert (S : startPriceUpdates st = st).
  { unfold startPriceUpdates. unfold allowed_route in R. now rewrite R. }
  assert (C : forall s, pathname s = pathname st ->
              price_intervals s = [] ->
              allowed_route (pathname (clear_priceUpdateInterval s)) = false
              /\ price_intervals (clear_priceUpdateInterval s) = []).
  { intros s Hp Hi. unfold clear_priceUpdateInterval.
    destruct (priceUpdateInterval s) as [[|h]|]; rewrite ?Hp; auto.
    rewrite price_intervals_clearInterval, Hi. simpl. now rewrite Hp. }
  assert (G : allowed_route (pathname (step st e)) = false
              /\ price_intervals (step st e) = []).
  { destruct e as [|h| | |h|o| | |]; simpl.
    - unfold on_DOMContentLoaded.
      assert (W : allowed_route (pathname (showWelcomeMessage st)) = false
                  /\ price_intervals (showWelcomeMessage st) = []).
      { unfold showWelcomeMessage.
        destruct (negb (visited st) && (pathname st =? "/")%string);
          [|auto].
        unfold setTimeout, set_timer. cbn [snd].
        rewrite price_intervals_app, H. simpl. auto. }
      destruct W as [W1 W2]. unfold startPriceUpdates.
      unfold allowed_route in W1. now rewrite W1.
    - unfold on_visibilitychange. cbn [hidden set_hidden].
      destruct h.
      + now apply C.
      + unfold startPriceUpdates. cbn [pathname set_hidden].
        unfold allowed_route in R. rewrite R. auto.
    - now apply C.
    - now rewrite S.
    - unfold fire.
      destruct (find (fun t => (handle t =? h)%nat) (timers st)) as [t|];
        [|auto].
      set (s := if repeating t then st else clearInterval h st).
      assert (Hs : pathname s = pathname st /\ price_intervals s = []).
      { subst s. destruct (repeating t); [auto|].
        rewrite price_intervals_clearInterval, H. auto. }
      destruct Hs as [Hs1 Hs2].
      destruct (action t) as [|n|]; simpl.
      + destruct (keeps_ticker_updatePrices s) as (A1 & A2 & _).
        now rewrite A1, A2, Hs1.
      + unfold remove_notification.
        destruct (parentNode n (body s)); simpl; now rewrite Hs1.
      + destruct (keeps_ticker_showNotification "Welcome to CryptoDash! 🚀"
                    (Some "success") (Some 5000%Z) s) as (A1 & A2 & _).
        split; [|exact (eq_trans A2 Hs2)].
        change (allowed_route
                  (pathname
                     (showNotification "Welcome to CryptoDash! 🚀"
                        (Some "success") (Some 5000%Z) s)) = false).
        now rewrite A1, Hs1.
    - exact (K (settle o) (keeps_ticker_settle o)).
    - exact (K refreshPrices keeps_ticker_refreshPrices).
    - exact (K on_online keeps_ticker_on_online).
    - exact (K on_offline keeps_ticker_on_offline). }
  destruct G as [G1 G2]. now apply IH.
Qed.

Lemma single_interval_kept (f : page -> page) (st : page) :
  keeps_ticker f -> single_interval st -> single_interval (f st).
Proof.
  intros K [T J]. destruct (K st) as (_ & K2 & K3 & K4 & K5).
  split; [lia|]. rewrite K2, K3, K4. exact J.
Qed.

Lemma single_interval_cleared (st : page) :
  price_intervals st = []
  \/ (exists h, price_intervals st = [S h]
                /\ priceUpdateInterval st = Some (S h)) ->
  price_intervals (clear_priceUpdateInterval st) = []
  /\ next_timer (clear_priceUpdateInterval st) = next_timer st.
Proof.
  intros [J|(h & J1 & J2)]; unfold clear_priceUpdateInterval.
  - destruct (priceUpdateInterval st) as [[|h]|]; auto.
    rewrite price_intervals_clearInterval, J. auto.
  - rewrite J2, price_intervals_clearInterval, J1. simpl.
    rewrite Nat.eqb_refl. auto.
Qed.

Lemma single_interval_timer_gone (h : nat) (st : page) :
  single_interval st -> single_interval (clearInterval h st).
Proof.
  intros [T J]. split; [exact T|].
  rewrite price_intervals_clearInterval.
  destruct J as [J|(H & i & J1 & J2)]; [rewrite J; now left|].
  rewrite J1. cbn [filter]. destruct (S i =? h)%nat; cbn [negb].
  - now left.
  - right. split; [assumption|]. now exists i.
Qed.

Lemma single_interval_started (st : page) :
  (1 <= next_timer st)%nat ->
  price_intervals st = [] ->
  hidden st = false ->
  single_interval (startPriceUpdates st).
Proof.
  intros T J H. unfold startPriceUpdates.
  destruct (includes (pathname st) "/dashboard"
            || includes (pathname st) "/portfolio").
  - unfold setInterval, set_timer. split; [cbn; lia|]. right.
    split; [exact H|].
    destruct (next_timer st) as [|k] eqn:E; [lia|]. exists k.
    rewrite <- E. cbn [priceUpdateInterval set_priceUpdateInterval].
    split; [|reflexivity].
    change (price_intervals
              (set_timers
                 (timers st
                  ++ [{| handle := next_timer st; repeating := true;
                         delay := 30000; action := UpdatePrices |}])
                 (S (next_timer st)) st) = [next_timer st]).
    now rewrite price_intervals_app, J.
  - split; [exact T | now left].
Qed.

Lemma single_interval_step (st : page) (e : event) :
  single_interval st ->
  alternates (hidden st) [e] = true ->
  single_interval (step st e).
Proof.
  intros J A.
  destruct e as [|h| | |h|o| | |]; simpl in *; try discriminate.
  - (* visibility change *)
    rewrite andb_true_r in A. apply negb_true_iff in A.
    unfold on_visibilitychange. cbn [hidden set_hidden]. destruct h.
    + destruct J as [T J].
      destruct (single_interval_cleared (set_hidden true st)) as (C1 & C2).
      { destruct J as [J|(_ & i & J)]; [now left | right; now exists i]. }
      split; [rewrite C2; exact T | now left].
    + destruct (hidden st) eqn:H; [|discriminate].
      destruct J as [T [J|(H' & _)]]; [|rewrite H in H'; discriminate].
      now apply single_interval_started.
  - (* unload *)
    destruct J as [T J].
    destruct (single_interval_cleared st) as (C1 & C2).
    { destruct J as [J|(_ & i & J)]; [now left | right; now exists i]. }
    split; [unfold on_beforeunload; lia | now left].
  - (* a timer fires *)
    unfold fire.
    destruct (find (fun t => (handle t =? h)%nat) (timers st)) as [t|];
      [|exact J].
    assert (J' : single_interval
                   (if repeating t then st else clearInterval h st)).
    { destruct (repeating t); [exact J|].
      now apply single_interval_timer_gone. }
    destruct (action t) as [|n|]; simpl.
    + apply (single_interval_kept updatePrices);
        [apply keeps_ticker_updatePrices | exact J'].
    + apply (single_interval_kept (remove_notification n)); [|exact J'].
      intros s. unfold remove_notification.
      destruct (parentNode n (body s)); unchanged.
    + apply (single_interval_kept
               (fun s => set_visited true
                           (showNotification "Welcome to CryptoDash! 🚀"
                              (Some "success") (Some 5000%Z) s)));
        [|exact J'].
      apply (keeps_ticker_compose
               (showNotification "Welcome to CryptoDash! 🚀"
                  (Some "success") (Some 5000%Z)) (set_visited true)).
      * apply keeps_ticker_showNotification.
      * intros s. unchanged.
  - apply (single_interval_kept (settle o));
      [apply keeps_ticker_settle | exact J].
  - apply (single_interval_kept refreshPrices);
      [apply keeps_ticker_refreshPrices | exact J].
  - apply (single_interval_kept on_online);
      [apply keeps_ticker_on_online | exact J].
  - apply (single_interval_kept on_offline);
      [apply keeps_ticker_on_offline | exact J].
Qed.

Lemma hidden_step (st : page) (e : event) :
  alternates (hidden st) [e] = true ->
  hidden (step st e)
  = match e with VisibilityChange h => h | _ => hidden st end.
Proof.
  destruct e as [|h| | |h|o| | |]; simpl; try discriminate; intros _.
  - unfold on_visibilitychange. cbn [hidden set_hidden]. destruct h.
    + unfold clear_priceUpdateInterval.
      now destruct (priceUpdateInterval _) as [[|]|].
    + unfold startPriceUpdates. cbn [pathname set_hidden].
      now destruct (includes (pathname st) "/dashboard"
                    || includes (pathname st) "/portfolio").
  - unfold on_beforeunload, clear_priceUpdateInterval.
    now destruct (priceUpdateInterval _) as [[|]|].
  - unfold fire.
    destruct (find (fun t => (handle t =? h)%nat) (timers st)) as [t|];
      [|reflexivity].
    assert (H : hidden (if repeating t then st else clearInterval h st)
                = hidden st) by now destruct (repeating t).
    rewrite <- H. destruct (action t) as [|n|]; simpl.
    + apply keeps_ticker_updatePrices.
    + unfold remove_notification.
      now destruct (parentNode n (body _)).
    + apply (keeps_ticker_showNotification "Welcome to CryptoDash! 🚀"
               (Some "success") (Some 5000%Z)).
  - apply (keeps_ticker_settle o).
  - apply keeps_ticker_refreshPrices.
  - apply keeps_ticker_on_online.
  - apply (keeps_ticker_on_offline st).
Qed.

(** As long as the visibility changes alternate and [startPriceUpdates]
    runs only from the visibility listener, at most one price-update
    interval is active, and none on a hidden page. *)
Lemma single_interval_run (es : list event) (st : page) :
  single_interval st ->
  alternates (hidden st) es = true ->
  single_interval (run_events es st).
Proof.
  unfold run_events. revert st.
  induction es as [|e es IH]; intros st J A; [exact J|].
  assert (A1 : alternates (hidden st) [e] = true).
  { destruct e; simpl in *; try discriminate; try reflexivity.
    apply andb_true_iff in A as [A _]. now rewrite A. }
  simpl. apply IH; [now apply single_interval_step|].
  rewrite (hidden_step st e A1).
  destruct e; simpl in *; try discriminate; try assumption.
  now apply andb_true_iff in A as [_ A].
Qed.

(** A page that is visible when it loads has at most one price-update
    interval for as long as its visibility changes alternate and
    [startPriceUpdates] runs only from the listeners. *)
Lemma single_interval_visible_load (b : node) (fresh : nat) (path : string)
    (es : list event) :
  alternates false es = true ->
  (List.length
     (price_intervals
        (run_events (DOMContentLoaded :: es) (load b fresh path false)))
   <= 1)%nat.
Proof.
  intros A.
  assert (J : single_interval
                (step (load b fresh path false) DOMContentLoaded)).
  { cbn [step]. unfold on_DOMContentLoaded.
    apply single_interval_started.
    - unfold showWelcomeMessage.
      destruct (negb _ && _); cbn; lia.
    - unfold showWelcomeMessage. destruct (negb _ && _); reflexivity.
    - unfold showWelcomeMessage. destruct (negb _ && _); reflexivity. }
  assert (H : hidden (step (load b fresh path false) DOMContentLoaded)
              = false).
  { cbn [step]. unfold on_DOMContentLoaded, startPriceUpdates.
    destruct (includes _ _ || includes _ _);
      unfold showWelcomeMessage; destruct (negb _ && _); reflexivity. }
  change (run_events (DOMContentLoaded :: es) (load b fresh path false))
    with (run_events es (step (load b fresh path false) DOMContentLoaded)).
  rewrite <- H in A.
  destruct (single_interval_run es _ J A) as [_ [R|(_ & h & R & _)]];
    rewrite R; simpl; lia.
Qed.

(** C2, at the dashboard opened in a background tab and then shown:
    [startPriceUpdates] runs at [DOMContentLoaded] and again at the
    visibility change, and two price-update intervals are active, of which
    the global holds the second; two calls of [startPriceUpdates] in a row
    do the same. *)
Theorem startPriceUpdates_twice_two_intervals :
  price_intervals
    (run_events [DOMContentLoaded; VisibilityChange false] background_tab)
  = [1; 2]
  /\ priceUpdateInterval
       (run_events [DOMContentLoaded; VisibilityChange false] background_tab)
     = Some 2
  /\ price_intervals (run_events [Start; Start] price_table) = [1; 2].
Proof. vm_compute. repeat split. Qed.

(** C7, at the dashboard opened in a background tab, shown and hidden
    again: the listener clears the interval the global holds, the first
    interval stays active on the hidden page, and when it fires a fetch is
    started. *)
Theorem hidden_page_still_ticks :
  let st :=
    run_events
      [DOMContentLoaded; VisibilityChange false; VisibilityChange true]
      background_tab in
  hidden st = true
  /\ price_intervals st = [1]
  /\ map coinIds (pending (run_events [Fire 1] st))
     = [["bitcoin"; "ethereum"]].
Proof. vm_compute. repeat split. Qed.


(** ** Number fields *)

Lemma text_chars (s : string) : text (chars s) = s.
Proof. apply string_of_list_ascii_of_string. Qed.

Lemma split_at_points_cons (l : list ascii) :
  split_at_points l
  = before_point l
    :: match after_point l with
       | Some r => split_at_points r
       | None => []
       end.
Proof.
  induction l as [|c l IH]; [reflexivity|].
  simpl. destruct (is_point c); [reflexivity|]. now rewrite IH.
Qed.

Lemma concat_split_at_points (l : list ascii) :
  List.concat (split_at_points l) = filter (fun c => negb (is_point c)) l.
Proof.
  induction l as [|c l IH]; [reflexivity|].
  simpl. destruct (is_point c); simpl; [assumption|].
  rewrite <- IH. now destruct (split_at_points l).
Qed.

Lemma before_point_no_point (l : list ascii) :
  after_point l = None -> before_point l = l.
Proof.
  induction l as [|c l IH]; [reflexivity|].
  simpl. destruct (is_point c); [discriminate|].
  intros H. now rewrite IH.
Qed.

Lemma after_point_None (l : list ascii) :
  after_point l = None <-> filter is_point l = [].
Proof.
  induction l as [|c l IH]; simpl; [tauto|].
  destruct (is_point c); [split; discriminate | exact IH].
Qed.

Lemma filter_no_point (l : list ascii) :
  filter is_point l = [] -> filter (fun c => negb (is_point c)) l = l.
Proof.
  induction l as [|c l IH]; simpl; [reflexivity|].
  destruct (is_point c); simpl; [discriminate|].
  intros H. now rewrite IH.
Qed.

Lemma before_after_point (l r : list ascii) :
  after_point l = Some r -> l = before_point l ++ "."%char :: r.
Proof.
  revert r. induction l as [|c l IH]; simpl; intros r; [discriminate|].
  unfold is_point. destruct (Ascii.eqb_spec c ".") as [->|Hne].
  - intros H. now inversion H.
  - intros H. simpl. f_equal. now apply IH.
Qed.

Lemma points_after (l r : list ascii) :
  after_point l = Some r ->
  List.length (filter is_point l) = S (List.length (filter is_point r)).
Proof.
  revert r. induction l as [|c l IH]; simpl; intros r; [discriminate|].
  destruct (is_point c); simpl.
  - intros H. now inversion H.
  - apply IH.
Qed.

(** The value [formatNumberInput] writes, for the characters that are left
    of the old one: what is before the first point, and after the point
    the rest without its points. *)
Lemma one_point_kept (l : list ascii) :
  (if (2 <? List.length (split_at_points l))%nat
   then hd [] (split_at_points l)
        ++ "."%char :: List.concat (tl (split_at_points l))
   else l)
  = match after_point l with
    | Some r =>
        before_point l ++ "."%char :: filter (fun c => negb (is_point c)) r
    | None => l
    end.
Proof.
  rewrite (split_at_points_cons l).
  destruct (after_point l) as [r|] eqn:A; [|reflexivity].
  cbn [hd tl List.length]. rewrite concat_split_at_points.
  rewrite (split_at_points_cons r).
  destruct (after_point r) as [r'|] eqn:A'; cbn [List.length].
  - rewrite (split_at_points_cons r'). reflexivity.
  - change (2 <? 2)%nat with false. cbv iota.
    apply after_point_None in A'. rewrite (filter_no_point r A').
    now apply before_after_point.
Qed.

Lemma is_digit_not_point (c : ascii) : is_digit c = true -> is_point c = false.
Proof.
  unfold is_digit, is_point. intros H.
  destruct (Ascii.eqb_spec c ".") as [->|]; [discriminate | reflexivity].
Qed.

Lemma before_point_filter (l : list ascii) :
  before_point (filter digit_or_point l) = filter is_digit (before_point l).
Proof.
  induction l as [|c l IH]; [reflexivity|].
  unfold digit_or_point in *. simpl.
  destruct (is_point c) eqn:P.
  - rewrite orb_true_r. simpl. now rewrite P.
  - rewrite orb_false_r. simpl. destruct (is_digit c) eqn:D; simpl.
    + rewrite P. now rewrite IH.
    + exact IH.
Qed.

Lemma after_point_filter (l : list ascii) :
  after_point (filter digit_or_point l)
  = option_map (filter digit_or_point) (after_point l).
Proof.
  induction l as [|c l IH]; [reflexivity|].
  unfold digit_or_point in *. simpl.
  destruct (is_point c) eqn:P.
  - rewrite orb_true_r. simpl. now rewrite P.
  - rewrite orb_false_r. destruct (is_digit c) eqn:D; simpl.
    + now rewrite P.
    + exact IH.
Qed.

Lemma filter_digits_only (l : list ascii) :
  filter (fun c => negb (is_point c)) (filter digit_or_point l)
  = filter is_digit l.
Proof.
  induction l as [|c l IH]; [reflexivity|].
  unfold digit_or_point in *. simpl.
  destruct (is_digit c) eqn:D; simpl.
  - rewrite (is_digit_not_point c D). simpl. now rewrite IH.
  - destruct (is_point c) eqn:P; simpl; [rewrite P; simpl|]; exact IH.
Qed.

Lemma formatNumberInput_chars (input : input_element) :
  chars (value (formatNumberInput input))
  = match after_point (chars (value input)) with
    | Some r =>
        filter is_digit (before_point (chars (value input)))
        ++ "."%char :: filter is_digit r
    | None => filter is_digit (chars (value input))
    end.
Proof.
  unfold formatNumberInput. cbn [value]. rewrite chars_text, one_point_kept.
  rewrite after_point_filter, before_point_filter.
  destruct (after_point (chars (value input))) as [r|] eqn:A; cbn [option_map].
  - now rewrite filter_digits_only.
  - apply after_point_None in A.
    induction (chars (value input)) as [|c l IH]; [reflexivity|].
    unfold digit_or_point in *. simpl in *.
    destruct (is_point c); [discriminate|]. rewrite orb_false_r.
    destruct (is_digit c); [f_equal|]; now apply IH.
Qed.

(** X1: [formatNumberInput] keeps the digits of the value in their order
    and, of its decimal points, the first one at its place among the
    digits; every other character is dropped. *)
Theorem formatNumberInput_first_point (input : input_element) :
  value (formatNumberInput input)
  = text
      (match after_point (chars (value input)) with
       | Some r =>
           filter is_digit (before_point (chars (value input)))
           ++ "."%char :: filter is_digit r
       | None => filter is_digit (chars (value input))
       end).
Proof.
  unfold formatNumberInput. cbn [value]. f_equal.
  rewrite one_point_kept, after_point_filter, before_point_filter.
  destruct (after_point (chars (value input))) as [r|] eqn:A;
    cbn [option_map].
  - now rewrite filter_digits_only.
  - apply after_point_None in A.
    induction (chars (value input)) as [|c l IH]; [reflexivity|].
    unfold digit_or_point in *. simpl in *.
    destruct (is_point c); [discriminate|]. rewrite orb_false_r.
    destruct (is_digit c); [f_equal|]; now apply IH.
Qed.

Lemma filter_digit_points (l : list ascii) :
  filter is_point (filter is_digit l) = [].
Proof.
  induction l as [|c l IH]; [reflexivity|].
  simpl. destruct (is_digit c) eqn:D; [|exact IH].
  simpl. now rewrite (is_digit_not_point c D).
Qed.

Lemma forallb_filter_digit (l : list ascii) :
  forallb digit_or_point (filter is_digit l) = true.
Proof.
  apply forallb_forall. intros c Hc. apply filter_In in Hc as [_ D].
  unfold digit_or_point. now rewrite D.
Qed.

Lemma formatNumberInput_well_formed (input : input_element) :
  well_formed (value (formatNumberInput input)) = true.
Proof.
  unfold well_formed. rewrite formatNumberInput_chars.
  destruct (after_point (chars (value input))) as [r|].
  - rewrite forallb_app, filter_app. cbn [forallb filter].
    rewrite !forallb_filter_digit, !filter_digit_points. reflexivity.
  - now rewrite forallb_filter_digit, filter_digit_points.
Qed.

(** X2: The value [formatNumberInput] leaves in a field consists of digits
    and at most one decimal point, and has the digits of the old value:
    no sign, exponent, separator or second point gets through. *)
Theorem formatNumberInput_digits_and_one_point (input : input_element) :
  let v := chars (value (formatNumberInput input)) in
  forallb digit_or_point v = true
  /\ (List.length (filter is_point v) <= 1)%nat
  /\ filter is_digit v = filter is_digit (chars (value input)).
Proof.
  cbv zeta. pose proof (formatNumberInput_well_formed input) as W.
  unfold well_formed in W. apply andb_true_iff in W as [W1 W2].
  apply Nat.leb_le in W2. repeat split; [assumption..|].
  rewrite formatNumberInput_chars.
  assert (I : forall l, filter is_digit (filter is_digit l)
                        = filter is_digit l).
  { intros l. induction l as [|c l IH]; [reflexivity|].
    simpl. destruct (is_digit c) eqn:D; simpl; [rewrite D; f_equal|];
      exact IH. }
  destruct (after_point (chars (value input))) as [r|] eqn:A; [|apply I].
  rewrite (before_after_point _ _ A) at 2.
  rewrite !filter_app. cbn [filter].
  change (is_digit ".") with false. cbv iota. now rewrite !I.
Qed.

Lemma well_formed_fixed (input : input_element) :
  well_formed (value input) = true -> formatNumberInput input = input.
Proof.
  unfold well_formed. intros W. apply andb_true_iff in W as [W1 W2].
  apply Nat.leb_le in W2.
  assert (F : forall l, forallb digit_or_point l = true ->
                filter digit_or_point l = l).
  { intros l. induction l as [|c l IH]; [reflexivity|].
    simpl. intros H. apply andb_true_iff in H as [-> H]. now rewrite IH. }
  destruct input as [v]. unfold formatNumberInput. cbn [value] in *.
  f_equal. rewrite (F _ W1), one_point_kept.
  destruct (after_point (chars v)) as [r|] eqn:A; [|apply text_chars].
  rewrite (points_after _ _ A) in W2.
  assert (R : filter is_point r = [])
    by (destruct (filter is_point r); [reflexivity | simpl in W2; lia]).
  rewrite (filter_no_point r R), <- (before_after_point _ _ A).
  apply text_chars.
Qed.

(** X3: The values [formatNumberInput] leaves as they are are exactly those
    that consist of digits with at most one decimal point; what it writes
    is such a value, so formatting a field a second time changes
    nothing. *)
Theorem formatNumberInput_fixed_points (input : input_element) :
  (formatNumberInput input = input <-> well_formed (value input) = true)
  /\ formatNumberInput (formatNumberInput input) = formatNumberInput input.
Proof.
  split; [split|].
  - intros E. rewrite <- E. apply formatNumberInput_well_formed.
  - apply well_formed_fixed.
  - apply well_formed_fixed, formatNumberInput_well_formed.
Qed.

(** What the formatting does to some typed values. *)
Lemma formatNumberInput_examples :
  map (fun v => value (formatNumberInput {| value := v |}))
    ["1.2.3"; "-5"; "1e5"; "1,234.5"; ".5."; "abc"; ""]
  = ["1.23"; "5"; "15"; "1234.5"; ".5"; ""; ""].
Proof. reflexivity. Qed.

(** ** [debounce] and [throttle] *)

Lemma subsequence_skip_last {A : Type} (l pre : list A) (a : A) :
  subsequence l pre -> subsequence l (pre ++ [a]).
Proof.
  induction 1 as [|x l1 l2 _ IH|x l1 l2 _ IH]; simpl.
  - apply subsequence_skip, subsequence_nil.
  - now apply subsequence_skip.
  - now apply subsequence_take.
Qed.

Lemma subsequence_take_last {A : Type} (l pre : list A) (a : A) :
  subsequence l pre -> subsequence (l ++ [a]) (pre ++ [a]).
Proof.
  induction 1 as [|x l1 l2 _ IH|x l1 l2 _ IH]; simpl.
  - apply subsequence_take, subsequence_nil.
  - now apply subsequence_skip.
  - now apply subsequence_take.
Qed.

Lemma calls_app {A : Type} (es fs : list (closure_event A)) :
  calls (es ++ fs) = calls es ++ calls fs.
Proof. apply flat_map_app. Qed.

Lemma expiries_app {A : Type} (es fs : list (closure_event A)) :
  expiries (es ++ fs) = expiries es + expiries fs.
Proof. unfold expiries. now rewrite filter_app, length_app. Qed.

Lemma invoked_last {A W : Type} (func : A -> W -> W) (l : list A) (a : A)
    (w : W) :
  invoked func (l ++ [a]) w = func a (invoked func l w).
Proof. unfold invoked. now rewrite fold_left_app. Qed.

Section debounce_facts.
Context {A W : Type}.
Variable func : A -> W -> W.
Variable wait : Z.

(** What holds of a debounced function after the events [es], from the
    world [w]: no timeout is left and [func] has run on some of the calls,
    or one timeout is left, for the last call, and [func] has run on some
    of the calls before it. *)
Lemma debounce_state (es : list (closure_event A)) (n : nat) (w : W) :
  let st := Debounce.run func wait es (Debounce.debounce n w) in
  exists l,
    Debounce.world st = invoked func l w
    /\ (List.length l <= expiries es)%nat
    /\ ((Debounce.timeouts st = [] /\ subsequence l (calls es))
        \/ exists h a pre,
             Debounce.timeouts st
             = [{| Debounce.handle := h; Debounce.delay := wait;
                   Debounce.args := a |}]
             /\ Debounce.timeout st = Some h
             /\ calls es = pre ++ [a]
             /\ subsequence l pre).
Proof.
  cbv zeta. induction es as [|e es IH] using rev_ind.
  - exists []. repeat split; [apply le_n|]. left. split; [reflexivity|].
    apply subsequence_nil.
  - unfold Debounce.run in *. rewrite fold_left_app. cbn [fold_left].
    destruct IH as (l & Hw & Hl & Hs).
    set (st := fold_left _ es _) in *.
    rewrite calls_app, expiries_app.
    destruct e as [b|h']; cbn [Debounce.step calls expiries flat_map filter
                                 List.length app].
    + (* a call: the timeout that is left is cleared, a new one is set *)
      exists l. split; [exact Hw|]. split; [lia|]. right.
      exists (Debounce.next_handle st), b, (calls es).
      unfold Debounce.executedFunction.
      cbn [Debounce.timeouts Debounce.timeout]. rewrite ?app_nil_r.
      repeat split.
      * destruct Hs as [[T _]|(h & a & pre & T & Ht & _)]; rewrite T.
        -- now destruct (Debounce.timeout st).
        -- rewrite Ht. cbn. now rewrite Nat.eqb_refl.
      * destruct Hs as [[_ S]|(h & a & pre & _ & _ & -> & S)];
          [assumption | now apply subsequence_skip_last].
    + (* a timeout expires *)
      rewrite ?app_nil_r. unfold Debounce.expire.
      destruct Hs as [[T S]|(h & a & pre & T & Ht & C & S)]; rewrite T.
      * exists l. split; [exact Hw|]. split; [cbn; lia|]. left. now split.
      * cbn [find Debounce.handle]. destruct (Nat.eqb_spec h h') as [->|Hne].
        -- exists (l ++ [a]). unfold Debounce.later.
           cbn [Debounce.world Debounce.timeouts Debounce.timeout
                Debounce.args filter Debounce.handle].
           rewrite Nat.eqb_refl. cbn [negb].
           split; [now rewrite invoked_last, Hw|].
           split; [rewrite length_app; cbn; lia|].
           left. split; [now destruct (Debounce.timeout st)|].
           rewrite C. now apply subsequence_take_last.
        -- exists l. split; [exact Hw|]. split; [cbn; lia|]. right.
           now exists h, a, pre.
Qed.

(** X4: Whatever calls and expiries happen to a debounced function, at
    most one of its timeouts is pending, and what [func] has run on is a
    selection of the calls, in their order, with at most one run for each
    timeout that expired. *)
Theorem debounce_coalesces (es : list (closure_event A)) (n : nat) (w : W) :
  let st := Debounce.run func wait es (Debounce.debounce n w) in
  (List.length (Debounce.timeouts st) <= 1)%nat
  /\ (forall t, In t (Debounce.timeouts st) ->
        Debounce.timeout st = Some (Debounce.handle t)
        /\ Debounce.delay t = wait
        /\ exists pre, calls es = pre ++ [Debounce.args t])
  /\ exists l,
       subsequence l (calls es)
       /\ (List.length l <= expiries es)%nat
       /\ Debounce.world st = invoked func l w.
Proof.
  cbv zeta.
  destruct (debounce_state es n w)
    as (l & Hw & Hl & [[T S]|(h & a & pre & T & Ht & C & S)]);
    rewrite T.
  - split; [cbn; lia|]. split; [intros t []|]. now exists l.
  - split; [cbn; lia|]. split.
    + intros t [<-|[]]. cbn. repeat split; [assumption|]. now exists pre.
    + exists l. rewrite C. split; [now apply subsequence_skip_last|].
      now split.
Qed.

Lemma debounce_calls (l : list A) (a : A) (st : @Debounce.closure A W) :
  (Debounce.timeouts st = []
   \/ exists t, Debounce.timeouts st = [t]
                /\ Debounce.timeout st = Some (Debounce.handle t)) ->
  Debounce.run func wait (map Call (l ++ [a])) st
  = {| Debounce.timeout := Some (Debounce.next_handle st + List.length l);
       Debounce.timeouts :=
         [{| Debounce.handle := Debounce.next_handle st + List.length l;
             Debounce.delay := wait; Debounce.args := a |}];
       Debounce.next_handle := S (Debounce.next_handle st + List.length l);
       Debounce.world := Debounce.world st |}.
Proof.
  intros H.
  assert (C : forall b, Debounce.timeouts (Debounce.executedFunction wait b st)
                        = [{| Debounce.handle := Debounce.next_handle st;
                              Debounce.delay := wait; Debounce.args := b |}]).
  { intros b. unfold Debounce.executedFunction. cbn.
    destruct H as [->|(t & -> & ->)]; cbn.
    - now destruct (Debounce.timeout st).
    - now rewrite Nat.eqb_refl. }
  revert st H C. induction l as [|b l IH]; intros st H C.
  - cbn. rewrite Nat.add_0_r. unfold Debounce.executedFunction.
    f_equal. apply C.
  - cbn [map app]. unfold Debounce.run in *. cbn [fold_left].
    cbn [Debounce.step]. rewrite IH.
    + cbn [Debounce.executedFunction Debounce.next_handle Debounce.world
           List.length].
      unfold Debounce.executedFunction. cbn [Debounce.next_handle
                                             Debounce.world].
      now rewrite !Nat.add_succ_r.
    + right. eexists. split; [apply C | reflexivity].
    + intros c. unfold Debounce.executedFunction at 1.
      cbn [Debounce.timeouts Debounce.timeout Debounce.clearTimeout
           Debounce.next_handle].
      rewrite C. cbn. now rewrite Nat.eqb_refl.
Qed.

(** X5: Of a burst of calls of a debounced function only the last one
    takes effect: when the timeout of the last call expires, [func] runs
    once, on the arguments of that call, and no timeout is left. *)
Theorem debounce_last_call_wins (l : list A) (a : A) (n : nat) (w : W) :
  Debounce.run func wait
    (map Call (l ++ [a]) ++ [Expire (n + List.length l)])
    (Debounce.debounce n w)
  = {| Debounce.timeout := Some (n + List.length l);
       Debounce.timeouts := [];
       Debounce.next_handle := S (n + List.length l);
       Debounce.world := func a w |}.
Proof.
  unfold Debounce.run. rewrite fold_left_app.
  change (fold_left (Debounce.step func wait) (map Call (l ++ [a]))
            (Debounce.debounce n w))
    with (Debounce.run func wait (map Call (l ++ [a]))
            (Debounce.debounce n w)).
  rewrite debounce_calls by now left.
  cbn. unfold Debounce.expire. cbn. rewrite Nat.eqb_refl. cbn.
  reflexivity.
Qed.

End debounce_facts.

Section throttle_facts.
Context {A W : Type}.
Variable func : A -> W -> W.
Variable limit : Z.

Lemma throttle_state (es : list (closure_event A)) (n : nat) (w : W) :
  let st := Throttle.run func limit es (Throttle.throttle n w) in
  exists l,
    Throttle.world st = invoked func l w
    /\ subsequence l (calls es)
    /\ ((Throttle.inThrottle st = false /\ Throttle.timeouts st = []
         /\ (List.length l <= expiries es)%nat)
        \/ (Throttle.inThrottle st = true
            /\ (List.length l <= S (expiries es))%nat
            /\ exists h,
                 Throttle.timeouts st
                 = [{| Throttle.handle := h; Throttle.delay := limit |}])).
Proof.
  cbv zeta. induction es as [|e es IH] using rev_ind.
  - exists []. split; [reflexivity|]. split; [apply subsequence_nil|].
    left. repeat split. apply le_n.
  - unfold Throttle.run in *. rewrite fold_left_app. cbn [fold_left].
    destruct IH as (l & Hw & Hs & Ht).
    set (st := fold_left _ es _) in *.
    rewrite calls_app, expiries_app.
    destruct e as [b|h']; cbn [Throttle.step calls expiries flat_map filter
                                 List.length app].
    + unfold Throttle.throttled.
      destruct Ht as [(I & T & L)|(I & L & h & T)]; rewrite I; cbn [negb].
      * exists (l ++ [b]). cbn [Throttle.world Throttle.inThrottle
                                 Throttle.timeouts].
        split; [now rewrite invoked_last, Hw|].
        split; [now apply subsequence_take_last|].
        right. split; [reflexivity|].
        split; [rewrite length_app; cbn; lia|].
        rewrite T. now eexists.
      * exists l. split; [exact Hw|].
        split; [now apply subsequence_skip_last|].
        right. split; [exact I|]. split; [lia|]. now exists h.
    + rewrite ?app_nil_r. unfold Throttle.expire.
      destruct Ht as [(I & T & L)|(I & L & h & T)]; rewrite T.
      * exists l. split; [exact Hw|]. split; [exact Hs|].
        left. repeat split; [assumption..|cbn; lia].
      * cbn [find Throttle.handle]. destruct (Nat.eqb_spec h h') as [->|Hne].
        -- exists l. cbn [Throttle.world Throttle.inThrottle
                          Throttle.timeouts filter Throttle.handle].
           rewrite Nat.eqb_refl. cbn [negb].
           split; [exact Hw|]. split; [exact Hs|].
           left. repeat split. cbn; lia.
        -- exists l. split; [exact Hw|]. split; [exact Hs|].
           right. split; [exact I|]. split; [cbn; lia|]. now exists h.
Qed.

(** X6: Whatever calls and expiries happen to a throttled function, it is
    closed exactly while one timeout of its own is pending, so it opens
    again; what [func] has run on is a selection of the calls, in their
    order, with at most one run more than timeouts have expired. *)
Theorem throttle_reopens (es : list (closure_event A)) (n : nat) (w : W) :
  let st := Throttle.run func limit es (Throttle.throttle n w) in
  (Throttle.inThrottle st = true <-> Throttle.timeouts st <> [])
  /\ (List.length (Throttle.timeouts st) <= 1)%nat
  /\ exists l,
       subsequence l (calls es)
       /\ (List.length l <= S (expiries es))%nat
       /\ Throttle.world st = invoked func l w.
Proof.
  cbv zeta.
  destruct (throttle_state es n w)
    as (l & Hw & Hs & [(I & T & L)|(I & L & h & T)]); rewrite I, T.
  - split; [split; [discriminate | intros C; now elim C]|].
    split; [cbn; lia|]. exists l. repeat split; [assumption|lia|assumption].
  - split; [split; [discriminate | reflexivity]|].
    split; [cbn; lia|]. now exists l.
Qed.

(** X7: Of a burst of calls of a throttled function only the first one
    takes effect, at once; the others are dropped, not deferred. *)
Theorem throttle_first_call_wins (a : A) (l : list A) (n : nat) (w : W) :
  Throttle.run func limit (map Call (a :: l)) (Throttle.throttle n w)
  = {| Throttle.inThrottle := true;
       Throttle.timeouts :=
         [{| Throttle.handle := n; Throttle.delay := limit |}];
       Throttle.next_handle := S n;
       Throttle.world := func a w |}.
Proof.
  unfold Throttle.run. cbn [map fold_left Throttle.step].
  induction l as [|b l IH]; [reflexivity|].
  cbn [map fold_left Throttle.step]. exact IH.
Qed.

End throttle_facts.

(** ** The ticker over the life of a page *)

Lemma no_interval_off_route_witness :
  price_intervals
    (run_events
       [DOMContentLoaded; VisibilityChange true; VisibilityChange false;
        RefreshClick; Online; BeforeUnload]
       about_page)
  = [].
Proof.
  apply (no_interval_off_route
           [DOMContentLoaded; VisibilityChange true; VisibilityChange false;
            RefreshClick; Online; BeforeUnload]
           about_page); reflexivity.
Defined.

Lemma single_interval_visible_load_witness :
  (List.length
     (price_intervals
        (run_events
           (DOMContentLoaded
            :: [VisibilityChange true; Fire 1; VisibilityChange false;
                RefreshClick; Settle (Rejected "offline"); Online])
           (load (body price_table) 4 "/dashboard" false)))
   <= 1)%nat.
Proof.
  apply (single_interval_visible_load (body price_table) 4 "/dashboard"
           [VisibilityChange true; Fire 1; VisibilityChange false;
            RefreshClick; Settle (Rejected "offline"); Online]).
  reflexivity.
Defined.

Lemma early_alternates (h : bool) (es : list event) :
  early es = true -> alternates h es = true.
Proof.
  induction es as [|e es IH]; [reflexivity|]. unfold early in *.
  cbn [forallb]. intros H. apply andb_true_iff in H as [He H].
  destruct e; try discriminate He; cbn [alternates]; now apply IH.
Qed.

(** Before [DOMContentLoaded], without a visibility change, no
    price-update interval is started and the page stays as visible as it
    was. *)
Lemma early_run (es : list event) (st : page) :
  early es = true ->
  (1 <= next_timer st)%nat ->
  price_intervals st = [] ->
  (1 <= next_timer (run_events es st))%nat
  /\ price_intervals (run_events es st) = []
  /\ hidden (run_events es st) = hidden st.
Proof.
  unfold run_events. revert st.
  induction es as [|e es IH]; intros st E T I; [now repeat split|].
  unfold early in E. cbn [forallb] in E.
  apply andb_true_iff in E as [Ee E].
  assert (A : alternates (hidden st) [e] = true).
  { apply early_alternates. unfold early. cbn [forallb].
    now rewrite Ee. }
  assert (J : single_interval (step st e)).
  { apply single_interval_step; [|exact A]. split; [exact T | now left]. }
  assert (H : hidden (step st e) = hidden st).
  { rewrite (hidden_step st e A). now destruct e. }
  assert (P : price_intervals (step st e) = []).
  { destruct e as [|h| | |h|o| | |]; try discriminate Ee; cbn [step].
    - unfold on_beforeunload, clear_priceUpdateInterval.
      destruct (priceUpdateInterval st) as [[|h]|]; try exact I.
      now rewrite price_intervals_clearInterval, I.
    - unfold fire.
      destruct (find (fun t => (handle t =? h)%nat) (timers st)) as [t|];
        [|exact I].
      set (s := if repeating t then st else clearInterval h st).
      assert (Hs : price_intervals s = []).
      { subst s. destruct (repeating t); [exact I|].
        now rewrite price_intervals_clearInterval, I. }
      destruct (action t) as [|n|]; cbn [run].
      + destruct (keeps_ticker_updatePrices s) as (_ & K & _).
        now rewrite K.
      + unfold remove_notification.
        destruct (parentNode n (body s)); exact Hs.
      + destruct (keeps_ticker_showNotification "Welcome to CryptoDash! 🚀"
                    (Some "success") (Some 5000%Z) s) as (_ & K & _).
        exact (eq_trans K Hs).
    - destruct (keeps_ticker_settle o st) as (_ & K & _). now rewrite K.
    - destruct (keeps_ticker_on_online st) as (_ & K & _). now rewrite K.
    - destruct (keeps_ticker_on_offline st) as (_ & K & _).
      now rewrite K. }
  cbn [fold_left].
  destruct (IH (step st e) E (proj1 J) P) as (R1 & R2 & R3).
  repeat split; [exact R1 | exact R2 | now rewrite R3].
Qed.

(** The page after [DOMContentLoaded] and what follows, when it was
    visible and no visibility change came before. *)
Lemma single_interval_loaded (b : node) (fresh : nat) (path : string)
    (pre es : list event) :
  early pre = true ->
  alternates false es = true ->
  single_interval
    (run_events (pre ++ DOMContentLoaded :: es)
       (load b fresh path false)).
Proof.
  intros E A. unfold run_events. rewrite fold_left_app. cbn [fold_left].
  destruct (early_run pre (load b fresh path false) E (le_n 1) eq_refl)
    as (T & I & H).
  unfold run_events in T, I, H.
  set (st0 := fold_left step pre (load b fresh path false)) in *.
  cbn [hidden load] in H.
  assert (W : (1 <= next_timer (showWelcomeMessage st0))%nat
              /\ price_intervals (showWelcomeMessage st0) = []
              /\ hidden (showWelcomeMessage st0) = false).
  { unfold showWelcomeMessage.
    destruct (negb (visited st0) && (pathname st0 =? "/")%string);
      [|now repeat split].
    unfold setTimeout, set_timer. cbn [snd]. repeat split.
    - cbn. lia.
    - now rewrite price_intervals_app, I.
    - exact H. }
  destruct W as (W1 & W2 & W3).
  assert (J : single_interval (step st0 DOMContentLoaded)).
  { cbn [step]. unfold on_DOMContentLoaded.
    now apply single_interval_started. }
  assert (V : hidden (step st0 DOMContentLoaded) = false).
  { cbn [step]. unfold on_DOMContentLoaded, startPriceUpdates.
    destruct (includes _ _ || includes _ _); exact W3. }
  apply (single_interval_run es _ J). now rewrite V.
Qed.

(** X9: The ticker is single: a page that is visible when the script is
    evaluated, and whose visibility does not change before
    [DOMContentLoaded], has at most one price-update interval at any time,
    whatever network, unload, timer and fetch events come before
    [DOMContentLoaded], as long as the visibility changes after it
    alternate and [startPriceUpdates] runs only from the two listeners. *)
Theorem ticker_single_interval (b : node) (fresh : nat) (path : string)
    (pre es : list event) :
  early pre = true ->
  alternates false es = true ->
  (List.length
     (price_intervals
        (run_events (pre ++ DOMContentLoaded :: es)
           (load b fresh path false)))
   <= 1)%nat.
Proof.
  intros E A.
  destruct (single_interval_loaded b fresh path pre es E A)
    as [_ [R|(_ & h & R & _)]]; rewrite R; simpl; lia.
Qed.

Lemma ticker_single_interval_witness :
  (List.length
     (price_intervals
        (run_events
           ([Offline; Online; Settle (Rejected "offline"); Fire 1]
            ++ DOMContentLoaded
            :: [VisibilityChange true; Fire 3; VisibilityChange false;
                RefreshClick; Settle (Rejected "offline"); Online])
           (load (body price_table) 4 "/dashboard" false)))
   <= 1)%nat.
Proof.
  apply (ticker_single_interval (body price_table) 4 "/dashboard"
           [Offline; Online; Settle (Rejected "offline"); Fire 1]
           [VisibilityChange true; Fire 3; VisibilityChange false;
            RefreshClick; Settle (Rejected "offline"); Online]);
    reflexivity.
Defined.

(** X10: The ticker pauses and stops: on a page that is visible when the
    script is evaluated, whose visibility does not change before
    [DOMContentLoaded] and alternates after it, no price-update interval
    is active while the page is hidden, and none is left after
    [beforeunload]. *)
Theorem ticker_pauses_and_stops (b : node) (fresh : nat) (path : string)
    (pre es : list event) :
  early pre = true ->
  alternates false es = true ->
  let st :=
    run_events (pre ++ DOMContentLoaded :: es) (load b fresh path false) in
  (hidden st = true -> price_intervals st = [])
  /\ price_intervals (step st BeforeUnload) = [].
Proof.
  intros E A st.
  destruct (single_interval_loaded b fresh path pre es E A) as [_ S].
  fold st in S. split.
  - intros Hh. destruct S as [S|(Hv & _)]; [exact S | congruence].
  - cbn [step]. unfold on_beforeunload.
    apply single_interval_cleared.
    destruct S as [S|(_ & h & S1 & S2)]; [now left|].
    right. now exists h.
Qed.

Lemma ticker_pauses_and_stops_witness :
  price_intervals
    (step
       (run_events
          ([Online; BeforeUnload]
           ++ DOMContentLoaded
           :: [VisibilityChange true; VisibilityChange false; RefreshClick])
          (load (body price_table) 4 "/portfolio/7" false))
       BeforeUnload)
  = [].
Proof.
  apply (ticker_pauses_and_stops (body price_table) 4 "/portfolio/7"
           [Online; BeforeUnload]
           [VisibilityChange true; VisibilityChange false; RefreshClick]);
    reflexivity.
Defined.

(** X11: The listeners for the network status leave the ticker alone: going
    offline or online neither clears nor starts a price-update interval,
    and going offline starts no fetch. *)
Theorem network_status_keeps_ticker (st : page) :
  price_intervals (step st Offline) = price_intervals st
  /\ priceUpdateInterval (step st Offline) = priceUpdateInterval st
  /\ pending (step st Offline) = pending st
  /\ price_intervals (step st Online) = price_intervals st
  /\ priceUpdateInterval (step st Online) = priceUpdateInterval st.
Proof.
  cbn [step].
  destruct (keeps_ticker_on_offline st) as (_ & F1 & F2 & _).
  destruct (keeps_ticker_on_online st) as (_ & N1 & N2 & _).
  repeat split; assumption.
Qed.

(** ** Quotes that are missing *)

Lemma fold_left_fixed {A B : Type} (f : A -> B -> A) (l : list B) (a : A) :
  (forall x, In x l -> f a x = a) -> fold_left f l a = a.
Proof.
  induction l as [|x l IH]; simpl; intros H; [reflexivity|].
  rewrite (H x) by now left. apply IH. intros y Hy. apply H. now right.
Qed.

(** X16: [updatePriceElements] with a mapping that has no quote for any coin
    of the document changes nothing: no text, no class, nothing else of
    the page. This is for documents where no element is tagged with the
    name of an inherited member, since for such a name [prices[coinId]]
    finds that member where [quote_of] finds no quote. *)
Theorem updatePriceElements_without_quotes (ps : prices) (st : page) :
  own_coinIds st = true ->
  (forall el c, In el (querySelectorAll coin_tagged st) ->
     dataset_coinId el st = Some c -> quote_of ps c = None) ->
  updatePriceElements ps st = st.
Proof.
  intros _ H. unfold updatePriceElements. apply fold_left_fixed.
  intros el Hel. unfold updatePriceElement.
  destruct (dataset_coinId el st) as [c|] eqn:D; [|reflexivity].
  now rewrite (H el c Hel D).
Qed.

Lemma updatePriceElements_without_quotes_witness :
  updatePriceElements
    [("dogecoin", {| usd := of_Z 1; usd_24h_change := of_Z 0 |})]
    price_table
  = price_table.
Proof.
  apply (updatePriceElements_without_quotes
           [("dogecoin", {| usd := of_Z 1; usd_24h_change := of_Z 0 |})]
           price_table); [reflexivity|].
  intros el c [<-|[<-|[<-|[]]]] D; inversion D; reflexivity.
Defined.

(** ** The welcome message *)

(** X19: The welcome banner is for the first visit of the start page:
    [showWelcomeMessage] does nothing unless the path is [/] and the flag
    of a visit is unset, and then it sets one timeout and leaves flag and
    document as they are; the timeout shows the banner and sets the flag,
    and from then on [showWelcomeMessage] does nothing. *)
Theorem showWelcomeMessage_first_visit (st : page) :
  (visited st = true \/ pathname st <> "/" -> showWelcomeMessage st = st)
  /\ (visited st = false -> pathname st = "/" ->
      visited (showWelcomeMessage st) = false
      /\ body (showWelcomeMessage st) = body st
      /\ timers (showWelcomeMessage st)
         = timers st
           ++ [{| handle := next_timer st; repeating := false;
                  delay := 1000; action := WelcomeMessage |}])
  /\ visited (run WelcomeMessage st) = true
  /\ showWelcomeMessage (run WelcomeMessage st) = run WelcomeMessage st
  /\ timers (run WelcomeMessage st)
     = timers st
       ++ [{| handle := next_timer st; repeating := false;
              delay := 5000; action := RemoveNotification (next_node st) |}].
Proof.
  split; [|split; [|split; [|split]]].
  - unfold showWelcomeMessage. intros [V|P]; [now rewrite V|].
    destruct (String.eqb_spec (pathname st) "/") as [E|_]; [contradiction|].
    now rewrite andb_false_r.
  - unfold showWelcomeMessage. intros V P. rewrite V, P. cbn.
    repeat split; assumption.
  - reflexivity.
  - reflexivity.
  - reflexivity.
Qed.

(** ** Notifications and the refresh button *)

Lemma first_some_app {A B : Type} (f : A -> option B) (l1 l2 : list A) :
  first_some f (l1 ++ l2)
  = match first_some f l1 with
    | Some y => Some y
    | None => first_some f l2
    end.
Proof.
  induction l1 as [|x l1 IH]; simpl; [reflexivity|].
  now destruct (f x).
Qed.

Lemma flat_map_ext_in {A B : Type} (f g : A -> list B) (l : list A) :
  (forall x, In x l -> f x = g x) -> flat_map f l = flat_map g l.
Proof.
  induction l as [|x l IH]; simpl; intros H; [reflexivity|].
  rewrite (H x) by now left. f_equal. apply IH.
  intros y Hy. apply H. now right.
Qed.

Lemma first_some_lookup (el : nat) (cs : list node) :
  In el (flat_map ids cs) -> exists x, first_some (lookup el) cs = Some x.
Proof.
  intros H. destruct (first_some (lookup el) cs) as [x|] eqn:E;
    [now exists x|].
  exfalso.
  apply (lookup_None_absent el (Element (S el) EmptyString [] cs)).
  - cbn [lookup]. destruct (Nat.eqb_spec (S el) el); [lia | exact E].
  - now right.
Qed.

(** A child appended to the root leaves the elements of the tree to be
    found with the attributes they have. *)
Lemma attrs_after_append (el i : nat) (n : string) (a : attributes)
    (cs : list node) (c : node) :
  In el (ids (Element i n a cs)) ->
  option_map attrs_of (lookup el (Element i n a (cs ++ [c])))
  = option_map attrs_of (lookup el (Element i n a cs)).
Proof.
  intros H. cbn [lookup]. destruct (Nat.eqb_spec i el) as [->|Hne];
    [reflexivity|].
  destruct H as [H|H]; [contradiction|].
  destruct (first_some_lookup el cs H) as (x & E).
  now rewrite first_some_app, E.
Qed.

(** The banner of a notification, as [showNotification] builds it with the
    identities [k] and [k + 1]. *)
Lemma showNotification_body (message : string) (type : option string)
    (duration : option Z) (st : page) (bi : nat) (bn : string)
    (ba : attributes) (bcs : list node) :
  body st = Element bi bn ba bcs ->
  exists ca cs,
    body (showNotification message type duration st)
    = Element bi bn ba
        (bcs ++ [Element (next_node st) "div"
                   [("class", ca);
                    ("style",
                     "top: 20px; right: 20px; z-index: 9999; min-width: 300px;")]
                   [Text cs;
                    Element (S (next_node st)) "button"
                      [("type", "button"); ("class", "btn-close");
                       ("data-bs-dismiss", "alert")] [];
                    Text (line_break ++ "    ")%string]])
    /\ next_node (showNotification message type duration st)
       = S (S (next_node st)).
Proof.
  intros Hb. unfold showNotification. cbn. rewrite Hb. cbn.
  eexists. eexists. split; reflexivity.
Qed.

Lemma showNotification_tagged (message : string) (type : option string)
    (duration : option Z) (st : page) (bi : nat) (bn : string)
    (ba : attributes) (bcs : list node) :
  body st = Element bi bn ba bcs ->
  let st' := showNotification message type duration st in
  querySelectorAll coin_tagged st' = querySelectorAll coin_tagged st
  /\ forall el, In el (querySelectorAll coin_tagged st) ->
       dataset_coinId el st' = dataset_coinId el st.
Proof.
  intros Hb st'.
  destruct (showNotification_body message type duration st bi bn ba bcs Hb)
    as (ca & cs & B & _).
  fold st' in B. unfold querySelectorAll, dataset_coinId.
  rewrite B, Hb. split.
  - cbn [matching]. rewrite flat_map_app. cbn. now rewrite app_nil_r.
  - intros el Hel.
    match goal with
    | |- match ?x with _ => _ end = match ?y with _ => _ end =>
        assert (E : option_map attrs_of x = option_map attrs_of y)
    end.
    { apply attrs_after_append. revert Hel. apply matching_ids. }
    destruct (lookup el (Element bi bn ba (bcs ++ _))),
      (lookup el (Element bi bn ba bcs)); cbn in E; congruence.
Qed.

(** X20: A click on the refresh button asks for the coins a tick would ask
    for, for the same elements, after showing its banner: the first timer
    the call sets is the timeout of one second that removes the banner. *)
Theorem refreshPrices_fetches_like_a_tick (st : page) (bi : nat)
    (bn : string) (ba : attributes) (bcs : list node) :
  body st = Element bi bn ba bcs ->
  map coinIds (pending (refreshPrices st))
  = map coinIds (pending (updatePrices st))
  /\ map priceElements (pending (refreshPrices st))
     = map priceElements (pending (updatePrices st))
  /\ exists later,
       timers (refreshPrices st)
       = timers st
         ++ {| handle := next_timer st; repeating := false; delay := 1000;
               action := RemoveNotification (next_node st) |} :: later.
Proof.
  intros Hb. unfold refreshPrices.
  set (st1 := showNotification _ _ _ st).
  destruct (showNotification_tagged "Refreshing prices..." (Some "info")
              (Some 1000%Z) st bi bn ba bcs Hb) as [Q D].
  fold st1 in Q, D.
  assert (P : pending st1 = pending st) by reflexivity.
  assert (T : timers st1
              = timers st
                ++ [{| handle := next_timer st; repeating := false;
                       delay := 1000;
                       action := RemoveNotification (next_node st) |}])
    by reflexivity.
  assert (I : dataset_coinIds (querySelectorAll coin_tagged st) st1
              = dataset_coinIds (querySelectorAll coin_tagged st) st).
  { unfold dataset_coinIds. apply flat_map_ext_in. intros el Hel.
    now rewrite (D el Hel). }
  unfold updatePrices. rewrite Q.
  destruct (querySelectorAll coin_tagged st) as [|e els] eqn:E.
  - rewrite P, T. repeat split. now exists [].
  - unfold fetchCoinPrices. cbn [pending timers set_pending].
    destruct (showLoadingIndicators_frame (e :: els) st1) as (P1 & T1 & _).
    destruct (showLoadingIndicators_frame (e :: els) st) as (P0 & _).
    rewrite P1, P0, T1, P, T, !map_app. cbn [map coinIds priceElements].
    rewrite I. repeat split. now exists [].
Qed.

Lemma refreshPrices_fetches_like_a_tick_witness :
  map coinIds (pending (refreshPrices price_table))
  = map coinIds (pending (updatePrices price_table)).
Proof.
  apply (refreshPrices_fetches_like_a_tick price_table 0 "body" []
           [tagged 1 "span" "bitcoin" "price-display" [Text "$1.00"];
            tagged 2 "span" "bitcoin" "change-display text-danger"
              [Text "-0.50%"];
            tagged 3 "span" "ethereum" "price-display" []]).
  reflexivity.
Defined.

(** Decides the comparisons of identities in the goal. *)
Ltac eqb_lia :=
  repeat match goal with
         | |- context [(?a =? ?b)%nat] =>
             first [ rewrite (proj2 (Nat.eqb_eq a b)) by lia
                   | rewrite (proj2 (Nat.eqb_neq a b)) by lia ]
         end.

(** X21: Notifications are not queued: a second banner is put next to the
    first, and each timeout removes its own banner and no other, in
    whichever order they run. *)
Theorem notifications_expire_independently (m1 m2 : string)
    (t1 t2 : option string) (d1 d2 : option Z) (st : page) (bi : nat)
    (bn : string) (ba : attributes) (bcs : list node) :
  body st = Element bi bn ba bcs ->
  below (next_node st) (body st) ->
  let n1 := next_node st in
  let n2 := S (S (next_node st)) in
  let st2 := showNotification m2 t2 d2 (showNotification m1 t1 d1 st) in
  exists b1 b2,
    body st2 = Element bi bn ba (bcs ++ [b1; b2])
    /\ id_of b1 = n1 /\ id_of b2 = n2
    /\ body (run (RemoveNotification n1) st2)
       = Element bi bn ba (bcs ++ [b2])
    /\ body (run (RemoveNotification n2) st2)
       = Element bi bn ba (bcs ++ [b1])
    /\ body (run (RemoveNotification n2) (run (RemoveNotification n1) st2))
       = body st
    /\ body (run (RemoveNotification n1) (run (RemoveNotification n2) st2))
       = body st.
Proof.
  intros Hb B n1 n2 st2.
  destruct (showNotification_body m1 t1 d1 st bi bn ba bcs Hb)
    as (ca1 & cs1 & B1 & N1).
  destruct (showNotification_body m2 t2 d2 _ bi bn ba _ B1)
    as (ca2 & cs2 & B2 & _).
  rewrite N1 in B2. fold st2 n1 n2 in B2.
  rewrite <- app_assoc in B2. cbn [app] in B2.
  eexists. eexists. split; [exact B2|].
  split; [reflexivity|]. split; [reflexivity|].
  assert (F : forall k, (n1 <= k)%nat -> ~ In k (flat_map ids bcs)).
  { intros k Hk Hin. assert (k < n1)%nat; [|lia].
    apply B. rewrite Hb. now right. }
  assert (R : forall k, (n1 <= k)%nat ->
                filter (fun c => negb (has_id k c)) (map (remove k) bcs)
                = bcs).
  { intros k Hk. apply remove_forest_absent. now apply F. }
  assert (P : forall k (tl : list node),
                existsb (has_id k) tl = true ->
                parentNode k (Element bi bn ba (bcs ++ tl)) = Some bi).
  { intros k tl H. cbn [parentNode]. rewrite existsb_app, H.
    now rewrite orb_true_r. }
  subst n2. unfold run, remove_notification, remove_element.
  cbn [body set_body]. rewrite B2.
  rewrite !P by (cbn [existsb has_id]; eqb_lia; reflexivity).
  cbn [body set_body remove]. rewrite !map_app, !filter_app.
  rewrite !R by lia.
  cbn [map remove filter has_id negb app]. eqb_lia.
  cbn [negb app filter].
  split; [reflexivity|]. split; [reflexivity|].
  rewrite !P by (cbn [existsb has_id]; eqb_lia; reflexivity).
  cbn [body set_body remove]. rewrite !map_app, !filter_app.
  rewrite !R by lia.
  cbn [map remove filter has_id negb app]. eqb_lia.
  cbn [negb app filter].
  rewrite app_nil_r, Hb. split; reflexivity.
Qed.

Lemma notifications_expire_independently_witness :
  exists b1 b2,
    body (showNotification "Connection restored" (Some "success") None
            (showNotification "Connection lost" (Some "warning") None
               about_page))
    = Element 0 "body" [] ([Element 1 "p" [] [Text "About"]] ++ [b1; b2])
    /\ id_of b1 = 2 /\ id_of b2 = 4.
Proof.
  destruct (notifications_expire_independently "Connection lost"
              "Connection restored" (Some "warning") (Some "success") None
              None about_page 0 "body" [] [Element 1 "p" [] [Text "About"]]
              eq_refl)
    as (b1 & b2 & H1 & H2 & H3 & _).
  - intros i Hi. simpl in Hi. simpl. lia.
  - now exists b1, b2.
Defined.

(** ** What the renderer shows *)






(** ** The colour class of a change *)

Lemma includes_tail (c : ascii) (s p : string) :
  includes (String c s) p = false -> includes s p = false.
Proof.
  cbn [includes]. destruct (strip p (String c s)); [discriminate|].
  auto.
Qed.

Lemma includes_strip (s p : string) :
  includes s p = false -> strip p s = None.
Proof.
  destruct s; cbn [includes]; destruct (strip p _); auto; discriminate.
Qed.

(** A match of a pattern without blanks ends before the next blank. *)
Lemma strip_before_space (p u w r : string) :
  lacks " " p = true ->
  strip p (u ++ String " " w) = Some r ->
  exists r', strip p u = Some r'.
Proof.
  revert u. induction p as [|x p IH]; intros u L H.
  - now exists u.
  - cbn [lacks] in L. apply andb_true_iff in L as [Lx Lp].
    destruct u as [|y u]; cbn [append strip] in *.
    + destruct (Ascii.eqb_spec x " ") as [->|]; [discriminate|].
      discriminate.
    + destruct (Ascii.eqb x y); [|discriminate]. now apply IH.
Qed.

Lemma includes_across_space (p u w : string) :
  lacks " " p = true -> p <> EmptyString ->
  includes u p = false -> includes w p = false ->
  includes (u ++ String " " w) p = false.
Proof.
  intros L Hp. induction u as [|y u IH]; intros Hu Hw; cbn [append].
  - cbn [includes]. destruct p as [|x p]; [contradiction|].
    cbn [strip]. cbn [lacks] in L. apply andb_true_iff in L as [Lx _].
    destruct (Ascii.eqb_spec x " ") as [->|]; [discriminate|].
    destruct (Ascii.eqb x " ") eqn:E;
      [apply Ascii.eqb_eq in E; contradiction | exact Hw].
  - cbn [includes].
    destruct (strip p (String y (u ++ String " " w))) as [r|] eqn:S.
    + destruct (strip_before_space p (String y u) w r L S) as (r' & S').
      rewrite (includes_strip _ _ Hu) in S'. discriminate.
    + apply IH; [now apply includes_tail in Hu | exact Hw].
Qed.

Lemma includes_app_r (u s p : string) :
  includes s p = true -> includes (u ++ s) p = true.
Proof.
  induction u as [|c u IH]; intros H; [exact H|].
  cbn [append includes]. destruct (strip p _); [reflexivity | now apply IH].
Qed.

Lemma strip_app (p s r v : string) :
  strip p s = Some r -> strip p (s ++ v) = Some (r ++ v)%string.
Proof.
  revert s. induction p as [|x p IH]; intros s H; cbn [strip] in *.
  - now inversion H.
  - destruct s as [|y s]; [discriminate|]. cbn [append].
    destruct (Ascii.eqb x y); [now apply IH | discriminate].
Qed.

Lemma includes_app_l (s v p : string) :
  includes s p = true -> includes (s ++ v) p = true.
Proof.
  induction s as [|c s IH]; cbn [includes append]; intros H.
  - destruct (strip p EmptyString) as [r|] eqn:S; [|discriminate].
    destruct p; [|discriminate]. now destruct v.
  - destruct (strip p (String c s)) as [r|] eqn:S.
    + change (String c (s ++ v)) with (String c s ++ v)%string.
      now rewrite (strip_app _ _ _ v S).
    + destruct (strip p (String c (s ++ v))); [reflexivity | now apply IH].
Qed.

(** The tokens of a string are pieces of it. *)
Lemma split_pieces (s : string) :
  (exists v, s = (fst (split s) ++ v)%string)
  /\ forall t, In t (snd (split s)) ->
       exists u v, s = (u ++ t ++ v)%string.
Proof.
  induction s as [|c s [(v & Hv) IH]]; cbn [split].
  - split; [now exists EmptyString | intros t []].
  - destruct (split s) as [w ts] eqn:E. cbn [fst snd] in *.
    destruct (is_space c); cbn [fst snd].
    + split; [now exists (String c s)|].
      intros t Ht. destruct w as [|d w]; cbn [add_token] in Ht.
      * destruct (IH t Ht) as (u & v' & ->).
        now exists (String c u), v'.
      * destruct Ht as [<-|Ht].
        -- exists (String c EmptyString), v. cbn [append]. f_equal.
           exact Hv.
        -- destruct (IH t Ht) as (u & v' & ->).
           now exists (String c u), v'.
    + split; [exists v; cbn [append]; f_equal; exact Hv|].
      intros t Ht. destruct (IH t Ht) as (u & v' & ->).
      now exists (String c u), v'.
Qed.

Lemma token_piece (s t : string) :
  In t (tokens s) -> exists u v, s = (u ++ t ++ v)%string.
Proof.
  unfold tokens. destruct (split_pieces s) as [(v & Hv) H].
  destruct (split s) as [w ts]. cbn [fst snd] in *.
  destruct w as [|d w]; cbn [add_token]; [apply H|].
  intros [<-|Ht]; [|now apply H].
  now exists EmptyString, v.
Qed.

Lemma colourless_token (s t : string) :
  colourless s = true -> In t (tokens s) -> colourless t = true.
Proof.
  unfold colourless. intros C Ht.
  destruct (token_piece s t Ht) as (u & v & ->).
  apply andb_true_iff in C as [C1 C2].
  apply negb_true_iff in C1, C2. apply andb_true_iff.
  split; apply negb_true_iff.
  - destruct (includes t "text-success") eqn:I; [|reflexivity].
    now rewrite (includes_app_r u _ _ (includes_app_l t v _ I)) in C1.
  - destruct (includes t "text-danger") eqn:I; [|reflexivity].
    now rewrite (includes_app_r u _ _ (includes_app_l t v _ I)) in C2.
Qed.

Lemma colourless_concat (l : list string) :
  (forall t, In t l -> colourless t = true) ->
  colourless (String.concat " " l) = true.
Proof.
  induction l as [|x l IH]; intros H; [reflexivity|].
  cbn [String.concat]. destruct l as [|y l]; [apply H; now left|].
  assert (Hx : colourless x = true) by (apply H; now left).
  assert (Hl : colourless (String.concat " " (y :: l)) = true)
    by (apply IH; intros t Ht; apply H; now right).
  unfold colourless in *.
  apply andb_true_iff in Hx as [X1 X2]. apply andb_true_iff in Hl as [L1 L2].
  apply negb_true_iff in X1, X2, L1, L2.
  change (" " ++ String.concat " " (y :: l))%string
    with (String " " (String.concat " " (y :: l))).
  rewrite !includes_across_space by (assumption || reflexivity || discriminate).
  reflexivity.
Qed.

(** In a class without colour the replacement finds nothing. *)
Lemma replace_colourless (s : string) :
  colourless s = true -> replace_text_class s = s.
Proof.
  unfold colourless. induction s as [|c s IH]; [reflexivity|].
  intros C. apply andb_true_iff in C as [C1 C2].
  apply negb_true_iff in C1, C2.
  unfold replace_text_class; fold replace_text_class.
  rewrite (includes_strip _ _ C1), (includes_strip _ _ C2).
  f_equal. apply IH.
  now rewrite (includes_tail _ _ _ C1), (includes_tail _ _ _ C2).
Qed.

(** A colour class at the end of a class without colour is cut off. *)
Lemma replace_last_colour (b : string) (change : number) :
  colourless b = true ->
  replace_text_class (b ++ String " " (colour_class change))
  = (b ++ " ")%string.
Proof.
  unfold colourless. induction b as [|c b IH]; intros C.
  - unfold colour_class. now destruct (ge change (of_Z 0)).
  - apply andb_true_iff in C as [C1 C2]. apply negb_true_iff in C1, C2.
    cbn [append]. unfold replace_text_class; fold replace_text_class.
    change (String c (b ++ String " " (colour_class change)))
      with (String c b ++ String " " (colour_class change))%string.
    destruct (strip "text-success" _) as [r|] eqn:S1.
    { destruct (strip_before_space "text-success" _ _ _ eq_refl S1)
        as (r' & S').
      rewrite (includes_strip _ _ C1) in S'. discriminate. }
    destruct (strip "text-danger" _) as [r|] eqn:S2.
    { destruct (strip_before_space "text-danger" _ _ _ eq_refl S2)
        as (r' & S').
      rewrite (includes_strip _ _ C2) in S'. discriminate. }
    cbn [append]. f_equal. apply IH.
    now rewrite (includes_tail _ _ _ C1), (includes_tail _ _ _ C2).
Qed.

Lemma split_trailing_space (s : string) :
  split (s ++ " ") = split s.
Proof.
  induction s as [|c s IH]; [reflexivity|].
  cbn [append split]. now rewrite IH.
Qed.

Lemma append_assoc (a b c : string) :
  ((a ++ b) ++ c = a ++ (b ++ c))%string.
Proof. induction a as [|x a IH]; cbn [append]; [reflexivity|]. now f_equal. Qed.

Lemma concat_last (l : list string) (x y : string) :
  String.concat " " ((x :: l) ++ [y])
  = (String.concat " " (x :: l) ++ String " " y)%string.
Proof.
  revert x. induction l as [|z l IH]; intros x; [reflexivity|].
  specialize (IH z). cbn [app] in *.
  change (String.concat " " (x :: z :: l ++ [y]))
    with (x ++ " " ++ String.concat " " (z :: l ++ [y]))%string.
  rewrite IH.
  change (String.concat " " (x :: z :: l))
    with (x ++ " " ++ String.concat " " (z :: l))%string.
  cbn [append]. now rewrite !append_assoc.
Qed.

Lemma unique_NoDup_from (l acc : list string) :
  NoDup (acc ++ l) -> fold_left set_add l acc = acc ++ l.
Proof.
  revert acc. induction l as [|x l IH]; intros acc N; cbn [fold_left].
  - now rewrite app_nil_r.
  - assert (M : mem x acc = false).
    { destruct (mem x acc) eqn:M; [|reflexivity].
      apply mem_In in M. apply NoDup_remove_2 in N.
      exfalso. apply N. apply in_app_iff. now left. }
    unfold set_add at 2. rewrite M, IH; rewrite <- app_assoc; [reflexivity|].
    exact N.
Qed.

Lemma unique_NoDup (l : list string) : NoDup l -> unique l = l.
Proof. intros N. unfold unique. now rewrite unique_NoDup_from. Qed.

Lemma colour_class_token (change : number) :
  is_token (colour_class change) = true
  /\ colourless (colour_class change) = false.
Proof. unfold colour_class. now destruct (ge change (of_Z 0)). Qed.

Lemma class_tokens (s : string) (s_colourless : colourless s = true) :
  NoDup (unique (tokens s))
  /\ forallb is_token (unique (tokens s)) = true
  /\ (forall t, In t (unique (tokens s)) -> colourless t = true)
  /\ forall change,
       set_add (unique (tokens s)) (colour_class change)
       = unique (tokens s) ++ [colour_class change].
Proof.
  destruct (unique_spec (tokens s)) as [N M].
  assert (C : forall t, In t (unique (tokens s)) -> colourless t = true).
  { intros t Ht. apply (colourless_token s); [assumption | now apply M]. }
  repeat split; try assumption.
  - apply is_token_unique, tokens_are_tokens.
  - intros change. unfold set_add.
    destruct (mem (colour_class change) (unique (tokens s))) eqn:E;
      [|reflexivity].
    apply mem_In, C in E.
    now rewrite (proj2 (colour_class_token change)) in E.
Qed.

(** The class after the first rendering, and after a further one. *)
Lemma first_colour (s : string) (s_colourless : colourless s = true)
    (change : number) :
  String.concat " "
    (set_add (unique (tokens (replace_text_class s))) (colour_class change))
  = String.concat " " (unique (tokens s) ++ [colour_class change]).
Proof.
  rewrite (replace_colourless s s_colourless).
  now rewrite (proj2 (proj2 (proj2 (class_tokens s s_colourless)))).
Qed.

Lemma next_colour (s : string) (s_colourless : colourless s = true)
    (old change : number) :
  unique (tokens s) <> [] ->
  String.concat " "
    (set_add
       (unique
          (tokens
             (replace_text_class
                (String.concat " "
                   (unique (tokens s) ++ [colour_class old])))))
       (colour_class change))
  = String.concat " " (unique (tokens s) ++ [colour_class change]).
Proof.
  destruct (class_tokens s s_colourless) as (N & T & C & A). intros HU.
  destruct (unique (tokens s)) as [|x l] eqn:E; [contradiction|].
  rewrite concat_last, replace_last_colour
    by (apply colourless_concat; exact C).
  unfold tokens at 1. rewrite split_trailing_space.
  fold (tokens (String.concat " " (x :: l))).
  rewrite (tokens_concat _ T), (unique_NoDup _ N). now rewrite A.
Qed.

Lemma quote_of_singleton (coin : string) (q : quote) :
  quote_of [(coin, q)] coin = Some q.
Proof. unfold quote_of. cbn. now rewrite String.eqb_refl. Qed.

Lemma tokens_with_colour (s : string) (change : number) :
  colourless s = true ->
  tokens (String.concat " " (unique (tokens s) ++ [colour_class change]))
  = unique (tokens s) ++ [colour_class change].
Proof.
  intros C. destruct (class_tokens s C) as (_ & T & _).
  apply tokens_concat. rewrite forallb_app, T. cbn.
  now rewrite (proj1 (colour_class_token change)).
Qed.

(** X18: However often a change cell whose class names no colour is rendered,
    it carries one colour class, that of the sign of the latest change,
    after the classes it had. *)
Theorem change_cell_one_colour (i : nat) (nm : string) (a : attributes)
    (cs : list node) (coin : string) (quotes : list quote) (q : quote) :
  getAttribute "data-coin-id" a = Some coin ->
  mem "change-display" (tokens (class_of a)) = true ->
  colourless (class_of a) = true ->
  className_of (rendered_with coin (quotes ++ [q]) (Element i nm a cs))
  = String.concat " "
      (unique (tokens (class_of a)) ++ [colour_class (usd_24h_change q)]).
Proof.
  intros C D L. unfold rendered_with. rewrite fold_left_app. cbn [fold_left].
  set (U := unique (tokens (class_of a))).
  assert (HU : In "change-display" U)
    by (apply unique_spec; now apply mem_In).
  (* the element after the quotes before the last one *)
  assert (I : exists a' cs',
            fold_left (fun t q => render_element [(coin, q)] t) quotes
              (Element i nm a cs)
            = Element i nm a' cs'
            /\ getAttribute "data-coin-id" a' = Some coin
            /\ (class_of a' = class_of a
                \/ exists old,
                     class_of a'
                     = String.concat " " (U ++ [colour_class old]))).
  { induction quotes as [|q' qs IH] using rev_ind.
    - exists a, cs. repeat split; [assumption | now left].
    - rewrite fold_left_app. cbn [fold_left].
      destruct IH as (a' & cs' & -> & C' & K).
      rewrite render_element_eq, C', quote_of_singleton.
      assert (D' : mem "change-display" (tokens (class_of a')) = true).
      { destruct K as [->|(old & ->)]; [exact D|].
        unfold U. rewrite (tokens_with_colour _ old L).
        apply mem_In, in_app_iff. now left. }
      rewrite D'. eexists. eexists. split; [reflexivity|].
      split; [now rewrite !getAttribute_setAttribute_other by discriminate|].
      right. exists (usd_24h_change q'). rewrite class_of_setAttribute.
      fold (colour_class (usd_24h_change q')).
      destruct K as [->|(old & ->)].
      + apply (first_colour _ L).
      + apply (next_colour _ L).
        intros E. unfold U in HU. now rewrite E in HU. }
  destruct I as (a' & cs' & -> & C' & K).
  rewrite render_element_eq, C', quote_of_singleton.
  assert (D' : mem "change-display" (tokens (class_of a')) = true).
  { destruct K as [->|(old & ->)]; [exact D|].
    unfold U. rewrite (tokens_with_colour _ old L).
    apply mem_In, in_app_iff. now left. }
  rewrite D', className_of_Element, class_of_setAttribute.
  fold (colour_class (usd_24h_change q)).
  destruct K as [->|(old & ->)].
  - apply (first_colour _ L).
  - apply (next_colour _ L).
    intros E. unfold U in HU. now rewrite E in HU.
Qed.

Lemma change_cell_one_colour_witness :
  className_of
    (rendered_with "bitcoin"
       ([{| usd := of_Z 3; usd_24h_change := of_Z 2 |};
         {| usd := of_Z 3; usd_24h_change := of_Z 0 |}]
        ++ [{| usd := of_Z 2; usd_24h_change := of_Z (-1) |}])
       (tagged 1 "td" "bitcoin" "small  change-display small" []))
  = "small change-display text-danger".
Proof.
  apply (change_cell_one_colour 1 "td"
           [("data-coin-id", "bitcoin");
            ("class", "small  change-display small")] [] "bitcoin"
           [{| usd := of_Z 3; usd_24h_change := of_Z 2 |};
            {| usd := of_Z 3; usd_24h_change := of_Z 0 |}]
           {| usd := of_Z 2; usd_24h_change := of_Z (-1) |});
    reflexivity.
Defined.

(** ** A cycle whose fetch is fulfilled *)

Lemma in_list_In (l : list nat) (i : nat) : in_list l i = true <-> In i l.
Proof.
  unfold in_list. rewrite existsb_exists. split.
  - intros (x & Hx & E). apply Nat.eqb_eq in E. now subst.
  - intros H. exists i. split; [assumption | apply Nat.eqb_refl].
Qed.

Lemma tame_prunes (k : nat) (g : node -> node) : prunes g -> tame k g.
Proof. intros P t i H. left. now apply (proj1 (P t)). Qed.

Lemma tame_spinner (k j : nat) :
  (k <= j)%nat -> tame k (append_child (spinner j)).
Proof.
  intros L [s|i n a cs] x H; [contradiction|].
  cbn [append_child ids] in H. destruct H as [<-|H]; [left; now left|].
  rewrite flat_map_app in H. apply in_app_iff in H as [H|H].
  - left. now right.
  - destruct H as [<-|[]]. now right.
Qed.

Lemma tame_update (k el : nat) (g : node -> node) (t : node) (i : nat) :
  tame k g ->
  In i (ids (update el g t)) -> In i (ids t) \/ (k <= i)%nat.
Proof.
  intros T. induction t as [s|j n a cs IH] using node_induction;
    [intros []|].
  cbn [update]. destruct (j =? el)%nat; [apply T|].
  cbn [ids]. intros [<-|H]; [left; now left|].
  apply in_flat_map in H as (d & Hd & H).
  apply in_map_iff in Hd as (c & <- & Hc).
  rewrite Forall_forall in IH. destruct (IH c Hc H) as [H'|H'];
    [|now right].
  left. right. apply in_flat_map. now exists c.
Qed.

(** Steps aimed at elements the tree never held change nothing: the tree
    undergoes the steps aimed at its own elements only. *)
Lemma steps_restrict (k : nat) (I : list nat)
    (steps : list (nat * (node -> node))) (t : node) :
  (forall s, In s steps -> (fst s < k)%nat /\ tame k (snd s)) ->
  (forall i, In i (ids t) -> (i < k)%nat -> In i I) ->
  apply_steps steps t
  = apply_steps (filter (fun s => in_list I (fst s)) steps) t.
Proof.
  unfold apply_steps. revert t.
  induction steps as [|s steps IH]; intros t H J; [reflexivity|].
  assert (Hs : forall x, In x steps ->
                 (fst x < k)%nat /\ tame k (snd x))
    by (intros x Hx; apply H; now right).
  destruct (H s (or_introl eq_refl)) as [Hk Ht].
  cbn [filter fold_left]. destruct (in_list I (fst s)) eqn:E.
  - cbn [fold_left]. apply IH; [exact Hs|].
    intros i Hi Hik. apply (tame_update k) in Hi as [Hi|Hi];
      [now apply J | lia | exact Ht].
  - rewrite update_absent; [now apply IH|].
    intros Hin. apply J in Hin; [|exact Hk].
    apply in_list_In in Hin. congruence.
Qed.

Lemma apply_steps_forest_nil (steps : list (nat * (node -> node))) :
  apply_steps_forest steps [] = [].
Proof. apply apply_steps_forest_absent. intros s _ []. Qed.

Lemma steps_restrict_forest (k : nat) (I : list nat)
    (steps : list (nat * (node -> node))) (f : list node) :
  (forall s, In s steps -> (fst s < k)%nat /\ tame k (snd s)) ->
  (forall i, In i (flat_map ids f) -> (i < k)%nat -> In i I) ->
  apply_steps_forest steps f
  = apply_steps_forest (filter (fun s => in_list I (fst s)) steps) f.
Proof.
  intros H. induction f as [|c r IH]; intros J.
  - now rewrite !apply_steps_forest_nil.
  - rewrite !apply_steps_cons. f_equal.
    + apply (steps_restrict k); [exact H|].
      intros i Hi. apply J. cbn. apply in_app_iff. now left.
    + apply IH. intros i Hi. apply J. cbn. apply in_app_iff. now right.
Qed.

(** *** The steps for a part of the elements *)

Lemma filter_all {A : Type} (p : A -> bool) (l : list A) :
  (forall x, In x l -> p x = true) -> filter p l = l.
Proof.
  induction l as [|x l IH]; cbn; intros H; [reflexivity|].
  rewrite (H x) by now left. f_equal. apply IH.
  intros y Hy. apply H. now right.
Qed.

Lemma filter_none {A : Type} (p : A -> bool) (l : list A) :
  (forall x, In x l -> p x = false) -> filter p l = [].
Proof.
  induction l as [|x l IH]; cbn; intros H; [reflexivity|].
  rewrite (H x) by now left. apply IH.
  intros y Hy. apply H. now right.
Qed.

Lemma show_steps_target (k : nat) (els : list nat)
    (s : nat * (node -> node)) :
  In s (show_steps k els) ->
  In (fst s) els /\ forall k0, (k0 <= k)%nat -> tame k0 (snd s).
Proof.
  revert k. induction els as [|e els IH]; intros k; [intros []|].
  cbn [show_steps]. intros [<-|H].
  - split; [now left|]. intros k0 L. now apply tame_spinner.
  - destruct (IH _ H) as [H1 H2]. split; [now right|].
    intros k0 L. apply H2. lia.
Qed.

Lemma cycle_steps_target (ps : prices) (k : nat) (els : list nat)
    (s : nat * (node -> node)) :
  In s (cycle_steps ps k els) -> In (fst s) els /\ tame k (snd s).
Proof.
  unfold cycle_steps, render_steps, hide_steps. intros H.
  apply in_app_iff in H as [H|H];
    [|apply in_app_iff in H as [H|H]].
  - destruct (show_steps_target k els s H) as [H1 H2].
    split; [exact H1 | now apply H2].
  - apply in_map_iff in H as (e & <- & He).
    split; [exact He | apply tame_prunes, prunes_render_element].
  - apply in_map_iff in H as (e & <- & He).
    split; [exact He | apply tame_prunes, prunes_hide_element].
Qed.

Lemma cycle_steps_filter (ps : prices) (p : nat -> bool) (k : nat)
    (A R : list nat) :
  (forall e, In e A -> p e = true) ->
  (forall e, In e R -> p e = false) ->
  filter (fun s => p (fst s)) (cycle_steps ps k (A ++ R))
  = cycle_steps ps k A
  /\ filter (fun s => negb (p (fst s))) (cycle_steps ps k (A ++ R))
     = cycle_steps ps (k + List.length A) R.
Proof.
  intros HA HR. unfold cycle_steps, render_steps, hide_steps.
  rewrite show_steps_app, !map_app, !filter_app.
  assert (S : forall j l (q : nat -> bool) b,
            (forall e, In e l -> q e = b) ->
            forall s, In s (show_steps j l) -> q (fst s) = b).
  { intros j l q b H s Hs. apply H. now apply (show_steps_target j l s). }
  assert (M : forall (g : node -> node) l (q : nat -> bool) b,
            (forall e, In e l -> q e = b) ->
            forall s, In s (map (fun e => (e, g)) l) -> q (fst s) = b).
  { intros g l q b H s Hs. apply in_map_iff in Hs as (e & <- & He).
    now apply H. }
  assert (HA' : forall e, In e A -> negb (p e) = false)
    by (intros e He; now rewrite (HA e He)).
  assert (HR' : forall e, In e R -> negb (p e) = true)
    by (intros e He; now rewrite (HR e He)).
  split.
  - rewrite (filter_all _ (show_steps k A)) by now apply (S k A p true).
    rewrite (filter_none _ (show_steps _ R)) by now apply (S _ R p false).
    rewrite !(filter_all _ (map _ A)) by now apply (M _ A p true).
    rewrite !(filter_none _ (map _ R)) by now apply (M _ R p false).
    now rewrite !app_nil_r.
  - rewrite (filter_none _ (show_steps k A))
      by now apply (S k A (fun e => negb (p e)) false).
    rewrite (filter_all _ (show_steps _ R))
      by now apply (S _ R (fun e => negb (p e)) true).
    rewrite !(filter_none _ (map _ A))
      by now apply (M _ A (fun e => negb (p e)) false).
    rewrite !(filter_all _ (map _ R))
      by now apply (M _ R (fun e => negb (p e)) true).
    reflexivity.
Qed.

(** *** Elements without tagged elements below *)

Lemma untagged_forest (cs : list node) (c : node) :
  flat_map (matching coin_tagged) cs = [] -> In c cs ->
  matching coin_tagged c = [].
Proof.
  induction cs as [|d cs IH]; [intros _ []|].
  cbn [flat_map]. intros H. apply app_eq_nil in H as [H1 H2].
  intros [<-|Hc]; [exact H1 | now apply IH].
Qed.

Lemma render_untagged (ps : prices) (t : node) :
  matching coin_tagged t = [] -> render ps t = t.
Proof.
  induction t as [s|i n a cs IH] using node_induction; [reflexivity|].
  cbn [matching render]. intros H. apply app_eq_nil in H as [H1 H2].
  destruct (renders ps a) eqn:R.
  - apply renders_tagged in R. rewrite R in H1. discriminate.
  - f_equal. rewrite <- (map_id cs) at 2. apply map_ext_in.
    intros c Hc. rewrite Forall_forall in IH. apply IH; [exact Hc|].
    now apply (untagged_forest cs).
Qed.

Lemma render_untagged_forest (ps : prices) (cs : list node) :
  flat_map (matching coin_tagged) cs = [] -> map (render ps) cs = cs.
Proof.
  intros H. rewrite <- (map_id cs) at 2. apply map_ext_in.
  intros c Hc. apply render_untagged. now apply (untagged_forest cs).
Qed.

(** An element that is given new text is rendered the same whatever is
    below it. *)
Lemma render_element_children (ps : prices) (i : nat) (n : string)
    (a : attributes) (cs cs' : list node) :
  renders ps a = true ->
  render_element ps (Element i n a cs) = render_element ps (Element i n a cs').
Proof.
  intros R. rewrite !render_element_eq. unfold renders in R.
  destruct (getAttribute "data-coin-id" a) as [coin|]; [|discriminate].
  destruct (quote_of ps coin) as [price|]; [|discriminate].
  destruct (mem "change-display" (tokens (class_of a))); [reflexivity|].
  rewrite orb_false_r in R. now rewrite R.
Qed.

Lemma hide_element_text (i : nat) (n : string) (a : attributes)
    (s : string) :
  hide_element (Element i n a (text_nodes s)) = Element i n a (text_nodes s).
Proof. now destruct s. Qed.

Lemma cycle_steps_fst (ps : prices) (k : nat) (els : list nat) :
  map fst (cycle_steps ps k els) = els ++ els ++ els.
Proof.
  unfold cycle_steps, render_steps. rewrite !map_app, show_steps_fst.
  rewrite hide_steps_fst, map_map. cbn [fst]. now rewrite map_id.
Qed.

(** *** The cycle on a flat document *)

Lemma fulfilled_steps_forest (ps : prices) (cs : list node) :
  Forall
    (fun c => forall k,
         NoDup (ids c) -> below k c ->
         matching loading_marker c = [] -> flat c ->
         apply_steps (cycle_steps ps k (matching coin_tagged c)) c
         = render ps c) cs ->
  forall k,
    NoDup (flat_map ids cs) ->
    (forall i, In i (flat_map ids cs) -> (i < k)%nat) ->
    flat_map (matching loading_marker) cs = [] ->
    fold_right (fun c P => flat c /\ P) True cs ->
    apply_steps_forest
      (cycle_steps ps k (flat_map (matching coin_tagged) cs)) cs
    = map (render ps) cs.
Proof.
  induction cs as [|c r IHr]; intros IH k N B C F.
  - apply apply_steps_forest_nil.
  - inversion IH as [|? ? Hc Hr]; subst.
    cbn [flat_map fold_right] in N, C, F, B. destruct F as [Fc Fr].
    apply NoDup_app_inv in N as (Nc & Nr & D).
    apply app_eq_nil in C as [Cc Cr].
    cbn [flat_map map].
    set (A := matching coin_tagged c).
    set (R := flat_map (matching coin_tagged) r).
    assert (HA : forall e, In e A -> In e (ids c))
      by (intros e; apply matching_ids).
    assert (HR : forall e, In e R -> In e (flat_map ids r)).
    { intros e. apply incl_flat_map. intros x _. apply matching_ids. }
    assert (T : forall s, In s (cycle_steps ps k (A ++ R)) ->
                  (fst s < k)%nat /\ tame k (snd s)).
    { intros s Hs. destruct (cycle_steps_target ps k _ s Hs) as [H1 H2].
      split; [|exact H2]. apply B. apply in_app_iff.
      apply in_app_iff in H1 as [H1|H1]; [left; now apply HA|].
      right. now apply HR. }
    assert (PA : forall e, In e A -> in_list (ids c) e = true)
      by (intros e He; now apply in_list_In, HA).
    assert (PR : forall e, In e R -> in_list (ids c) e = false).
    { intros e He. destruct (in_list (ids c) e) eqn:E; [|reflexivity].
      apply in_list_In in E. exfalso. apply (D e E). now apply HR. }
    destruct (cycle_steps_filter ps (in_list (ids c)) k A R PA PR)
      as [E1 E2].
    rewrite apply_steps_cons. f_equal.
    + rewrite (steps_restrict k (ids c)); [|exact T|auto].
      rewrite E1. apply Hc; try assumption.
      intros i Hi. apply B. apply in_app_iff. now left.
    + rewrite (steps_restrict_forest k (flat_map ids r)); [|exact T|auto].
      assert (E : filter (fun s => in_list (flat_map ids r) (fst s))
                    (cycle_steps ps k (A ++ R))
                  = cycle_steps ps (k + List.length A) R).
      { rewrite <- E2. apply filter_ext_in. intros s Hs.
        destruct (cycle_steps_target ps k _ s Hs) as [H1 _].
        apply in_app_iff in H1 as [H1|H1].
        - rewrite (PA _ H1). cbn.
          destruct (in_list (flat_map ids r) (fst s)) eqn:E;
            [|reflexivity].
          apply in_list_In in E. exfalso. exact (D _ (HA _ H1) E).
        - rewrite (PR _ H1). cbn. now apply in_list_In, HR. }
      rewrite E. apply IHr; try assumption.
      intros i Hi.
      assert (i < k)%nat by (apply B; apply in_app_iff; now right).
      lia.
Qed.

(** On a flat document without markers the three phases of a cycle, the
    markers, the rendering and the removal of the markers, leave the
    rendered document. *)
Lemma fulfilled_steps_flat (ps : prices) (t : node) :
  forall k,
    NoDup (ids t) -> below k t ->
    matching loading_marker t = [] -> flat t ->
    apply_steps (cycle_steps ps k (matching coin_tagged t)) t = render ps t.
Proof.
  induction t as [s|i n a cs IH] using node_induction;
    intros k N B C F; [reflexivity|].
  cbn [matching] in *. apply app_eq_nil in C as [_ C].
  destruct F as [F1 F2]. inversion N as [|? ? Hi Ncs]; subst.
  assert (K : ~ In k (flat_map ids cs)).
  { intros Hin. assert (k < k)%nat; [|lia]. apply B. now right. }
  destruct (coin_tagged a) eqn:T.
  - rewrite (F1 eq_refl). unfold cycle_steps, render_steps, apply_steps.
    cbn [app show_steps hide_steps map fold_left fst snd update].
    rewrite Nat.eqb_refl. cbn [append_child update].
    rewrite Nat.eqb_refl.
    destruct (render_element_cases ps i n a (cs ++ [spinner k]))
      as [[R E]|(R & a' & s & E & _)]; rewrite E; cbn [update];
      rewrite Nat.eqb_refl; cbn [render]; rewrite R.
    + rewrite (render_untagged_forest ps cs (F1 eq_refl)).
      exact (hide_after_show k i n a cs C K).
    + rewrite hide_element_text, <- E.
      now apply render_element_children.
  - cbn [app]. rewrite apply_steps_element.
    + cbn [render].
      assert (R : renders ps a = false).
      { destruct (renders ps a) eqn:R; [|reflexivity].
        apply renders_tagged in R. congruence. }
      rewrite R. f_equal. apply fulfilled_steps_forest; try assumption.
      intros j Hj. apply B. now right.
    + rewrite cycle_steps_fst. intros Hin. apply Hi.
      assert (Hm : In i (flat_map (matching coin_tagged) cs))
        by (repeat (apply in_app_iff in Hin as [Hin|Hin]; try assumption)).
      revert Hm. apply incl_flat_map. intros x _. apply matching_ids.
Qed.

(** *** The page *)

Lemma matching_append_child (sel : attributes -> bool) (el : nat)
    (c t : node) :
  matching sel c = [] ->
  matching sel (update el (append_child c) t) = matching sel t.
Proof.
  intros Hc. induction t as [s|i n a cs IH] using node_induction;
    [reflexivity|].
  cbn [update]. destruct (i =? el)%nat.
  - cbn [append_child matching]. rewrite flat_map_app. cbn [flat_map].
    now rewrite Hc, !app_nil_r.
  - cbn [matching]. f_equal. rewrite flat_map_map.
    induction cs as [|d cs IHcs]; [reflexivity|].
    inversion IH as [|? ? Hd Hcs]; subst. cbn [flat_map].
    now rewrite Hd, IHcs.
Qed.

Lemma matching_show_steps (k : nat) (els : list nat) (t : node) :
  matching coin_tagged (apply_steps (show_steps k els) t)
  = matching coin_tagged t.
Proof.
  unfold apply_steps. revert k t.
  induction els as [|e els IH]; intros k t; [reflexivity|].
  cbn [show_steps fold_left fst snd]. rewrite IH.
  now apply matching_append_child.
Qed.

Lemma apply_render_steps (ps : prices) (els : list nat) (t : node) :
  apply_steps (render_steps ps els) t
  = fold_left (fun t e => update e (render_element ps) t) els t.
Proof.
  unfold apply_steps, render_steps. revert t.
  induction els as [|e els IH]; intros t; [reflexivity|]. apply IH.
Qed.

(** The rendering touches no attribute but the class. *)
Lemma render_element_attributes (ps : prices) (name : string) (t : node) :
  name <> "class" ->
  getAttribute name (attrs_of (render_element ps t))
  = getAttribute name (attrs_of t).
Proof.
  intros H. destruct t as [s|i n a cs]; [reflexivity|].
  rewrite render_element_eq. cbn [attrs_of].
  destruct (getAttribute "data-coin-id" a); [|reflexivity].
  destruct (quote_of ps s); [|reflexivity].
  destruct (mem "change-display" _).
  - cbn [attrs_of]. now rewrite !getAttribute_setAttribute_other.
  - now destruct (mem "price-display" _).
Qed.

Lemma markers_render (ps : prices) (t : node) :
  matching loading_marker t = [] ->
  matching loading_marker (render ps t) = [].
Proof.
  induction t as [s|i n a cs IH] using node_induction; [reflexivity|].
  cbn [matching render]. intros H. apply app_eq_nil in H as [H1 H2].
  destruct (renders ps a).
  - pose proof (render_element_attributes ps "data-loading"
                  (Element i n a cs)) as A.
    destruct (render_element_cases ps i n a cs)
      as [[_ E]|(_ & a' & s & E & _)]; rewrite E in *.
    + cbn [matching]. now rewrite H1, H2.
    + cbn [matching attrs_of] in *.
      unfold loading_marker, attribute_is in *.
      rewrite A by discriminate.
      destruct (getAttribute "data-loading" a) as [v|];
        [destruct (String.eqb v "true"); [discriminate|]|];
        now destruct s.
  - cbn [matching]. rewrite H1. cbn [app]. rewrite flat_map_map.
    induction cs as [|d cs IHcs]; [reflexivity|].
    inversion IH as [|? ? Hd Hcs]; subst. cbn [flat_map] in *.
    apply app_eq_nil in H2 as [H2 H3].
    now rewrite (Hd H2), (IHcs Hcs H3).
Qed.

(** X13: A cycle whose fetch is fulfilled, on a document where no tagged
    element lies below another one and no marker is present: the document
    is left as [updatePriceElements] alone leaves it, so no marker stays,
    and no fetch is pending. This is for documents where no element is
    tagged with the name of an inherited member: there [prices[coinId]]
    is what [quote_of] reads, and the [then] handler returns. *)
Theorem fulfilled_cycle_on_flat_document (ps : prices) (st : page) :
  own_coinIds st = true ->
  pending st = [] ->
  NoDup (ids (body st)) ->
  below (next_node st) (body st) ->
  loading_markers st = [] ->
  flat (body st) ->
  body (refresh_cycle (Fulfilled ps) st) = body (updatePriceElements ps st)
  /\ loading_markers (refresh_cycle (Fulfilled ps) st) = []
  /\ pending (refresh_cycle (Fulfilled ps) st) = [].
Proof.
  intros _ Hp N B C F.
  assert (M : matching loading_marker (render ps (body st)) = [])
    by now apply markers_render.
  rewrite (updatePriceElements_render ps st N). cbn [body set_body].
  unfold refresh_cycle, updatePrices, loading_markers, querySelectorAll.
  destruct (matching coin_tagged (body st)) as [|e els] eqn:E.
  - unfold settle. rewrite Hp.
    rewrite (render_untagged ps _ E). repeat split; assumption.
  - set (els' := e :: els) in *.
    unfold fetchCoinPrices, settle. cbn [pending set_pending].
    destruct (showLoadingIndicators_frame els' st) as (P & _).
    rewrite P, Hp. cbn [app priceElements]. unfold updatePrices_then.
    set (s1 := set_pending [] _).
    assert (B1 : body s1
                 = apply_steps (show_steps (next_node st) els') (body st)).
    { unfold s1. cbn [body set_pending].
      now rewrite showLoadingIndicators_steps. }
    assert (N1 : NoDup (ids (body s1)))
      by (rewrite B1; now apply NoDup_show_steps).
    rewrite (updatePriceElements_render ps s1 N1).
    rewrite hideLoadingIndicators_steps
      by (cbn [body set_body]; now apply (prunes_render ps (body s1))).
    cbn [body set_body pending].
    assert (R : apply_steps (hide_steps els') (render ps (body s1))
                = render ps (body st)).
    { rewrite <- (fold_update_render ps (body s1) N1).
      rewrite B1, matching_show_steps, E. fold els'.
      rewrite <- apply_render_steps, <- !apply_steps_app.
      rewrite <- E. apply fulfilled_steps_flat; assumption. }
    rewrite R. split; [reflexivity|]. split; [exact M | reflexivity].
Qed.

Lemma fulfilled_cycle_on_flat_document_witness :
  body (refresh_cycle (Fulfilled example_quotes) price_table)
  = body (updatePriceElements example_quotes price_table).
Proof.
  apply (fulfilled_cycle_on_flat_document example_quotes price_table).
  - reflexivity.
  - reflexivity.
  - simpl. repeat (constructor; [simpl; intuition lia|]). constructor.
  - intros i Hi. simpl in Hi. simpl. lia.
  - reflexivity.
  - simpl. repeat split; discriminate.
Defined.

(** With the fetch fulfilled the nested card loses both markers, since
    the rendering of the cell removes the marker of the cell; with a
    mapping without the coin the marker of the card stays, as after a
    rejection. *)
Lemma fulfilled_cycle_examples :
  loading_markers (refresh_cycle (Fulfilled example_quotes) nested_card) = []
  /\ loading_markers (refresh_cycle (Fulfilled []) nested_card) = [4].
Proof. vm_compute. repeat split. Qed.

(** ** The theme *)

Lemma setAttribute_twice (k v : string) (a : attributes) :
  setAttribute k v (setAttribute k v a) = setAttribute k v a.
Proof.
  induction a as [|[k' v'] a IH]; cbn [setAttribute].
  - now rewrite String.eqb_refl.
  - destruct (String.eqb k' k) eqn:E; cbn [setAttribute]; rewrite E;
      [reflexivity | now rewrite IH].
Qed.

(** X22: [initializeTheme] gives [<html>] a theme that is never empty: the
    stored one, or [dark] when none or the empty string is stored; it
    leaves the other attributes as they are, and running it again changes
    nothing. *)
Theorem initializeTheme_never_empty (localStorage : storage)
    (documentElement : attributes) :
  let html := initializeTheme localStorage documentElement in
  (exists theme,
      getAttribute "data-bs-theme" html = Some theme
      /\ theme <> EmptyString
      /\ match getItem "cryptodash-theme" localStorage with
         | Some (String c s) => theme = String c s
         | _ => theme = "dark"
         end)
  /\ (forall name, name <> "data-bs-theme" ->
        getAttribute name html = getAttribute name documentElement)
  /\ initializeTheme localStorage html = html.
Proof.
  cbv zeta. unfold initializeTheme. split; [|split].
  - eexists. split; [apply getAttribute_setAttribute|].
    destruct (getItem "cryptodash-theme" localStorage) as [[|c s]|];
      cbn [or_else]; split; (discriminate || reflexivity).
  - intros name H. now apply getAttribute_setAttribute_other.
  - apply setAttribute_twice.
Qed.

(** ** The search fields *)

Section search_field_facts.
Context {W : Type}.
Variable search : string -> W -> W.

Lemma search_field_state (es : list SearchField.event) (n : nat)
    (v : string) (w : W) :
  let st := SearchField.run search es (SearchField.initial n v w) in
  exists l,
    SearchField.world st = invoked search l w
    /\ (List.length l <= SearchField.expiries es)%nat
    /\ (List.length l + List.length (SearchField.timeouts st)
        <= SearchField.inputs es)%nat
    /\ (SearchField.timeouts st = []
        \/ exists h,
             SearchField.timeouts st
             = [{| SearchField.handle := h; SearchField.delay := 300 |}]
             /\ SearchField.searchTimeout st = Some h).
Proof.
  cbv zeta. induction es as [|e es IH] using rev_ind.
  - exists []. repeat split; try apply le_n. now left.
  - unfold SearchField.run in *. rewrite fold_left_app. cbn [fold_left].
    destruct IH as (l & Hw & He & Hi & Ht).
    set (st := fold_left _ es _) in *.
    unfold SearchField.expiries, SearchField.inputs in *.
    rewrite !filter_app, !length_app.
    destruct e as [x|x|h']; cbn [SearchField.step filter List.length].
    + (* the user edits the field *)
      exists l. unfold SearchField.on_input, SearchField.set_value.
      cbn [SearchField.world SearchField.timeouts SearchField.searchTimeout
           SearchField.next_handle].
      assert (C : SearchField.clearTimeout (SearchField.searchTimeout st)
                    (SearchField.timeouts st) = []).
      { destruct Ht as [T|(h & T & S)]; rewrite T.
        - now destruct (SearchField.searchTimeout st).
        - rewrite S. cbn. now rewrite Nat.eqb_refl. }
      rewrite C. cbn [app List.length].
      split; [exact Hw|]. split; [lia|]. split; [lia|].
      right. now eexists.
    + (* a script assigns the value *)
      exists l. unfold SearchField.set_value.
      cbn [SearchField.world SearchField.timeouts
           SearchField.searchTimeout].
      split; [exact Hw|]. split; [lia|]. split; [lia|]. exact Ht.
    + (* a timeout expires *)
      unfold SearchField.expire.
      destruct Ht as [T|(h & T & S)]; rewrite T in *.
      * exists l. cbn [find]. rewrite T.
        split; [exact Hw|]. split; [lia|]. split; [cbn in *; lia|].
        now left.
      * cbn [find SearchField.handle].
        destruct (Nat.eqb_spec h h') as [->|Hne].
        -- exists (l ++ [SearchField.value st]).
           cbn [SearchField.world SearchField.timeouts filter
                SearchField.handle].
           rewrite Nat.eqb_refl. cbn [negb].
           split; [now rewrite invoked_last, Hw|].
           rewrite length_app. cbn [List.length] in *.
           split; [lia|]. split; [lia|]. now left.
        -- exists l. rewrite T.
           split; [exact Hw|]. split; [lia|]. split; [cbn in *; lia|].
           right. now exists h.
Qed.

(** X23: Whatever happens to a search field, at most one of its timeouts is
    pending, and the searches that have run are at most as many as the
    timeouts that expired and, with the pending one, at most as many as
    the edits of the user. *)
Theorem initializeSearch_coalesces (es : list SearchField.event) (n : nat)
    (v : string) (w : W) :
  let st := SearchField.run search es (SearchField.initial n v w) in
  (List.length (SearchField.timeouts st) <= 1)%nat
  /\ (forall t, In t (SearchField.timeouts st) ->
        SearchField.searchTimeout st = Some (SearchField.handle t)
        /\ SearchField.delay t = 300%Z)
  /\ exists l,
       SearchField.world st = invoked search l w
       /\ (List.length l <= SearchField.expiries es)%nat
       /\ (List.length l + List.length (SearchField.timeouts st)
           <= SearchField.inputs es)%nat.
Proof.
  cbv zeta.
  destruct (search_field_state es n v w)
    as (l & Hw & He & Hi & [T|(h & T & S)]).
  - rewrite T in *. split; [cbn; lia|]. split; [intros t []|].
    now exists l.
  - rewrite T in *. split; [cbn; lia|]. split.
    + intros t [<-|[]]. now split.
    + now exists l.
Qed.

Lemma search_field_input (y : string) (st : @SearchField.closure W) :
  (SearchField.timeouts st = []
   \/ exists t, SearchField.timeouts st = [t]
                /\ SearchField.searchTimeout st
                   = Some (SearchField.handle t)) ->
  SearchField.step search st (SearchField.Input y)
  = {| SearchField.searchTimeout := Some (SearchField.next_handle st);
       SearchField.timeouts :=
         [{| SearchField.handle := SearchField.next_handle st;
             SearchField.delay := 300 |}];
       SearchField.next_handle := S (SearchField.next_handle st);
       SearchField.value := y;
       SearchField.world := SearchField.world st |}.
Proof.
  intros H. unfold SearchField.step, SearchField.on_input,
    SearchField.set_value. cbn.
  destruct H as [->|(t & -> & ->)]; cbn.
  - now destruct (SearchField.searchTimeout st).
  - now rewrite Nat.eqb_refl.
Qed.

Lemma search_field_inputs (l : list string) (x : string)
    (st : @SearchField.closure W) :
  (SearchField.timeouts st = []
   \/ exists t, SearchField.timeouts st = [t]
                /\ SearchField.searchTimeout st
                   = Some (SearchField.handle t)) ->
  SearchField.run search (map SearchField.Input (l ++ [x])) st
  = {| SearchField.searchTimeout :=
         Some (SearchField.next_handle st + List.length l);
       SearchField.timeouts :=
         [{| SearchField.handle :=
               SearchField.next_handle st + List.length l;
             SearchField.delay := 300 |}];
       SearchField.next_handle :=
         S (SearchField.next_handle st + List.length l);
       SearchField.value := x;
       SearchField.world := SearchField.world st |}.
Proof.
  revert st. induction l as [|y l IH]; intros st H.
  - cbn [app map List.length]. unfold SearchField.run. cbn [fold_left].
    rewrite (search_field_input x st H). now rewrite Nat.add_0_r.
  - cbn [map app]. unfold SearchField.run in *. cbn [fold_left].
    rewrite (search_field_input y st H), IH.
    + cbn. now rewrite !Nat.add_succ_r.
    + right. eexists. split; reflexivity.
Qed.

Lemma last_default {A : Type} (x : A) (l : list A) (d d' : A) :
  last (x :: l) d = last (x :: l) d'.
Proof.
  revert x. induction l as [|y l IH]; intros x; [reflexivity|].
  change (last (y :: l) d = last (y :: l) d'). apply IH.
Qed.

Lemma search_field_assigns (l : list string) (st : @SearchField.closure W) :
  SearchField.run search (map SearchField.Assign l) st
  = SearchField.set_value (last l (SearchField.value st)) st.
Proof.
  revert st. induction l as [|y l IH]; intros st.
  - now destruct st.
  - cbn [map]. unfold SearchField.run in *. cbn [fold_left].
    rewrite IH. unfold SearchField.step, SearchField.set_value.
    cbn [SearchField.searchTimeout SearchField.timeouts
         SearchField.next_handle SearchField.value SearchField.world].
    f_equal. destruct l as [|s l]; [reflexivity|].
    change (last (y :: s :: l) (SearchField.value st))
      with (last (s :: l) (SearchField.value st)).
    apply last_default.
Qed.

(** X24: A search waits for the typing to stop: after a burst of edits one
    timeout is pending, and when it expires [performSearch] runs once, on
    the value the field holds at that moment, which is the last edit
    unless a script has assigned another value since. *)
Theorem initializeSearch_searches_once (edits : list string) (x : string)
    (assigned : list string) (n : nat) (v : string) (w : W) :
  SearchField.run search
    (map SearchField.Input (edits ++ [x])
     ++ map SearchField.Assign assigned
     ++ [SearchField.Expire (n + List.length edits)])
    (SearchField.initial n v w)
  = {| SearchField.searchTimeout := Some (n + List.length edits);
       SearchField.timeouts := [];
       SearchField.next_handle := S (n + List.length edits);
       SearchField.value := last assigned x;
       SearchField.world := search (last assigned x) w |}.
Proof.
  unfold SearchField.run. rewrite !fold_left_app.
  pose proof (search_field_inputs edits x (SearchField.initial n v w)
                (or_introl eq_refl)) as I.
  unfold SearchField.run in I. rewrite I. clear I.
  match goal with
  | |- context [fold_left _ (map SearchField.Assign assigned) ?s] =>
      pose proof (search_field_assigns assigned s) as I
  end.
  unfold SearchField.run in I. rewrite I. clear I.
  cbn. unfold SearchField.expire. cbn. now rewrite Nat.eqb_refl.
Qed.

End search_field_facts.

(** ** Search suggestions *)

Lemma lookup_present (el : nat) (t : node) :
  In el (ids t) -> exists x, lookup el t = Some x.
Proof.
  intros H. destruct (lookup el t) as [x|] eqn:E; [now exists x|].
  exfalso. now apply (lookup_None_absent el t E).
Qed.

Lemma keeps_id_with_childNodes (m : list node) :
  keeps_id (with_childNodes m).
Proof. intros i n a cs. cbn. apply Nat.eqb_refl. Qed.

Lemma ids_with_childNodes (c : nat) (m : list node) (t : node) :
  incl (ids (update c (with_childNodes m) t)) (ids t ++ flat_map ids m).
Proof.
  induction t as [s|i n a cs IH] using node_induction; [intros x []|].
  cbn [update]. destruct (i =? c)%nat.
  - cbn. intros x [<-|Hx]; [now left|]. right.
    apply in_app_iff. now right.
  - cbn [ids]. rewrite flat_map_map.
    intros x [<-|Hx]; [now left|]. right.
    apply in_flat_map in Hx as (d & Hd & Hx).
    rewrite Forall_forall in IH. apply (IH d Hd) in Hx.
    apply in_app_iff in Hx as [Hx|Hx]; apply in_app_iff;
      [left; apply in_flat_map; now exists d | now right].
Qed.

(** New children with fresh identities keep the identities distinct. *)
Lemma NoDup_with_childNodes (c : nat) (m : list node) (t : node) :
  NoDup (ids t) ->
  NoDup (flat_map ids m) ->
  (forall i, In i (flat_map ids m) -> ~ In i (ids t)) ->
  NoDup (ids (update c (with_childNodes m) t)).
Proof.
  intros N M. induction t as [s|i n a cs IH] using node_induction;
    [auto|].
  intros F. cbn [update]. destruct (i =? c)%nat.
  - cbn. constructor; [|exact M].
    intros Hin. apply (F i Hin). now left.
  - cbn [ids] in *. inversion N as [|? ? Hi Ncs]; subst.
    pose proof (ids_with_childNodes c m) as I.
    constructor.
    + rewrite flat_map_map. intros Hin.
      apply in_flat_map in Hin as (d & Hd & Hin).
      apply I in Hin. apply in_app_iff in Hin as [Hin|Hin].
      * apply Hi. apply in_flat_map. now exists d.
      * apply (F i Hin). now left.
    + assert (F' : forall x, In x (flat_map ids m) ->
                     ~ In x (flat_map ids cs))
        by (intros x Hx Hin; apply (F x Hx); now right).
      clear Hi N F. induction cs as [|d r IHr]; [constructor|].
      inversion IH as [|? ? Hd Hr]; subst. cbn [map flat_map] in *.
      apply NoDup_app_inv in Ncs as (Nd & Nr & D).
      assert (Fd : forall x, In x (flat_map ids m) -> ~ In x (ids d)).
      { intros x Hx Hin. apply (F' x Hx). apply in_app_iff. now left. }
      assert (Fr : forall x, In x (flat_map ids m) ->
                     ~ In x (flat_map ids r)).
      { intros x Hx Hin. apply (F' x Hx). apply in_app_iff. now right. }
      destruct (in_dec Nat.eq_dec c (ids d)) as [Ec|Ec].
      * assert (Er : map (update c (with_childNodes m)) r = r).
        { rewrite <- (map_id r) at 2. apply map_ext_in. intros e He.
          apply update_absent. intros Hin. apply (D c Ec).
          apply in_flat_map. now exists e. }
        rewrite Er. apply NoDup_app; [now apply Hd | assumption|].
        intros x Hx Hx2. apply I in Hx.
        apply in_app_iff in Hx as [Hx|Hx];
          [now apply (D x) | now apply (Fr x)].
      * rewrite (update_absent c _ d Ec).
        apply NoDup_app; [assumption | now apply IHr|].
        intros x Hx Hx2. rewrite flat_map_map in Hx2.
        apply in_flat_map in Hx2 as (e & He & Hx2).
        apply I in Hx2. apply in_app_iff in Hx2 as [Hx2|Hx2].
        -- apply (D x Hx). apply in_flat_map. now exists e.
        -- now apply (Fd x).
Qed.

(** The first element that matches a selector is still the first after
    it is given new children. *)
Lemma first_match_with_childNodes (sel : attributes -> bool) (c : nat)
    (m : list node) (t : node) :
  NoDup (ids t) ->
  hd_error (matching sel t) = Some c ->
  hd_error (matching sel (update c (with_childNodes m) t)) = Some c.
Proof.
  induction t as [s|i n a cs IH] using node_induction; [discriminate|].
  intros N. inversion N as [|? ? Hi Ncs]; subst.
  cbn [matching update]. destruct (sel a) eqn:S.
  - cbn [app hd_error]. intros H. inversion H; subst.
    rewrite Nat.eqb_refl. cbn. now rewrite S.
  - cbn [app]. intros H.
    assert (Hc : In c (flat_map ids cs)).
    { destruct (flat_map (matching sel) cs) as [|x l] eqn:E;
        [discriminate|]. inversion H; subst.
      apply (incl_flat_map ids (matching sel) cs
               (fun y _ => matching_ids sel y)).
      rewrite E. now left. }
    destruct (Nat.eqb_spec i c) as [->|Hne]; [contradiction|].
    cbn [matching]. rewrite S. cbn [app].
    clear Hi N Hc. induction cs as [|d r IHr]; [discriminate|].
    inversion IH as [|? ? Hd Hr]; subst. cbn [map flat_map] in *.
    apply NoDup_app_inv in Ncs as (Nd & Nr & D).
    destruct (matching sel d) as [|x l] eqn:E.
    + assert (Cr : In c (flat_map ids r)).
      { cbn [app] in H.
        destruct (flat_map (matching sel) r) as [|y l'] eqn:E';
          [discriminate|]. inversion H; subst.
        apply (incl_flat_map ids (matching sel) r
                 (fun y _ => matching_ids sel y)).
        rewrite E'. now left. }
      rewrite update_absent by (intros Hin; now apply (D c Hin)).
      rewrite E. cbn [app]. now apply IHr.
    + cbn [app hd_error] in H. inversion H; subst.
      assert (H' : hd_error (matching sel (update c (with_childNodes m) d))
                   = Some c) by now apply Hd.
      destruct (matching sel (update c (with_childNodes m) d));
        [discriminate | exact H'].
Qed.

(** X26: Suggestions replace what the container holds, they are not added to
    it: after [showSearchSuggestions] the first element of class
    [search-suggestions] holds the markup of the coins that fit the query
    and nothing else, also when suggestions were shown before. *)
Theorem showSearchSuggestions_replaces (query : string) (st : page)
    (container : nat) :
  is_ascii query = true ->
  NoDup (ids (body st)) ->
  hd_error (querySelectorAll (has_class "search-suggestions") st)
  = Some container ->
  let shown := showSearchSuggestions query st in
  hd_error (querySelectorAll (has_class "search-suggestions") shown)
  = Some container
  /\ exists n a old,
       lookup container (body st) = Some (Element container n a old)
       /\ lookup container (body shown)
          = Some (Element container n a
                    (suggestion_markup (next_node st)
                       (suggestions query))).
Proof.
  intros _ N H shown. subst shown. unfold showSearchSuggestions.
  rewrite H. unfold querySelectorAll in *. cbn [body set_body].
  split; [now apply first_match_with_childNodes|].
  assert (Hin : In container (ids (body st))).
  { apply (matching_ids (has_class "search-suggestions")).
    destruct (matching _ (body st)); [discriminate|].
    inversion H. now left. }
  destruct (lookup_present _ _ Hin) as (x & L).
  destruct (lookup_Element _ _ _ L) as (n & a & old & ->).
  exists n, a, old. split; [exact L|].
  rewrite lookup_update by apply keeps_id_with_childNodes.
  now rewrite L.
Qed.

Lemma showSearchSuggestions_replaces_witness :
  hd_error
    (querySelectorAll (has_class "search-suggestions")
       (showSearchSuggestions "bit"
          (load (Element 0 "body" []
                   [Element 1 "div" [("class", "search-suggestions")]
                      [Text "stale"]])
             2 "/" false)))
  = Some 1.
Proof.
  apply (showSearchSuggestions_replaces "bit"
           (load (Element 0 "body" []
                    [Element 1 "div" [("class", "search-suggestions")]
                       [Text "stale"]])
              2 "/" false) 1).
  - reflexivity.
  - simpl. repeat (constructor; [simpl; intuition lia|]). constructor.
  - reflexivity.
Defined.

(** *** The coins of the document *)

(** The identifiers [updatePrices] collects from the tagged elements are
    the coin identifiers of the document in tree order. *)
Lemma dataset_coinIds_values (t : node) :
  NoDup (ids t) ->
  flat_map
    (fun el =>
       match lookup el t with
       | Some n =>
           match getAttribute "data-coin-id" (attrs_of n) with
           | Some c => [c]
           | None => []
           end
       | None => []
       end)
    (matching coin_tagged t)
  = coin_values t.
Proof.
  induction t as [s|i n a cs IH] using node_induction; [reflexivity|].
  intros N. inversion N as [|? ? Hi Ncs]; subst.
  cbn [matching coin_values]. rewrite flat_map_app. f_equal.
  - unfold coin_tagged, has_attribute.
    destruct (getAttribute "data-coin-id" a) as [c|] eqn:E; [|reflexivity].
    cbn [flat_map lookup]. rewrite Nat.eqb_refl. cbn [attrs_of].
    now rewrite E.
  - (* below the root the root is never looked up *)
    transitivity
      (flat_map
         (fun el =>
            match first_some (lookup el) cs with
            | Some n =>
                match getAttribute "data-coin-id" (attrs_of n) with
                | Some c => [c]
                | None => []
                end
            | None => []
            end)
         (flat_map (matching coin_tagged) cs)).
    { apply flat_map_ext_in. intros el Hel. cbn [lookup].
      destruct (Nat.eqb_spec i el) as [->|Hne]; [|reflexivity].
      exfalso. apply Hi. revert Hel. apply incl_flat_map.
      intros x _. apply matching_ids. }
    clear Hi N. induction cs as [|d r IHr]; [reflexivity|].
    inversion IH as [|? ? Hd Hr]; subst. cbn [flat_map] in *.
    apply NoDup_app_inv in Ncs as (Nd & Nr & D).
    rewrite flat_map_app. f_equal.
    + rewrite <- (Hd Nd). apply flat_map_ext_in. intros el Hel.
      cbn [first_some].
      destruct (lookup_present el d (matching_ids _ _ _ Hel)) as (x & L).
      now rewrite L.
    + rewrite <- (IHr Hr Nr). apply flat_map_ext_in. intros el Hel.
      cbn [first_some]. rewrite (lookup_absent el d); [reflexivity|].
      intros Hin. apply (D el Hin). revert Hel. apply incl_flat_map.
      intros x _. apply matching_ids.
Qed.

Lemma dataset_coinIds_document (st : page) :
  NoDup (ids (body st)) ->
  dataset_coinIds (querySelectorAll coin_tagged st) st
  = coin_values (body st).
Proof.
  intros N. rewrite <- (dataset_coinIds_values (body st) N).
  unfold dataset_coinIds, dataset_coinId, querySelectorAll.
  apply flat_map_ext. intros el. now destruct (lookup el (body st)).
Qed.

Lemma coin_values_length (t : node) :
  List.length (coin_values t) = List.length (matching coin_tagged t).
Proof.
  induction t as [s|i n a cs IH] using node_induction; [reflexivity|].
  cbn [coin_values matching]. rewrite !length_app. f_equal.
  - unfold coin_tagged, has_attribute.
    now destruct (getAttribute "data-coin-id" a).
  - induction cs as [|d r IHr]; [reflexivity|].
    inversion IH as [|? ? Hd Hr]; subst. cbn [flat_map].
    now rewrite !length_app, Hd, (IHr Hr).
Qed.

(** [updatePrices] asks for the coin identifiers of the document, each
    once, in the order of their first occurrence. *)
Lemma updatePrices_coin_values (st : page) :
  NoDup (ids (body st)) ->
  map coinIds (pending (updatePrices st))
  = map coinIds (pending st)
    ++ match coin_values (body st) with
       | [] => []
       | l => [unique l]
       end.
Proof.
  intros N. pose proof (dataset_coinIds_document st N) as V.
  pose proof (coin_values_length (body st)) as L.
  unfold updatePrices. unfold querySelectorAll in *.
  destruct (matching coin_tagged (body st)) as [|e els] eqn:E.
  - destruct (coin_values (body st)); [|discriminate L].
    now rewrite app_nil_r.
  - unfold fetchCoinPrices. cbn [pending set_pending].
    destruct (showLoadingIndicators_frame (e :: els) st) as (P & _).
    rewrite P, map_app. cbn [map coinIds]. f_equal. rewrite V.
    destruct (coin_values (body st)); [discriminate L | reflexivity].
Qed.

(** *** The suggestions as tagged elements *)

Lemma ids_items_after (k : nat) (coins : list Suggestion.t) :
  flat_map ids (items_after k coins) = seq k (2 * List.length coins).
Proof.
  revert k. induction coins as [|c r IH]; intros k; [reflexivity|].
  cbn [items_after flat_map ids suggestion_item app List.length].
  rewrite IH. replace (2 * S (List.length r))%nat
    with (S (S (2 * List.length r)))%nat by lia.
  cbn [seq]. do 2 f_equal. f_equal. lia.
Qed.

Lemma ids_suggestion_markup (k : nat) (coins : list Suggestion.t) :
  flat_map ids (suggestion_markup k coins) = seq k (2 * List.length coins).
Proof.
  destruct coins as [|c r]; [reflexivity|].
  cbn [suggestion_markup flat_map ids suggestion_item app List.length].
  rewrite ids_items_after. replace (2 * S (List.length r))%nat
    with (S (S (2 * List.length r)))%nat by lia.
  cbn [seq]. do 2 f_equal. f_equal. lia.
Qed.

Lemma coin_values_items_after (k : nat) (coins : list Suggestion.t) :
  flat_map coin_values (items_after k coins) = map Suggestion.id coins.
Proof.
  revert k. induction coins as [|c r IH]; intros k; [reflexivity|].
  cbn [items_after flat_map map]. rewrite IH. reflexivity.
Qed.

Lemma coin_values_suggestion_markup (k : nat) (coins : list Suggestion.t) :
  flat_map coin_values (suggestion_markup k coins)
  = map Suggestion.id coins.
Proof.
  destruct coins as [|c r]; [reflexivity|].
  cbn [suggestion_markup flat_map map]. rewrite coin_values_items_after.
  reflexivity.
Qed.

Lemma coin_values_untagged (t : node) :
  matching coin_tagged t = [] -> coin_values t = [].
Proof.
  induction t as [s|i n a cs IH] using node_induction; [reflexivity|].
  cbn [matching coin_values]. intros H. apply app_eq_nil in H as [H1 H2].
  unfold coin_tagged, has_attribute in H1.
  destruct (getAttribute "data-coin-id" a); [discriminate|]. cbn [app].
  induction cs as [|d r IHr]; [reflexivity|].
  inversion IH as [|? ? Hd Hr]; subst. cbn [flat_map] in *.
  apply app_eq_nil in H2 as [H2 H3]. now rewrite (Hd H2), (IHr Hr H3).
Qed.

(** In a document without tagged elements, new children of one element
    bring the only coins. *)
Lemma coin_values_with_childNodes (c : nat) (m : list node) (t : node) :
  NoDup (ids t) ->
  matching coin_tagged t = [] ->
  In c (ids t) ->
  coin_values (update c (with_childNodes m) t) = flat_map coin_values m.
Proof.
  induction t as [s|i n a cs IH] using node_induction; [intros _ _ []|].
  intros N. inversion N as [|? ? Hi Ncs]; subst.
  cbn [matching]. intros H. apply app_eq_nil in H as [H1 H2].
  assert (A : getAttribute "data-coin-id" a = None).
  { unfold coin_tagged, has_attribute in H1.
    now destruct (getAttribute "data-coin-id" a). }
  cbn [update]. destruct (Nat.eqb_spec i c) as [->|Hne].
  - intros _. cbn [with_childNodes coin_values]. now rewrite A.
  - intros [E|Hc]; [contradiction|].
    cbn [coin_values]. rewrite A. cbn [app].
    clear Hi N H1 A. induction cs as [|d r IHr]; [contradiction|].
    inversion IH as [|? ? Hd Hr]; subst. cbn [map flat_map] in *.
    apply NoDup_app_inv in Ncs as (Nd & Nr & D).
    apply app_eq_nil in H2 as [H2 H3].
    apply in_app_iff in Hc as [Hc|Hc].
    + rewrite (Hd Nd H2 Hc).
      assert (Er : map (update c (with_childNodes m)) r = r).
      { rewrite <- (map_id r) at 2. apply map_ext_in. intros e He.
        apply update_absent. intros Hin. apply (D c Hc).
        apply in_flat_map. now exists e. }
      rewrite Er.
      assert (Z : flat_map coin_values r = []).
      { clear - H3. induction r as [|e r IHr]; [reflexivity|].
        cbn [flat_map] in *. apply app_eq_nil in H3 as [H3 H4].
        now rewrite (coin_values_untagged e H3), IHr. }
      now rewrite Z, app_nil_r.
    + rewrite update_absent by (intros Hin; now apply (D c Hin)).
      rewrite (coin_values_untagged d H2). cbn [app].
      now apply IHr.
Qed.

Lemma suggestions_distinct (query : string) :
  NoDup (map Suggestion.id (suggestions query)).
Proof.
  unfold suggestions, mockSuggestions. cbn [filter].
  repeat match goal with
         | |- context [if ?b then _ else _] => destruct b
         end;
    cbn [map Suggestion.id];
    repeat (constructor; [cbn; intuition discriminate|]); constructor.
Qed.

(** X27: The suggestions are tagged with their coins, so they join the price
    refresh: on a page that had no tagged element, the next
    [updatePrices] asks for the quotes of exactly the suggested coins. *)
Theorem suggestions_join_refresh (query : string) (st : page)
    (container : nat) :
  is_ascii query = true ->
  NoDup (ids (body st)) ->
  below (next_node st) (body st) ->
  hd_error (querySelectorAll (has_class "search-suggestions") st)
  = Some container ->
  querySelectorAll coin_tagged st = [] ->
  map coinIds (pending (updatePrices (showSearchSuggestions query st)))
  = map coinIds (pending st)
    ++ match suggestions query with
       | [] => []
       | coins => [map Suggestion.id coins]
       end.
Proof.
  intros _ N B H T.
  assert (Hin : In container (ids (body st))).
  { apply (matching_ids (has_class "search-suggestions")).
    unfold querySelectorAll in H.
    destruct (matching _ (body st)); [discriminate|].
    inversion H. now left. }
  set (m := suggestion_markup (next_node st) (suggestions query)).
  assert (Bs : body (showSearchSuggestions query st)
               = update container (with_childNodes m) (body st))
    by (unfold showSearchSuggestions; now rewrite H).
  assert (Ps : pending (showSearchSuggestions query st) = pending st)
    by (unfold showSearchSuggestions; now rewrite H).
  rewrite updatePrices_coin_values.
  - rewrite Ps, Bs, coin_values_with_childNodes by assumption.
    unfold m. rewrite coin_values_suggestion_markup.
    destruct (suggestions query) as [|c r] eqn:E; [reflexivity|].
    cbn [map]. do 2 f_equal.
    change (Suggestion.id c :: map Suggestion.id r)
      with (map Suggestion.id (c :: r)).
    rewrite <- E. apply unique_NoDup, suggestions_distinct.
  - rewrite Bs. apply NoDup_with_childNodes; [assumption| |].
    + unfold m. rewrite ids_suggestion_markup. apply seq_NoDup.
    + unfold m. intros i Hi. rewrite ids_suggestion_markup in Hi.
      apply in_seq in Hi. intros Hi'. apply B in Hi'. lia.
Qed.

Lemma suggestions_join_refresh_witness :
  map coinIds
    (pending
       (updatePrices
          (showSearchSuggestions "B"
             (load (Element 0 "body" []
                      [Element 1 "div" [("class", "search-suggestions")] []])
                2 "/" false))))
  = [["bitcoin"; "binancecoin"]].
Proof.
  apply (suggestions_join_refresh "B"
           (load (Element 0 "body" []
                    [Element 1 "div" [("class", "search-suggestions")] []])
              2 "/" false) 1).
  - reflexivity.
  - simpl. repeat (constructor; [simpl; intuition lia|]). constructor.
  - intros i Hi. simpl in Hi. simpl. lia.
  - reflexivity.
  - reflexivity.
Defined.

(** *** From the field to the suggestions *)

(** X25: What is typed into a search field is searched once the typing stops:
    when the timeout of the last edit expires, a value of fewer than two
    characters is neither logged nor searched, and a longer one is logged
    once and its suggestions are shown. *)
Theorem typed_query_is_searched (edits : list string) (x : string)
    (n : nat) (v : string) (log : list string) (pg : page) :
  is_ascii x = true ->
  SearchField.world
    (SearchField.run search_page
       (map SearchField.Input (edits ++ [x])
        ++ [SearchField.Expire (n + List.length edits)])
       (SearchField.initial n v (log, pg)))
  = if (String.length x <? 2)%nat then (log, pg)
    else (log ++ [("Searching for: " ++ x)%string],
          showSearchSuggestions x pg).
Proof.
  intros _. unfold SearchField.run. rewrite fold_left_app.
  pose proof (search_field_inputs search_page edits x
                (SearchField.initial n v (log, pg)) (or_introl eq_refl))
    as I.
  unfold SearchField.run in I. rewrite I. clear I.
  cbn [fold_left SearchField.step]. unfold SearchField.expire.
  cbn [find SearchField.timeouts SearchField.handle].
  rewrite Nat.eqb_refl. cbn [SearchField.world SearchField.value].
  unfold search_page, performSearch. cbn [snd fst].
  destruct (String.length x <? 2)%nat; [now rewrite app_nil_r|].
  reflexivity.
Qed.

Lemma typed_query_is_searched_witness :
  fst
    (SearchField.world
       (SearchField.run search_page
          (map SearchField.Input (["e"; "et"] ++ ["eth"])
           ++ [SearchField.Expire (1 + List.length ["e"; "et"])])
          (SearchField.initial 1 "" ([], about_page))))
  = ["Searching for: eth"].
Proof.
  rewrite (typed_query_is_searched ["e"; "et"] "eth" 1 "" [] about_page
             eq_refl).
  reflexivity.
Defined.

(** ** Copying to the clipboard *)

(** X28: [copyToClipboard] reports once. Without the clipboard interface, or
    outside a secure context, the text area it works with is gone from the
    document when it returns, and one banner is added: the success banner
    unless [execCommand] throws, whatever [execCommand] returns. With the
    interface nothing is shown until the promise of [writeText] settles,
    and then one banner is added. *)
Theorem copyToClipboard_reports_once (env : navigator) (copy : execCommand)
    (text : string) (st : copying) (bi : nat) (bn : string)
    (ba : attributes) (bcs : list node) :
  body (document st) = Element bi bn ba bcs ->
  below (next_node (document st)) (body (document st)) ->
  let st' := copyToClipboard env copy text st in
  let n := next_node (document st) in
  if clipboard env && isSecureContext env
  then
    st' = {| document := document st; writes := writes st ++ [text] |}
    /\ forall fulfilled,
         writes st = [] ->
         settle_write fulfilled st'
         = {| document :=
                showNotification
                  (if fulfilled then "Copied to clipboard"
                   else "Failed to copy")
                  (Some (if fulfilled then "success" else "error")) None
                  (document st);
              writes := [] |}
  else
    writes st' = writes st
    /\ lookup n (body (document st')) = None
    /\ exists banner,
         body (document st') = Element bi bn ba (bcs ++ [banner])
         /\ id_of banner = S n
         /\ className_of banner
            = ("alert alert-"
               ++ match copy with Returns _ => "success" | Throws => "error" end
               ++ " alert-dismissible fade show position-fixed")%string
         /\ timers (document st')
            = timers (document st)
              ++ [{| handle := next_timer (document st); repeating := false;
                     delay := 3000; action := RemoveNotification (S n) |}].
Proof.
  intros Hb B st' n. subst st'. unfold copyToClipboard.
  destruct (clipboard env && isSecureContext env).
  - split; [reflexivity|]. intros fulfilled W.
    unfold settle_write. cbn [writes document]. rewrite W. cbn [app].
    now destruct fulfilled.
  - unfold createElement. cbn [with_attribute id_of].
    assert (F : ~ In n (flat_map ids bcs)).
    { intros Hin. assert (n < n)%nat; [|lia].
      apply B. rewrite Hb. now right. }
    assert (Fb : bi <> n).
    { intros ->. assert (n < n)%nat; [|lia].
      apply B. rewrite Hb. now left. }
    assert (R : forall type message,
              let pg :=
                remove_element n
                  (showNotification message (Some type) None
                     (set_body
                        (append_child
                           (Element n "textarea"
                              [("style",
                                "position: fixed; left: -999999px; top: -999999px;")]
                              [])
                           (body (set_next_node (S n) (document st))))
                        (set_next_node (S n) (document st)))) in
              lookup n (body pg) = None
              /\ exists banner,
                   body pg = Element bi bn ba (bcs ++ [banner])
                   /\ id_of banner = S n
                   /\ className_of banner
                      = ("alert alert-" ++ type
                         ++ " alert-dismissible fade show position-fixed")%string
                   /\ timers pg
                      = timers (document st)
                        ++ [{| handle := next_timer (document st);
                               repeating := false; delay := 3000;
                               action := RemoveNotification (S n) |}]).
    { intros type message pg. subst pg.
      unfold showNotification, remove_element, createElement, setTimeout,
        set_timer.
      cbn [body set_body set_next_node next_node timers set_timers snd
           next_timer with_attribute append_child id_of].
      rewrite Hb.
      cbn [append_child remove]. rewrite !map_app, !filter_app.
      rewrite (remove_forest_absent n bcs F).
      cbn [map remove filter has_id negb app]. fold n. eqb_lia.
      cbn [negb app filter]. rewrite ?app_nil_r. split.
      - apply lookup_absent. cbn [ids]. rewrite flat_map_app.
        cbn [flat_map ids app]. intros [E|Hin]; [now apply Fb|].
        apply in_app_iff in Hin as [Hin|Hin]; [now apply F|].
        cbn in Hin. lia.
      - eexists. split; [reflexivity|]. repeat split. }
    cbn [writes document]. split; [reflexivity|].
    destruct copy as [done|]; apply R.
Qed.

Lemma copyToClipboard_reports_once_witness :
  lookup 2
    (body
       (document
          (copyToClipboard {| clipboard := false; isSecureContext := true |}
             (Returns false) "0xabc"
             {| document := about_page; writes := [] |})))
  = None.
Proof.
  apply (copyToClipboard_reports_once
           {| clipboard := false; isSecureContext := true |} (Returns false)
           "0xabc" {| document := about_page; writes := [] |} 0 "body" []
           [Element 1 "p" [] [Text "About"]] eq_refl).
  intros i Hi. simpl in Hi. simpl. lia.
Defined.

(** ** Clicks *)

Lemma ancestors_absent (target : nat) (t : node) :
  ~ In target (ids t) -> ancestors target t = None.
Proof.
  induction t as [s|i n a cs IH] using node_induction; [reflexivity|].
  cbn [ancestors ids]. intros H.
  destruct (Nat.eqb_spec i target) as [->|Hne];
    [exfalso; apply H; now left|].
  rewrite first_some_none; [reflexivity|].
  intros d Hd. rewrite Forall_forall in IH. apply IH; [exact Hd|].
  intros Hin. apply H. right. apply in_flat_map. now exists d.
Qed.

Lemma ancestors_present (target : nat) (t : node) :
  In target (ids t) -> exists l, ancestors target t = Some l.
Proof.
  induction t as [s|i n a cs IH] using node_induction; [intros []|].
  cbn [ancestors ids]. intros H.
  destruct (Nat.eqb_spec i target) as [->|Hne]; [now eexists|].
  destruct H as [E|H]; [contradiction|].
  assert (S : exists l, first_some (ancestors target) cs = Some l).
  { induction cs as [|d r IHr]; [contradiction|].
    inversion IH as [|? ? Hd Hr]; subst. cbn [flat_map first_some] in *.
    destruct (ancestors target d) as [l|] eqn:E; [now exists l|].
    apply in_app_iff in H as [H|H]; [|now apply IHr].
    destruct (Hd H) as (l & El). congruence. }
  destruct S as (l & ->). now eexists.
Qed.

(** The elements above an element of a subtree include the root of the
    subtree. *)
Lemma ancestors_below (b target : nat) (t nb : node) :
  NoDup (ids t) ->
  lookup b t = Some nb ->
  In target (ids nb) ->
  exists l, ancestors target t = Some l /\ In (attrs_of nb) l.
Proof.
  induction t as [s|i n a cs IH] using node_induction; [discriminate|].
  intros N L H. inversion N as [|? ? Hi Ncs]; subst.
  cbn [lookup] in L. destruct (Nat.eqb_spec i b) as [->|Hne].
  - inversion L; subst nb.
    destruct (ancestors_present target _ H) as (l & E).
    exists l. split; [exact E|].
    cbn [ancestors] in E. cbn [attrs_of].
    destruct (b =? target)%nat.
    + inversion E. now left.
    + destruct (first_some (ancestors target) cs); [|discriminate].
      inversion E. now left.
  - assert (Ht : In target (flat_map ids cs)).
    { pose proof (lookup_ids b (Element i n a cs) nb) as I.
      cbn [lookup] in I.
      destruct (Nat.eqb_spec i b) as [|_]; [contradiction|].
      specialize (I L target H). destruct I as [E|I]; [|exact I].
      subst target. exfalso.
      destruct (lookup_Element b (Element i n a cs) nb) as (m & a' & cs' & ->).
      { cbn [lookup]. destruct (Nat.eqb_spec i b); [contradiction|exact L]. }
      destruct H as [->|H]; [contradiction|].
      apply Hi.
      assert (In b (flat_map ids cs)).
      { assert (X : In b (ids (Element i n a cs))).
        { apply (lookup_in b _ (Element b m a' cs')). cbn [lookup].
          destruct (Nat.eqb_spec i b); [contradiction|exact L]. }
        destruct X as [X|X]; [contradiction | exact X]. }
      clear - L H Ncs. induction cs as [|d r IHr]; [discriminate|].
      cbn [first_some flat_map] in *.
      apply NoDup_app_inv in Ncs as (Nd & Nr & D).
      destruct (lookup b d) as [x|] eqn:E.
      + inversion L; subst x. apply in_app_iff. left.
        apply (lookup_ids b d _ E). now right.
      + apply in_app_iff. right. now apply IHr. }
    cbn [ancestors]. destruct (Nat.eqb_spec i target) as [->|_];
      [contradiction|].
    assert (S : exists l, first_some (ancestors target) cs = Some l
                          /\ In (attrs_of nb) l).
    { clear Hi N. induction cs as [|d r IHr]; [discriminate|].
      inversion IH as [|? ? Hd Hr]; subst. cbn [first_some flat_map] in *.
      apply NoDup_app_inv in Ncs as (Nd & Nr & D).
      destruct (lookup b d) as [x|] eqn:E.
      - inversion L; subst x.
        destruct (Hd Nd eq_refl H) as (l & El & Il).
        rewrite El. now exists l.
      - assert (Td : ~ In target (ids d)).
        { intros Hin. apply (D target Hin).
          clear - L H. induction r as [|e r IHr]; [discriminate|].
          cbn [first_some flat_map] in *.
          destruct (lookup b e) as [x|] eqn:E.
          - inversion L; subst x. apply in_app_iff. left.
            now apply (lookup_ids b e nb E).
          - apply in_app_iff. right. now apply IHr. }
        rewrite (ancestors_absent target d Td).
        apply in_app_iff in Ht as [Ht|Ht]; [contradiction|].
        now apply IHr. }
    destruct S as (l & -> & Il). exists (a :: l). split; [reflexivity|].
    now right.
Qed.

(** X29: A click anywhere within an element of class [refresh-prices], on the
    button itself or on what it holds, starts one manual refresh and
    cancels the default action of the click. *)
Theorem click_within_refresh_button (env : navigator) (copy : execCommand)
    (documentElement : attributes) (target : nat) (st : copying)
    (button : nat) (nb : node) :
  NoDup (ids (body (document st))) ->
  lookup button (body (document st)) = Some nb ->
  has_class "refresh-prices" (attrs_of nb) = true ->
  In target (ids nb) ->
  let c := on_click env copy documentElement target st in
  defaultPrevented c = true
  /\ (matches_within "copy-to-clipboard" documentElement target
        (refreshPrices (document st)) = false ->
      after c
      = {| document := refreshPrices (document st); writes := writes st |}).
Proof.
  intros N L C H c. subst c.
  assert (M : matches_within "refresh-prices" documentElement target
                (document st) = true).
  { unfold matches_within.
    destruct (ancestors_below button target _ nb N L H) as (l & -> & Il).
    cbn [existsb]. apply orb_true_iff. right.
    apply existsb_exists. now exists (attrs_of nb). }
  unfold on_click. rewrite M. cbn [defaultPrevented after document].
  split; [reflexivity|]. intros E. now rewrite E.
Qed.

Lemma click_within_refresh_button_witness :
  defaultPrevented
    (on_click {| clipboard := true; isSecureContext := true |} Throws [] 2
       {| document :=
            load (Element 0 "body" []
                    [Element 1 "button" [("class", "btn refresh-prices")]
                       [Element 2 "i" [("class", "icon")] []]])
              3 "/dashboard" false;
          writes := [] |})
  = true.
Proof.
  apply (click_within_refresh_button
           {| clipboard := true; isSecureContext := true |} Throws [] 2
           {| document :=
                load (Element 0 "body" []
                        [Element 1 "button" [("class", "btn refresh-prices")]
                           [Element 2 "i" [("class", "icon")] []]])
                  3 "/dashboard" false;
              writes := [] |}
           1
           (Element 1 "button" [("class", "btn refresh-prices")]
              [Element 2 "i" [("class", "icon")] []])).
  - simpl. repeat (constructor; [simpl; intuition lia|]). constructor.
  - reflexivity.
  - reflexivity.
  - simpl. auto.
Defined.

(** ** Prices that are not above one *)

(** X30: [formatPrice] takes every price that is not at least 1 through its
    second branch, negative prices of any size included: a finite one is
    shown with exactly 6 fractional digits, after a minus sign when it is
    negative. *)
Theorem formatPrice_below_one (p : number) :
  is_finite p = true ->
  ge p (of_Z 1) = false ->
  formatPrice p = format_currency_USD 6 p
  /\ fraction_digits (formatPrice p) = Some 6%nat
  /\ begins_with "-" (formatPrice p) = sign_bit p.
Proof.
  intros F G. unfold formatPrice. rewrite G.
  split; [reflexivity|]. split.
  - now apply format_currency_fraction_digits.
  - unfold format_currency_USD. now destruct (sign_bit p).
Qed.

Lemma formatPrice_below_one_witness :
  fraction_digits (formatPrice (of_Z (-1250))) = Some 6%nat.
Proof.
  apply (formatPrice_below_one (of_Z (-1250))); vm_compute; reflexivity.
Defined.

(** Some prices that are not above one, and a missing one. *)
Lemma formatPrice_examples :
  formatPrice (of_Z (-1250)) = "-$1,250.000000"
  /\ formatPrice (div (of_Z 1) (of_Z 3)) = "$0.333333"
  /\ formatPrice (of_Z 0) = "$0.000000"
  /\ formatPrice NaN = "$NaN".
Proof. vm_compute. repeat split. Qed.

(** ** Markers that are not there *)

Lemma matching_subtree (sel : attributes -> bool) (el : nat) (t n : node) :
  lookup el t = Some n -> incl (matching sel n) (matching sel t).
Proof.
  induction t as [s|i nm a cs IH] using node_induction; [discriminate|].
  cbn [lookup]. destruct (i =? el)%nat.
  - intros H. inversion H. apply incl_refl.
  - intros H. cbn [matching]. apply incl_appr.
    induction cs as [|c cs IHcs]; [discriminate|].
    inversion IH as [|? ? Hc Hcs]; subst. cbn [first_some flat_map] in *.
    destruct (lookup el c) eqn:E.
    + inversion H; subst. apply incl_appl. now apply Hc.
    + apply incl_appr. now apply IHcs.
Qed.

(** X15: [hideLoadingIndicators] looks for a marker below each element and
    removes what it finds: on a document without markers it changes
    nothing, whatever elements it is given, present or not. *)
Theorem hideLoadingIndicators_without_markers (elements : list nat)
    (st : page) :
  loading_markers st = [] ->
  hideLoadingIndicators elements st = st.
Proof.
  intros C. unfold hideLoadingIndicators. apply fold_left_fixed.
  intros el _. unfold querySelector.
  destruct (lookup el (body st)) as [n|] eqn:L; [|reflexivity].
  assert (M : matching loading_marker n = []).
  { pose proof (matching_subtree loading_marker el _ n L) as I.
    unfold loading_markers, querySelectorAll in C. rewrite C in I.
    destruct (matching loading_marker n) as [|x l]; [reflexivity|].
    destruct (I x (or_introl eq_refl)). }
  destruct n as [s|i nm a cs]; [reflexivity|].
  cbn [matching childNodes_of] in *. apply app_eq_nil in M as [_ M].
  now rewrite M.
Qed.

Lemma hideLoadingIndicators_without_markers_witness :
  hideLoadingIndicators [1; 2; 3; 99] price_table = price_table.
Proof.
  apply (hideLoadingIndicators_without_markers [1; 2; 3; 99] price_table).
  reflexivity.
Defined.

(** ** A rejected cycle on the example table *)

Lemma rejected_cycle_on_flat_document_witness :
  exists banner,
    body (refresh_cycle (Rejected "offline") price_table)
    = Element 0 "body" []
        ([tagged 1 "span" "bitcoin" "price-display" [Text "$1.00"];
          tagged 2 "span" "bitcoin" "change-display text-danger"
            [Text "-0.50%"];
          tagged 3 "span" "ethereum" "price-display" []] ++ [banner])
    /\ loading_markers (refresh_cycle (Rejected "offline") price_table) = []
    /\ error_notifications (refresh_cycle (Rejected "offline") price_table)
       = error_notifications price_table ++ [id_of banner].
Proof.
  apply (rejected_cycle_on_flat_document price_table "offline" 0 "body" []
           [tagged 1 "span" "bitcoin" "price-display" [Text "$1.00"];
            tagged 2 "span" "bitcoin" "change-display text-danger"
              [Text "-0.50%"];
            tagged 3 "span" "ethereum" "price-display" []]).
  - reflexivity.
  - reflexivity.
  - discriminate.
  - simpl. repeat (constructor; [simpl; intuition lia|]). constructor.
  - intros i Hi. simpl in Hi. simpl. lia.
  - reflexivity.
  - simpl. repeat split; discriminate.
Defined.

(** ** A fetch in flight and the ticker *)

Lemma showNotification_document (message : string) (type : option string)
    (duration : option Z) (st st' : page) :
  body st' = body st -> next_node st' = next_node st ->
  body (showNotification message type duration st')
  = body (showNotification message type duration st).
Proof.
  intros B K. unfold showNotification, createElement, setTimeout, set_timer.
  cbn [snd body set_body set_timers set_next_node next_node with_attribute
       append_child id_of].
  now rewrite B, K.
Qed.

(** What the settling of a fetch does to the document depends on the
    document and the pending fetches only. *)
Lemma settle_document (o : outcome) (st st' : page) :
  NoDup (ids (body st)) ->
  body st' = body st -> next_node st' = next_node st ->
  pending st' = pending st ->
  body (settle o st') = body (settle o st).
Proof.
  intros N B K P. unfold settle. rewrite P.
  destruct (pending st) as [|r rest]; [exact B|].
  set (s := set_pending rest st). set (s' := set_pending rest st').
  assert (Bs : body s' = body s) by exact B.
  assert (Ns : NoDup (ids (body s))) by exact N.
  assert (Ns' : NoDup (ids (body s'))) by (rewrite Bs; exact N).
  destruct o as [ps|e].
  - unfold updatePrices_then.
    rewrite (updatePriceElements_render ps s Ns).
    rewrite (updatePriceElements_render ps s' Ns').
    rewrite !hideLoadingIndicators_steps
      by (cbn [body set_body]; apply prunes_render; assumption).
    cbn [body set_body]. now rewrite Bs.
  - unfold updatePrices_catch.
    rewrite !hideLoadingIndicators_steps by assumption.
    apply showNotification_document; cbn [body set_body next_node set_console];
      [now rewrite Bs | exact K].
Qed.

Lemma clear_priceUpdateInterval_document (st : page) :
  body (clear_priceUpdateInterval st) = body st
  /\ next_node (clear_priceUpdateInterval st) = next_node st
  /\ pending (clear_priceUpdateInterval st) = pending st.
Proof.
  unfold clear_priceUpdateInterval.
  destruct (priceUpdateInterval st) as [[|h]|]; repeat split.
Qed.

(** X14: Stopping the ticker does not cancel a fetch in flight: after
    [beforeunload], and after the page is hidden, the fetch is still
    pending, and when it settles its handlers change the document as they
    would have with the ticker running. *)
Theorem fetch_in_flight_is_not_cancelled (o : outcome) (st : page) :
  NoDup (ids (body st)) ->
  pending (step st BeforeUnload) = pending st
  /\ pending (step st (VisibilityChange true)) = pending st
  /\ body (settle o (step st BeforeUnload)) = body (settle o st)
  /\ body (settle o (step st (VisibilityChange true))) = body (settle o st).
Proof.
  intros N. cbn [step]. unfold on_beforeunload, on_visibilitychange.
  cbn [hidden set_hidden].
  destruct (clear_priceUpdateInterval_document st) as (B1 & K1 & P1).
  destruct (clear_priceUpdateInterval_document (set_hidden true st))
    as (B2 & K2 & P2).
  cbn [body next_node pending set_hidden] in B2, K2, P2.
  split; [exact P1|]. split; [exact P2|].
  split; now apply settle_document.
Qed.

Lemma fetch_in_flight_is_not_cancelled_witness :
  body
    (settle (Fulfilled example_quotes)
       (step (updatePrices price_table) (VisibilityChange true)))
  = body (settle (Fulfilled example_quotes) (updatePrices price_table)).
Proof.
  apply (fetch_in_flight_is_not_cancelled (Fulfilled example_quotes)
           (updatePrices price_table)).
  vm_compute. repeat (constructor; [simpl; intuition lia|]). constructor.
Defined.
